(** * DeepSet: a set container keyed by deep equality, indexed by hash buckets

    A shallow embedding of [DeepSet<T>] (src/DeepSet.ts).  JavaScript objects
    live in a store: a [DeepSet] instance holds a reference to a [Map] object,
    whose entries hold references to bucket arrays.  The methods are written
    in a small state-and-failure monad over that store, so that sharing
    between instances ([clone], the operands of the set algebra) is part of
    the model.

    The element type [T], the hash function [hashIt] (package hash-it),
    the equality [isEqual] and the deep copy of one value [cloneDeepValue]
    (lodash) are parameters of the development; their contracts are the
    hypotheses of the theorems that need them. *)

From Stdlib Require Import ZArith Lia.
From stdpp Require Import gmap list.

Local Open Scope Z_scope.

(** ** Pure helpers: JavaScript [Array] and [Map] primitives on lists *)

Section ArrayPrims.
Context {A : Type}.

  (** [Array.prototype.findIndex]: index of the first element satisfying
      the predicate, [-1] when there is none. *)
Fixpoint findIndex (p : A → bool) (l : list A) : Z :=
  match l with
  | [] => -1
  | x :: r => if p x then 0 else
                let i := findIndex p r in
                if i =? -1 then -1 else i + 1
  end.

  (** [Array.prototype.splice(start, deleteCount)] without inserted items:
      what is left in the array. *)
Definition splice (start deleteCount : nat) (l : list A) : list A :=
  take start l ++ drop (start + deleteCount) l.

End ArrayPrims.

Section MapPrims.
Context {V : Type}.

  (** A JavaScript [Map<number, V>] keeps its entries in insertion order:
      an association list with distinct keys. *)
Fixpoint entries_get (k : Z) (es : list (Z * V)) : option V :=
  match es with
  | [] => None
  | (k', v) :: r => if k' =? k then Some v else entries_get k r
  end.

  (** [Map.prototype.set]: an existing key keeps its position, a new key is
      appended. *)
Fixpoint entries_set (k : Z) (v : V) (es : list (Z * V)) : list (Z * V) :=
  match es with
  | [] => [(k, v)]
  | (k', v') :: r => if k' =? k then (k', v) :: r else (k', v') :: entries_set k v r
  end.

  (** [Map.prototype.delete]. *)
Fixpoint entries_delete (k : Z) (es : list (Z * V)) : list (Z * V) :=
  match es with
  | [] => []
  | (k', v') :: r => if k' =? k then r else (k', v') :: entries_delete k r
  end.

End MapPrims.

(** ** The object store *)

Abbreviation loc := positive (only parsing).

(** The three kinds of object the class allocates. *)
Inductive obj (T : Type) : Type :=
| OArray (vs : list T)                (* a bucket, [T[]] *)
| OMap (es : list (Z * loc))          (* [Map<number, T[]>], in insertion order *)
| ODeepSet (_map : loc) (_size : Z).  (* an instance: its two private fields *)

Arguments OArray {T} vs.
Arguments OMap {T} es.
Arguments ODeepSet {T} _map _size.

(** ** An instance of the parameters, for examples

    Integers, hashed by their last decimal digit (so that [1] and [11]
    collide), compared by value; a deep copy of an integer is the integer. *)

Definition example_hash (x : Z) : Z := x mod 10.

Definition example_clone (x : Z) : Z := x.

(** The store after [A = new DeepSet(1, 11, 2)], [B = new DeepSet(2, 3)]
    and [D = new DeepSet(5)]: [A] is at reference 2, [B] at reference 6 and
    [D] at reference 10. *)
Definition example_store : gmap positive (obj Z) :=
  {[ 1%positive := OMap [(1, 3%positive); (2, 4%positive)];
     2%positive := ODeepSet 1 0;
     3%positive := OArray [1; 11];
     4%positive := OArray [2];
     5%positive := OMap [(2, 7%positive); (3, 8%positive)];
     6%positive := ODeepSet 5 0;
     7%positive := OArray [2];
     8%positive := OArray [3];
     9%positive := OMap [(5, 11%positive)];
     10%positive := ODeepSet 9 0;
     11%positive := OArray [5] ]}.

Section DeepSet.
Context {T : Type}.
Variable hashIt : T → Z.
Variable isEqual : T → T → bool.
Variable cloneDeepValue : T → T.

Abbreviation heap := (gmap loc (obj T)).

  (** *** The monad: a store transformer that may fail on a dangling or
      ill-typed reference *)

Definition M (A : Type) : Type := heap → option (A * heap).

Definition ret {A} (a : A) : M A := λ h, Some (a, h).

Definition bind {A B} (m : M A) (f : A → M B) : M B :=
  λ h, match m h with
       | Some (a, h') => f a h'
       | None => None
       end.

Notation "'let*' x ':=' m 'in' k" := (bind m (λ x, k))
  (at level 10, x name, m at level 100, k at level 200).

  (** A read-only computation, run in the current store. *)
Definition read {A} (r : heap → option A) : M A :=
  λ h, match r h with
       | Some a => Some (a, h)
       | None => None
       end.

  (** [new]: the object is placed at a reference not in use. *)
Definition alloc (o : obj T) : M loc :=
  λ h, let l := fresh (dom h) in Some (l, <[l := o]> h).

Definition store (l : loc) (o : obj T) : M unit :=
  λ h, match h !! l with
       | Some _ => Some (tt, <[l := o]> h)
       | None => None
       end.

Fixpoint forEach_ {A} (f : A → M unit) (l : list A) : M unit :=
  match l with
  | [] => ret tt
  | x :: r => let* _ := f x in forEach_ f r
  end.

  (** *** Typed reads *)

Definition get__map (h : heap) (this : loc) : option loc :=
  match h !! this with
  | Some (ODeepSet m _) => Some m
  | _ => None
  end.

Definition get_entries (h : heap) (m : loc) : option (list (Z * loc)) :=
  match h !! m with
  | Some (OMap es) => Some es
  | _ => None
  end.

Definition get_array (h : heap) (a : loc) : option (list T) :=
  match h !! a with
  | Some (OArray vs) => Some vs
  | _ => None
  end.

  (** The assignment [this._map = m]. *)
Definition set__map (this m : loc) : M unit :=
  λ h, match h !! this with
       | Some (ODeepSet _ sz) => Some (tt, <[this := ODeepSet m sz]> h)
       | _ => None
       end.

  (** *** [Map] and [Array] methods on store objects *)

Definition Map_has (m : loc) (k : Z) : M bool :=
  read (λ h, es ← get_entries h m; Some (bool_decide (is_Some (entries_get k es)))).

Definition Map_get (m : loc) (k : Z) : M (option loc) :=
  read (λ h, es ← get_entries h m; Some (entries_get k es)).

Definition Map_set (m : loc) (k : Z) (a : loc) : M unit :=
  let* es := read (λ h, get_entries h m) in
  store m (OMap (entries_set k a es)).

Definition Map_delete (m : loc) (k : Z) : M unit :=
  let* es := read (λ h, get_entries h m) in
  store m (OMap (entries_delete k es)).

Definition Map_clear (m : loc) : M unit :=
  let* _ := read (λ h, get_entries h m) in
  store m (OMap []).

Definition Array_push (a : loc) (v : T) : M unit :=
  let* vs := read (λ h, get_array h a) in
  store a (OArray (vs ++ [v])).

Definition Array_splice (a : loc) (start deleteCount : nat) : M unit :=
  let* vs := read (λ h, get_array h a) in
  store a (OArray (splice start deleteCount vs)).

  (** *** The class *)

  (** [private _add(value)] *)
Definition _add (this : loc) (value : T) : M unit :=
  let hash := hashIt value in
  let* m := read (λ h, get__map h this) in
  let* present := Map_has m hash in
  let* _ := (if negb present
             then let* a := alloc (OArray []) in Map_set m hash a
             else ret tt) in
  let* values := Map_get m hash in
  match values with
  | Some a =>
      let* vs := read (λ h, get_array h a) in
      if negb (existsb (λ v, isEqual v value) vs)
      then Array_push a value
      else ret tt
  | None => ret tt
  end.

  (** [add(...values)]: returns [this]. *)
Definition add (this : loc) (values : list T) : M loc :=
  let* _ := forEach_ (_add this) values in
  ret this.

  (** [constructor(...values)], with the field initialisers
      [_map = new Map()] and [_size = 0]. *)
Definition new_DeepSet (values : list T) : M loc :=
  let* m := alloc (OMap []) in
  let* this := alloc (ODeepSet m 0) in
  let* _ := add this values in
  ret this.

  (** [has(value)]: reads only.  [this._map.get(hash) || []] is the bucket
      when the key is registered and a new empty array otherwise. *)
Definition has (this : loc) (value : T) (h : heap) : option bool :=
  let hash := hashIt value in
  m ← get__map h this;
  es ← get_entries h m;
  values ← match entries_get hash es with
            | Some a => get_array h a
            | None => Some []
            end;
  Some (existsb (λ v, isEqual v value) values).

  (** [delete(value)].  When the key is not registered, [values] is a new
      empty array, [findIndex] gives [-1] and nothing is written. *)
Definition delete (this : loc) (value : T) : M bool :=
  let hash := hashIt value in
  let* m := read (λ h, get__map h this) in
  let* g := Map_get m hash in
  match g with
  | None => ret false
  | Some values =>
      let* vs := read (λ h, get_array h values) in
      let index := findIndex (λ v, isEqual v value) vs in
      if negb (index =? -1) then
        let* _ := Array_splice values (Z.to_nat index) 1 in
        let* vs' := read (λ h, get_array h values) in
        let* _ := (if Z.of_nat (length vs') =? 0
                   then Map_delete m hash
                   else Map_set m hash values) in
        ret true
      else ret false
  end.

  (** [clear()] *)
Definition clear (this : loc) : M unit :=
  let* m := read (λ h, get__map h this) in
  Map_clear m.

  (** The buckets of a map, in the map's order. *)
Definition read_buckets (h : heap) (es : list (Z * loc)) : option (list (list T)) :=
  mapM (λ e, get_array h e.2) es.

  (** [get size()]: the sum of the bucket lengths. *)
Definition size (this : loc) (h : heap) : option Z :=
  m ← get__map h this;
  es ← get_entries h m;
  bs ← read_buckets h es;
  Some (foldl (λ size values, size + Z.of_nat (length values)) 0 bs).

  (** [*values()]: bucket after bucket, each in its own order.  The
      generator is consumed by loops that write only to a container
      allocated by the same method, so the sequence it yields is the one
      read when the loop starts. *)
Definition values (this : loc) (h : heap) : option (list T) :=
  m ← get__map h this;
  es ← get_entries h m;
  bs ← read_buckets h es;
  Some (concat bs).

  (** [*keys()], [*entries()] and [*[Symbol.iterator]()] all run [values()]. *)
Definition keys (this : loc) (h : heap) : option (list T) := values this h.

Definition entries (this : loc) (h : heap) : option (list (T * T)) :=
  vs ← values this h; Some (map (λ value, (value, value)) vs).

Definition iterator (this : loc) (h : heap) : option (list T) := values this h.

  (** Modelled from the spec: lodash's [cloneDeep] is not part of the
      sources.  On a [Map<number, T[]>] it builds a new [Map] with the same
      keys in the same order, each bound to a new array holding deep copies
      ([cloneDeepValue]) of the elements: "a full deep copy of every stored
      Value and every Bucket". *)
Definition cloneDeep (m : loc) : M loc :=
  let* es := read (λ h, get_entries h m) in
  let* result := alloc (OMap []) in
  let* _ := forEach_ (λ e : Z * loc,
              let* vs := read (λ h, get_array h e.2) in
              let* a := alloc (OArray (map cloneDeepValue vs)) in
              Map_set result e.1 a) es in
  ret result.

  (** [clone()] *)
Definition clone (this : loc) : M loc :=
  let* newSet := new_DeepSet [] in
  let* m := read (λ h, get__map h this) in
  let* m' := cloneDeep m in
  let* _ := set__map newSet m' in
  ret newSet.

  (** [intersection(otherSet)] *)
Definition intersection (this otherSet : loc) : M loc :=
  let* result := new_DeepSet [] in
  let* vs := read (iterator this) in
  let* _ := forEach_ (λ value,
              let* present := read (has otherSet value) in
              if present then let* _ := add result [value] in ret tt
              else ret tt) vs in
  ret result.

  (** [union(other)]: [other] is one instance or an array of instances. *)
Definition union (this : loc) (other : loc + list loc) : M loc :=
  let otherSets := match other with inl s => [s] | inr l => l end in
  let* result := clone this in
  let* _ := forEach_ (λ set,
              let* vs := read (values set) in
              forEach_ (λ value, let* _ := add result [value] in ret tt) vs)
              otherSets in
  ret result.

  (** [difference(other)] *)
Definition difference (this other : loc) : M loc :=
  let* differenceSet := new_DeepSet [] in
  let* vs := read (values this) in
  let* _ := forEach_ (λ value,
              let* present := read (has other value) in
              if negb present then let* _ := add differenceSet [value] in ret tt
              else ret tt) vs in
  ret differenceSet.

  (** [symmetricDifference(other)] *)
Definition symmetricDifference (this other : loc) : M loc :=
  let* symmetricDifferenceSet := new_DeepSet [] in
  let* vs := read (values this) in
  let* _ := forEach_ (λ value,
              let* present := read (has other value) in
              if negb present
              then let* _ := add symmetricDifferenceSet [value] in ret tt
              else ret tt) vs in
  let* ws := read (values other) in
  let* _ := forEach_ (λ value,
              let* present := read (has this value) in
              if negb present
              then let* _ := add symmetricDifferenceSet [value] in ret tt
              else ret tt) ws in
  ret symmetricDifferenceSet.

  (** [isDisjointFrom(other)] *)
Definition isDisjointFrom (this other : loc) : M bool :=
  let* u := union this (inl other) in
  let* n := read (size u) in
  ret (n =? 0).

(** ** The logical content of an instance

    The buckets of an instance, read through its references: the list of
    (hash key, bucket) pairs in the order of the underlying [Map]. *)

Abbreviation buckets := (list (Z * list T)).

Definition bucket_at (h : heap) (e : Z * loc) (b : Z * list T) : Prop :=
  e.1 = b.1 ∧ get_array h e.2 = Some b.2.

  (** [repr h this m es c]: in store [h], [this] is an instance whose
      [_map] is the [Map] object [m] with entries [es]; distinct keys are
      bound to distinct arrays, whose contents are [c]. *)
Record repr (h : heap) (this m : loc) (es : list (Z * loc)) (c : buckets) : Prop :=
  Repr {
    repr_this : get__map h this = Some m;
    repr_map : get_entries h m = Some es;
    repr_buckets : Forall2 (bucket_at h) es c;
    repr_keys : NoDup es.*1;
    repr_locs : NoDup es.*2
  }.

  (** The references an instance owns. *)
Definition footprint (this m : loc) (es : list (Z * loc)) : gset loc :=
  {[this; m]} ∪ list_to_set es.*2.

  (** [frame h h' fp fp']: going from [h] to [h'], every object outside
      [fp] is left as it was, and [fp'] adds to [fp] only references that
      were not in use. *)
Definition frame (h h' : heap) (fp fp' : gset loc) : Prop :=
  (∀ l, l ∉ fp → is_Some (h !! l) → h' !! l = h !! l) ∧
  (∀ l, l ∈ fp' → l ∈ fp ∨ h !! l = None).

  (** The methods on the logical content. *)
Definition bucket_of (k : Z) (c : buckets) : list T :=
  default [] (entries_get k c).

Definition member (l : list T) (value : T) : bool :=
  existsb (λ v, isEqual v value) l.

Definition c_has (value : T) (c : buckets) : bool :=
  member (bucket_of (hashIt value) c) value.

Definition c_add (value : T) (c : buckets) : buckets :=
  let values := bucket_of (hashIt value) c in
  if member values value then c
  else entries_set (hashIt value) (values ++ [value]) c.

Definition c_delete (value : T) (c : buckets) : bool * buckets :=
  match entries_get (hashIt value) c with
  | None => (false, c)
  | Some values =>
      let index := findIndex (λ v, isEqual v value) values in
      if negb (index =? -1) then
        let values' := splice (Z.to_nat index) 1 values in
        (true, if Z.of_nat (length values') =? 0
               then entries_delete (hashIt value) c
               else entries_set (hashIt value) values' c)
      else (false, c)
  end.

Definition c_values (c : buckets) : list T := concat c.*2.

Definition c_size (c : buckets) : Z := Z.of_nat (length (c_values c)).

Definition c_clone (c : buckets) : buckets :=
  map (λ e, (e.1, map cloneDeepValue e.2)) c.

  (** *** Well-formed instances and the container invariant *)

  (** [this] is an instance of the class in [h]. *)
Definition DeepSet_wf (h : heap) (this : loc) : Prop :=
  ∃ m es c, repr h this m es c.

  (** No two values of a list are deep-equal. *)
Definition distinct (l : list T) : Prop :=
  ∀ i j x y, l !! i = Some x → l !! j = Some y → isEqual x y = true → i = j.

  (** The container invariant: in every bucket no two values are
      deep-equal, and no registered bucket is empty. *)
Definition buckets_inv (c : buckets) : Prop :=
  Forall (λ e, distinct e.2 ∧ e.2 ≠ []) c.

Definition DeepSet_inv (h : heap) (this : loc) : Prop :=
  ∃ m es c, repr h this m es c ∧ buckets_inv c.

  (** Every stored value sits in the bucket registered under its hash. *)
Definition hashed (c : buckets) : Prop :=
  Forall (λ e, Forall (λ v, hashIt v = e.1) e.2) c.

  (** A consistent instance: the invariant, and every value under its
      hash. *)
Definition DeepSet_ok (h : heap) (this : loc) : Prop :=
  ∃ m es c, repr h this m es c ∧ buckets_inv c ∧ hashed c.

  (** Two instances that share no object. *)
Definition separate (h : heap) (s t : loc) : Prop :=
  ∃ m es c m' es' c',
    repr h s m es c ∧ repr h t m' es' c' ∧
    footprint s m es ## footprint t m' es'.

  (** *** The iteration order, as the specification words it *)

  (** The distinct hash keys of an insertion sequence, in the order of
      their first introduction. *)
Definition first_keys (vs : list T) : list Z :=
  foldl (λ ks v, if bool_decide (hashIt v ∈ ks) then ks else ks ++ [hashIt v]) [] vs.

  (** The values of an insertion sequence that fall under key [k], without
      the ones deep-equal to an earlier one, in insertion order. *)
Definition bucket_seq (k : Z) (vs : list T) : list T :=
  foldl (λ b v, if member b v then b else b ++ [v]) []
        (filter (λ v, hashIt v = k) vs).

Definition bucket_order (vs : list T) : list T :=
  concat (map (λ k, bucket_seq k vs) (first_keys vs)).

  (** *** Mutations, for the isolation of clones *)

Inductive mutation : Type :=
| MAdd (values : list T)
| MDelete (value : T)
| MClear.

Definition mutate (this : loc) (mu : mutation) : M unit :=
  match mu with
  | MAdd values => let* _ := add this values in ret tt
  | MDelete value => let* _ := delete this value in ret tt
  | MClear => clear this
  end.

  (** [add(...values)] on the logical content. *)
Definition c_add_all (values : list T) (c : buckets) : buckets :=
  foldl (λ c value, c_add value c) c values.

  (** The set algebra on the logical content. *)
Definition c_intersection (ca cb : buckets) : buckets :=
  c_add_all (List.filter (λ v, c_has v cb) (c_values ca)) [].

Definition c_difference (ca cb : buckets) : buckets :=
  c_add_all (List.filter (λ v, negb (c_has v cb)) (c_values ca)) [].

Definition c_symmetricDifference (ca cb : buckets) : buckets :=
  c_add_all (List.filter (λ v, negb (c_has v ca)) (c_values cb)) (c_difference ca cb).

Definition c_union (ca : buckets) (cbs : list buckets) : buckets :=
  foldl (λ c cb, c_add_all (c_values cb) c) (c_clone ca) cbs.

  (** A mutation on the logical content. *)
Definition c_mutate (mu : mutation) (c : buckets) : buckets :=
  match mu with
  | MAdd values => c_add_all values c
  | MDelete value => (c_delete value c).2
  | MClear => []
  end.

  (** A sequence of mutations, each aimed at the clone ([true]) or at the
      source ([false]). *)
Definition mutate_either (source clone : loc) (x : bool * mutation) : M unit :=
  mutate (if x.1 then clone else source) x.2.

Definition aimed_at (side : bool) (l : list (bool * mutation)) : list mutation :=
  map snd (List.filter (λ x, eqb x.1 side) l).

  (** [distinct], as a check. *)
Fixpoint distinctb (l : list T) : bool :=
  match l with
  | [] => true
  | x :: r => negb (member r x) && forallb (λ y, negb (isEqual x y)) r && distinctb r
  end.

(** ** The remaining methods: subset tests and higher-order traversal

    These methods only read the store.  A callback receives the value, its
    zero-based traversal index and the receiver; it is a function of these
    (a callback that writes to the container it is traversing is outside
    the model). *)

  (** The scan [for (const value of vs) if (!target.has(value)) return false;
      return true] of [isSubsetOf] and [isSupersetOf]. *)
Fixpoint all_present (target : loc) (h : heap) (vs : list T) : option bool :=
  match vs with
  | [] => Some true
  | value :: r =>
      present ← has target value h;
      if negb present then Some false else all_present target h r
  end.

  (** [isSubsetOf(other)] *)
Definition isSubsetOf (this other : loc) (h : heap) : option bool :=
  vs ← values this h; all_present other h vs.

  (** [isSupersetOf(other)] *)
Definition isSupersetOf (this other : loc) (h : heap) : option bool :=
  items ← iterator other h; all_present this h items.

  (** [map(cb)]: [result.push(cb(value, index++, this))]. *)
Fixpoint map_loop {U} (cb : T → Z → loc → U) (this : loc)
    (index : Z) (result : list U) (vs : list T) : list U :=
  match vs with
  | [] => result
  | value :: r => map_loop cb this (index + 1) (result ++ [cb value index this]) r
  end.

Definition DeepSet_map {U} (cb : T → Z → loc → U) (this : loc) (h : heap)
    : option (list U) :=
  vs ← values this h; Some (map_loop cb this 0 [] vs).

  (** [filter(cb)]: [if (cb(value, index++, this)) result.push(value)]. *)
Fixpoint filter_loop (cb : T → Z → loc → bool) (this : loc)
    (index : Z) (result : list T) (vs : list T) : list T :=
  match vs with
  | [] => result
  | value :: r =>
      filter_loop cb this (index + 1)
        (if cb value index this then result ++ [value] else result) r
  end.

Definition DeepSet_filter (cb : T → Z → loc → bool) (this : loc) (h : heap)
    : option (list T) :=
  vs ← values this h; Some (filter_loop cb this 0 [] vs).

  (** [reduce(cb, initialValue)]:
      [accumulator = cb(accumulator, value, index++, this)]. *)
Fixpoint reduce_loop {U} (cb : U → T → Z → loc → U) (this : loc)
    (index : Z) (accumulator : U) (vs : list T) : U :=
  match vs with
  | [] => accumulator
  | value :: r => reduce_loop cb this (index + 1) (cb accumulator value index this) r
  end.

Definition DeepSet_reduce {U} (cb : U → T → Z → loc → U) (initialValue : U)
    (this : loc) (h : heap) : option U :=
  vs ← values this h; Some (reduce_loop cb this 0 initialValue vs).

  (** [some(cb)]: [true] at the first value the callback accepts. *)
Fixpoint some_loop (cb : T → Z → loc → bool) (this : loc)
    (index : Z) (vs : list T) : bool :=
  match vs with
  | [] => false
  | value :: r => if cb value index this then true else some_loop cb this (index + 1) r
  end.

Definition DeepSet_some (cb : T → Z → loc → bool) (this : loc) (h : heap)
    : option bool :=
  vs ← values this h; Some (some_loop cb this 0 vs).

  (** [every(cb)]: [false] at the first value the callback rejects. *)
Fixpoint every_loop (cb : T → Z → loc → bool) (this : loc)
    (index : Z) (vs : list T) : bool :=
  match vs with
  | [] => true
  | value :: r =>
      if negb (cb value index this) then false else every_loop cb this (index + 1) r
  end.

Definition DeepSet_every (cb : T → Z → loc → bool) (this : loc) (h : heap)
    : option bool :=
  vs ← values this h; Some (every_loop cb this 0 vs).

  (** [find(cb)]: the first value the callback accepts, [undefined]
      ([None]) when there is none. *)
Fixpoint find_loop (cb : T → Z → loc → bool) (this : loc)
    (index : Z) (vs : list T) : option T :=
  match vs with
  | [] => None
  | value :: r => if cb value index this then Some value else find_loop cb this (index + 1) r
  end.

Definition DeepSet_find (cb : T → Z → loc → bool) (this : loc) (h : heap)
    : option (option T) :=
  vs ← values this h; Some (find_loop cb this 0 vs).

  (** [flatMap(cb)]: [result.push(...cb(value, index++, this))]. *)
Fixpoint flatMap_loop {U} (cb : T → Z → loc → list U) (this : loc)
    (index : Z) (result : list U) (vs : list T) : list U :=
  match vs with
  | [] => result
  | value :: r => flatMap_loop cb this (index + 1) (result ++ cb value index this) r
  end.

Definition DeepSet_flatMap {U} (cb : T → Z → loc → list U) (this : loc) (h : heap)
    : option (list U) :=
  vs ← values this h; Some (flatMap_loop cb this 0 [] vs).

(** * Proofs *)

(** ** [Array] and [Map] primitives *)

Lemma findIndex_ge {A} (p : A → bool) (l : list A) : -1 ≤ findIndex p l.
Proof.
  induction l as [|x r IH]; simpl; [lia|].
  destruct (p x); [lia|]. destruct (findIndex p r =? -1) eqn:E; lia.
Qed.

Lemma findIndex_none {A} (p : A → bool) (l : list A) :
  findIndex p l = -1 ↔ existsb p l = false.
Proof.
  induction l as [|x r IH]; simpl; [done|].
  pose proof (findIndex_ge p r).
  destruct (p x); simpl; [split; [lia|done]|].
  destruct (findIndex p r =? -1) eqn:E.
  - apply Z.eqb_eq in E. split; [intros _; by apply IH | done].
  - apply Z.eqb_neq in E. split; [lia|]. intros Hx. apply IH in Hx. lia.
Qed.

(** When [findIndex] finds an index, it is the position of the first
    element satisfying the predicate. *)
Lemma findIndex_found {A} (p : A → bool) (l : list A) :
  findIndex p l ≠ -1 →
  ∃ l1 x l2, l = l1 ++ x :: l2 ∧ Z.to_nat (findIndex p l) = length l1 ∧
             p x = true ∧ existsb p l1 = false.
Proof.
  induction l as [|x r IH]; simpl; [done|].
  destruct (p x) eqn:Hp.
  - intros _. by exists [], x, r.
  - pose proof (findIndex_ge p r).
    destruct (findIndex p r =? -1) eqn:E; [done|]. apply Z.eqb_neq in E.
    intros _. destruct (IH E) as (l1 & y & l2 & -> & Hi & Hy & Hl1).
    exists (x :: l1), y, l2. simpl. rewrite Hp. repeat split; try done. lia.
Qed.

Lemma splice_middle {A} (l1 l2 : list A) (x : A) :
  splice (length l1) 1 (l1 ++ x :: l2) = l1 ++ l2.
Proof.
  unfold splice. rewrite take_app_length. f_equal.
  rewrite drop_app_ge by lia. by replace (length l1 + 1 - length l1)%nat with 1%nat by lia.
Qed.

Lemma entries_get_None {V} (k : Z) (es : list (Z * V)) :
  entries_get k es = None ↔ k ∉ es.*1.
Proof.
  induction es as [|[k' v] r IH]; simpl.
  - split; [intros _; apply not_elem_of_nil | done].
  - rewrite not_elem_of_cons. destruct (k' =? k) eqn:E.
    + apply Z.eqb_eq in E. split; [done | intros [? _]; congruence].
    + apply Z.eqb_neq in E. rewrite IH. split; [intros ?; split; [congruence | done] | tauto].
Qed.

Lemma entries_get_Some {V} (k : Z) (es : list (Z * V)) v :
  entries_get k es = Some v → (k, v) ∈ es.
Proof.
  induction es as [|[k' v'] r IH]; simpl; [done|].
  destruct (k' =? k) eqn:E.
  - apply Z.eqb_eq in E. intros [= ->]. subst. apply list_elem_of_here.
  - intros ?. apply list_elem_of_further. auto.
Qed.

Lemma entries_get_set {V} (k k' : Z) (v : V) (es : list (Z * V)) :
  entries_get k' (entries_set k v es) =
  if bool_decide (k' = k) then Some v else entries_get k' es.
Proof.
  induction es as [|[k0 v0] r IH]; simpl.
  - case_bool_decide; subst; [by rewrite Z.eqb_refl|].
    destruct (k =? k') eqn:E; [apply Z.eqb_eq in E; congruence | done].
  - destruct (k0 =? k) eqn:E; simpl.
    + apply Z.eqb_eq in E. subst. case_bool_decide; subst.
      * by rewrite Z.eqb_refl.
      * destruct (k =? k') eqn:E'; [apply Z.eqb_eq in E'; congruence | done].
    + destruct (k0 =? k') eqn:E'; [|done].
      apply Z.eqb_eq in E'. apply Z.eqb_neq in E. subst.
      case_bool_decide; [congruence | done].
Qed.

Lemma entries_set_absent {V} (k : Z) (v : V) (es : list (Z * V)) :
  entries_get k es = None → entries_set k v es = es ++ [(k, v)].
Proof.
  induction es as [|[k0 v0] r IH]; simpl; [done|].
  destruct (k0 =? k); [done|]. intros ?. f_equal. auto.
Qed.

Lemma entries_get_delete {V} (k k' : Z) (es : list (Z * V)) :
  NoDup es.*1 →
  entries_get k' (entries_delete k es) =
  if bool_decide (k' = k) then None else entries_get k' es.
Proof.
  induction es as [|[k0 v0] r IH]; simpl; intros Hnd.
  - by case_bool_decide.
  - apply NoDup_cons in Hnd as [Hk0 Hnd]. destruct (k0 =? k) eqn:E; simpl.
    + apply Z.eqb_eq in E. subst. case_bool_decide; subst.
      * by apply entries_get_None.
      * destruct (k =? k') eqn:E'; [apply Z.eqb_eq in E'; congruence | done].
    + rewrite IH by done. apply Z.eqb_neq in E.
      destruct (k0 =? k') eqn:E'; [|done].
      apply Z.eqb_eq in E'. subst. by case_bool_decide.
Qed.

Lemma entries_delete_sublist {V} (k : Z) (es : list (Z * V)) :
  sublist (entries_delete k es) es.
Proof.
  induction es as [|[k0 v0] r IH]; simpl; [done|].
  destruct (k0 =? k); [by apply sublist_cons | by apply sublist_skip].
Qed.

Lemma entries_delete_set_absent {V} (k : Z) (v : V) (es : list (Z * V)) :
  entries_get k es = None → entries_delete k (entries_set k v es) = es.
Proof.
  induction es as [|[k0 v0] r IH]; simpl.
  - by rewrite Z.eqb_refl.
  - destruct (k0 =? k) eqn:E; [done|]. simpl. rewrite E. intros ?. f_equal. auto.
Qed.

Lemma entries_set_set {V} (k : Z) (v w : V) (es : list (Z * V)) :
  entries_set k w (entries_set k v es) = entries_set k w es.
Proof.
  induction es as [|[k0 v0] r IH]; simpl.
  - by rewrite Z.eqb_refl.
  - destruct (k0 =? k) eqn:E; simpl; rewrite E; [done|]. by f_equal.
Qed.

Lemma entries_set_same {V} (k : Z) (v : V) (es : list (Z * V)) :
  entries_get k es = Some v → entries_set k v es = es.
Proof.
  induction es as [|[k0 v0] r IH]; simpl; [done|].
  destruct (k0 =? k) eqn:E; [by intros [= ->]|]. intros ?. f_equal. auto.
Qed.

(** ** Reading an instance through its representation *)

Lemma buckets_keys h es (c : buckets) :
  Forall2 (bucket_at h) es c → es.*1 = c.*1.
Proof. induction 1 as [|e b es c [? ?] _ IH]; csimpl; congruence. Qed.

Lemma buckets_get h es (c : buckets) k :
  Forall2 (bucket_at h) es c →
  match entries_get k es with
  | None => entries_get k c = None
  | Some a => ∃ b, entries_get k c = Some b ∧ get_array h a = Some b
  end.
Proof.
  induction 1 as [|[k1 a1] [k2 b2] es c [Hk Ha] _ IH]; simpl in *; [done|].
  subst k2. destruct (k1 =? k); [eauto | done].
Qed.

Lemma buckets_frame h h' es (c : buckets) :
  Forall2 (bucket_at h) es c →
  (∀ a, a ∈ es.*2 → h' !! a = h !! a) →
  Forall2 (bucket_at h') es c.
Proof.
  induction 1 as [|e b es c [Hk Ha] _ IH]; intros Hfr; constructor.
  - split; [done|]. unfold get_array in *. rewrite Hfr; [done|]. csimpl. left.
  - apply IH. intros a Hin. apply Hfr. csimpl. by right.
Qed.

Lemma buckets_update h es (c : buckets) k a nb :
  Forall2 (bucket_at h) es c → NoDup es.*2 → entries_get k es = Some a →
  Forall2 (bucket_at (<[a := OArray nb]> h)) es (entries_set k nb c).
Proof.
  induction 1 as [|[k1 a1] [k2 b2] es c [Hk Ha] Hall IH]; csimpl in *; [done|].
  intros [Hnin Hnd]%NoDup_cons. subst k2. destruct (k1 =? k) eqn:E.
  - intros [= ->]. constructor.
    + split; [done|]. unfold get_array. simpl. by rewrite lookup_insert_eq.
    + eapply buckets_frame; [done|]. intros a' Hin.
      apply lookup_insert_ne. by intros ->.
  - intros Hget. constructor; [|by apply IH].
    split; [done|]. unfold get_array in *. simpl in *.
    rewrite lookup_insert_ne; [done|]. intros ->.
    apply Hnin. apply entries_get_Some in Hget.
    apply list_elem_of_fmap. by exists (k, a1).
Qed.

Lemma buckets_delete h es (c : buckets) k :
  Forall2 (bucket_at h) es c →
  Forall2 (bucket_at h) (entries_delete k es) (entries_delete k c).
Proof.
  induction 1 as [|[k1 a1] [k2 b2] es c [Hk Ha] Hall IH]; simpl in *; [done|].
  subst k2. destruct (k1 =? k); [done|]. by constructor.
Qed.

Lemma read_buckets_repr h es (c : buckets) :
  Forall2 (bucket_at h) es c → read_buckets h es = Some c.*2.
Proof.
  intros H. unfold read_buckets. apply mapM_Some.
  induction H as [|e b es c [Hk Ha] _ IH]; csimpl; by constructor.
Qed.

Lemma has_repr h this m es c value :
  repr h this m es c → has this value h = Some (c_has value c).
Proof.
  intros [Hs Hm Hb _ _]. unfold has, c_has, bucket_of. rewrite Hs. simpl.
  rewrite Hm. simpl. pose proof (buckets_get h es c (hashIt value) Hb) as Hg.
  destruct (entries_get (hashIt value) es) as [a|].
  - destruct Hg as (b & -> & ->). done.
  - rewrite Hg. done.
Qed.

Lemma values_repr h this m es c :
  repr h this m es c → values this h = Some (c_values c).
Proof.
  intros [Hs Hm Hb _ _]. unfold values. rewrite Hs. simpl. rewrite Hm. simpl.
  by rewrite (read_buckets_repr _ _ _ Hb).
Qed.

Lemma sum_lengths (bs : list (list T)) (n : Z) :
  foldl (λ size values, size + Z.of_nat (length values)) n bs
  = n + Z.of_nat (length (concat bs)).
Proof.
  revert n. induction bs as [|b bs IH]; intros n; simpl; [lia|].
  rewrite IH, length_app. lia.
Qed.

Lemma size_repr h this m es c :
  repr h this m es c → size this h = Some (c_size c).
Proof.
  intros [Hs Hm Hb _ _]. unfold size. rewrite Hs. simpl. rewrite Hm. simpl.
  rewrite (read_buckets_repr _ _ _ Hb). simpl. by rewrite sum_lengths.
Qed.

(** Objects of different kinds sit at different references. *)
Lemma repr_this_ne_map h this m es c : repr h this m es c → this ≠ m.
Proof.
  intros [Hs Hm _ _ _] ->. unfold get__map, get_entries in *.
  destruct (h !! m) as [[]|]; done.
Qed.

Lemma repr_bucket_ne h this m es c a :
  repr h this m es c → a ∈ es.*2 → a ≠ this ∧ a ≠ m ∧ is_Some (h !! a).
Proof.
  intros [Hs Hm Hb _ _] Hin.
  assert (∃ b, get_array h a = Some b) as [b Ha].
  { clear Hs Hm. induction Hb as [|e b es c [Hk Ha] _ IH]; csimpl in *.
    - by apply elem_of_nil in Hin.
    - apply elem_of_cons in Hin as [->|Hin]; eauto. }
  unfold get__map, get_entries, get_array in *.
  split; [|split].
  - intros ->. destruct (h !! this) as [[]|]; done.
  - intros ->. destruct (h !! m) as [[]|]; done.
  - destruct (h !! a) as [[]|]; done.
Qed.

Lemma repr_dom h this m es c l :
  repr h this m es c → l ∈ footprint this m es → is_Some (h !! l).
Proof.
  intros Hr. unfold footprint. rewrite !elem_of_union, !elem_of_singleton, elem_of_list_to_set.
  intros [[->| ->]|Hin].
  - destruct Hr as [Hs _ _ _ _]. unfold get__map in Hs. destruct (h !! this); done.
  - destruct Hr as [_ Hm _ _ _]. unfold get_entries in Hm. destruct (h !! m); done.
  - by eapply repr_bucket_ne.
Qed.

(** An instance is unchanged when the objects it owns are. *)
Lemma repr_agree h h' this m es c :
  repr h this m es c →
  (∀ l, l ∈ footprint this m es → h' !! l = h !! l) →
  repr h' this m es c.
Proof.
  intros [Hs Hm Hb Hk Hl] Hag. split; try done.
  - unfold get__map in *. rewrite Hag; [done|].
    apply elem_of_union_l, elem_of_union_l. by apply elem_of_singleton.
  - unfold get_entries in *. rewrite Hag; [done|].
    apply elem_of_union_l, elem_of_union_r. by apply elem_of_singleton.
  - eapply buckets_frame; [done|]. intros a Ha. apply Hag.
    by apply elem_of_union_r, elem_of_list_to_set.
Qed.

Lemma repr_weaken h h' this m es c :
  repr h this m es c → h ⊆ h' → repr h' this m es c.
Proof.
  intros Hr Hsub. eapply repr_agree; [done|]. intros l Hl.
  destruct (repr_dom _ _ _ _ _ _ Hr Hl) as [o Ho].
  rewrite Ho. by eapply lookup_weaken.
Qed.

Lemma repr_frame h h' this m es c fp fp' :
  repr h this m es c → frame h h' fp fp' → footprint this m es ## fp →
  repr h' this m es c.
Proof.
  intros Hr [Hfr _] Hdisj. eapply repr_agree; [done|]. intros l Hl.
  apply Hfr; [intros ?; by apply (Hdisj l) | by eapply repr_dom].
Qed.

Lemma frame_refl h fp : frame h h fp fp.
Proof. split; auto. Qed.

Lemma frame_trans h1 h2 h3 fp1 fp2 fp3 :
  frame h1 h2 fp1 fp2 → frame h2 h3 fp2 fp3 → frame h1 h3 fp1 fp3.
Proof.
  intros [P1 F1] [P2 F2]. split.
  - intros l Hl Hs. rewrite <- (P1 l Hl Hs). apply P2.
    + intros Hin. destruct (F1 l Hin) as [?|Hn]; [done|].
      rewrite Hn in Hs. by destruct Hs.
    + by rewrite (P1 l Hl Hs).
  - intros l Hl. destruct (F2 l Hl) as [Hin|Hn]; [by apply F1|].
    destruct (decide (l ∈ fp1)) as [|Hnin]; [by left|]. right.
    destruct (h1 !! l) eqn:E; [|done].
    rewrite <- (P1 l Hnin), Hn in E; [done | by rewrite E].
Qed.

(** What a frame keeps for a store [h0] that the footprint stays clear of. *)
Lemma frame_subseteq h0 h h' fp fp' :
  frame h h' fp fp' → h0 ⊆ h → fp ## dom h0 →
  h0 ⊆ h' ∧ fp' ## dom h0.
Proof.
  intros [P F] Hsub Hdisj. split.
  - apply map_subseteq_spec. intros l o Hl.
    assert (h !! l = Some o) as Hl' by (by eapply lookup_weaken).
    rewrite P; [done| |by rewrite Hl'].
    intros Hin. apply (Hdisj l Hin). apply elem_of_dom. by rewrite Hl.
  - intros l Hin Hd. destruct (F l Hin) as [?|Hn]; [by apply (Hdisj l)|].
    apply elem_of_dom in Hd as [o Ho].
    by rewrite (lookup_weaken _ _ _ _ Ho Hsub) in Hn.
Qed.

(** ** Running the primitives *)

Lemma bind_Some {A B} (m : M A) (f : A → M B) h a h1 :
  m h = Some (a, h1) → bind m f h = f a h1.
Proof. unfold bind. by intros ->. Qed.

Lemma read_Some {A} (r : heap → option A) h a :
  r h = Some a → read r h = Some (a, h).
Proof. unfold read. by intros ->. Qed.

(** One step of a computation whose outcome [H] is known. *)
Tactic Notation "run" uconstr(H) := rewrite (bind_Some _ _ _ _ _ H).
Tactic Notation "run_read" uconstr(H) :=
  rewrite (bind_Some _ _ _ _ _ (read_Some _ _ _ H)).

Lemma Map_has_Some h m es k :
  get_entries h m = Some es →
  Map_has m k h = Some (bool_decide (is_Some (entries_get k es)), h).
Proof. intros Hm. unfold Map_has. apply read_Some. by rewrite Hm. Qed.

Lemma Map_get_Some h m es k :
  get_entries h m = Some es → Map_get m k h = Some (entries_get k es, h).
Proof. intros Hm. unfold Map_get. apply read_Some. by rewrite Hm. Qed.

Lemma store_Some h l o :
  is_Some (h !! l) → store l o h = Some (tt, <[l := o]> h).
Proof. intros [o' Ho]. unfold store. by rewrite Ho. Qed.

Lemma get_entries_Some h m es : get_entries h m = Some es → h !! m = Some (OMap es).
Proof. unfold get_entries. destruct (h !! m) as [[]|]; naive_solver. Qed.

Lemma get_array_Some h a vs : get_array h a = Some vs → h !! a = Some (OArray vs).
Proof. unfold get_array. destruct (h !! a) as [[]|]; naive_solver. Qed.

Lemma get__map_Some h this m :
  get__map h this = Some m → ∃ sz, h !! this = Some (ODeepSet m sz).
Proof. unfold get__map. destruct (h !! this) as [[]|]; naive_solver. Qed.

Lemma Map_set_Some h m es k a :
  get_entries h m = Some es →
  Map_set m k a h = Some (tt, <[m := OMap (entries_set k a es)]> h).
Proof.
  intros Hm. unfold Map_set. run_read Hm.
  apply store_Some. apply get_entries_Some in Hm. by rewrite Hm.
Qed.

Lemma Map_delete_Some h m es k :
  get_entries h m = Some es →
  Map_delete m k h = Some (tt, <[m := OMap (entries_delete k es)]> h).
Proof.
  intros Hm. unfold Map_delete. run_read Hm.
  apply store_Some. apply get_entries_Some in Hm. by rewrite Hm.
Qed.

Lemma Map_clear_Some h m es :
  get_entries h m = Some es → Map_clear m h = Some (tt, <[m := OMap []]> h).
Proof.
  intros Hm. unfold Map_clear. run_read Hm.
  apply store_Some. apply get_entries_Some in Hm. by rewrite Hm.
Qed.

Lemma Array_push_Some h a vs v :
  get_array h a = Some vs →
  Array_push a v h = Some (tt, <[a := OArray (vs ++ [v])]> h).
Proof.
  intros Ha. unfold Array_push. run_read Ha.
  apply store_Some. apply get_array_Some in Ha. by rewrite Ha.
Qed.

Lemma Array_splice_Some h a vs start deleteCount :
  get_array h a = Some vs →
  Array_splice a start deleteCount h
  = Some (tt, <[a := OArray (splice start deleteCount vs)]> h).
Proof.
  intros Ha. unfold Array_splice. run_read Ha.
  apply store_Some. apply get_array_Some in Ha. by rewrite Ha.
Qed.

Lemma alloc_Some h o :
  alloc o h = Some (fresh (dom h), <[fresh (dom h) := o]> h).
Proof. done. Qed.

Lemma fresh_None (h : heap) : h !! fresh (dom h) = None.
Proof. apply not_elem_of_dom, is_fresh. Qed.

(** Writing an object of the same kind at a reference of the footprint, or
    placing an object at an unused reference, is within the frame. *)
Lemma frame_insert_in h l o (fp : gset loc) :
  l ∈ fp → frame h (<[l := o]> h) fp fp.
Proof.
  intros Hin. split; [|auto]. intros l' Hl' _.
  apply lookup_insert_ne. by intros ->.
Qed.

Lemma frame_insert_fresh h l o (fp : gset loc) :
  h !! l = None → frame h (<[l := o]> h) fp ({[l]} ∪ fp).
Proof.
  intros Hn. split.
  - intros l' _ Hs. apply lookup_insert_ne. intros ->. rewrite Hn in Hs. by destruct Hs.
  - intros l' [->%elem_of_singleton|?]%elem_of_union; auto.
Qed.

Lemma frame_shrink h h' (fp fp1 fp2 : gset loc) :
  frame h h' fp fp1 → fp2 ⊆ fp1 → frame h h' fp fp2.
Proof. intros [P F] Hsub. split; [done|]. intros l Hl. by apply F, Hsub. Qed.

(** ** The mutating methods against the logical content *)

Lemma repr_set_bucket h this m es c k a nb :
  repr h this m es c → entries_get k es = Some a →
  repr (<[a := OArray nb]> h) this m es (entries_set k nb c).
Proof.
  intros Hr Hget. pose proof Hr as [Hs Hm Hb Hk Hl].
  assert (a ∈ es.*2) as Hin.
  { apply entries_get_Some in Hget. apply list_elem_of_fmap. by exists (k, a). }
  destruct (repr_bucket_ne _ _ _ _ _ _ Hr Hin) as (Hna & Hnm & _).
  split; try done.
  - unfold get__map. by rewrite lookup_insert_ne.
  - unfold get_entries. by rewrite lookup_insert_ne.
  - by apply buckets_update.
Qed.

Lemma repr_new_bucket h this m es c k a nb :
  repr h this m es c → entries_get k es = None → h !! a = None →
  repr (<[a := OArray nb]> (<[m := OMap (entries_set k a es)]> h))
       this m (entries_set k a es) (entries_set k nb c).
Proof.
  intros Hr Hget Hfresh. pose proof Hr as [Hs Hm Hb Hk Hl].
  pose proof (repr_this_ne_map _ _ _ _ _ Hr) as Hsm.
  pose proof (buckets_get h es c k Hb) as Hg. rewrite Hget in Hg.
  rewrite !entries_set_absent by done.
  assert (a ≠ this ∧ a ≠ m) as [Hna Hnm].
  { split; intros ->.
    - unfold get__map in Hs. by rewrite Hfresh in Hs.
    - unfold get_entries in Hm. by rewrite Hfresh in Hm. }
  assert (a ∉ es.*2) as Hnin.
  { intros Hin. destruct (repr_bucket_ne _ _ _ _ _ _ Hr Hin) as (_ & _ & [o Ho]).
    congruence. }
  split.
  - unfold get__map in *. by rewrite !lookup_insert_ne.
  - unfold get_entries. rewrite lookup_insert_ne by done. by rewrite lookup_insert_eq.
  - apply Forall2_app.
    + eapply buckets_frame; [done|]. intros a' Hin.
      destruct (repr_bucket_ne _ _ _ _ _ _ Hr Hin) as (_ & Hnm' & _).
      rewrite !lookup_insert_ne; [done | done | by intros ->].
    + constructor; [|constructor]. split; [done|].
      unfold get_array. simpl. by rewrite lookup_insert_eq.
  - rewrite fmap_app. apply NoDup_app. split; [done|]. split.
    + intros k' Hin [->|[]%elem_of_nil]%elem_of_cons. by apply entries_get_None in Hget.
    + apply NoDup_singleton.
  - rewrite fmap_app. apply NoDup_app. split; [done|]. split.
    + intros a' Hin [->|[]%elem_of_nil]%elem_of_cons. done.
    + apply NoDup_singleton.
Qed.

Lemma footprint_set_absent this m es k a :
  entries_get k es = None →
  footprint this m (entries_set k a es) = {[a]} ∪ footprint this m es.
Proof.
  intros Hget. rewrite entries_set_absent by done. unfold footprint.
  rewrite fmap_app, list_to_set_app_L. apply set_eq. intros l.
  rewrite !elem_of_union, !elem_of_list_to_set, !elem_of_singleton.
  change ([(k, a)].*2) with [a]. rewrite list_elem_of_singleton. tauto.
Qed.

Lemma _add_spec h this m es c value :
  repr h this m es c →
  ∃ h' es', _add this value h = Some (tt, h') ∧
            repr h' this m es' (c_add value c) ∧
            frame h h' (footprint this m es) (footprint this m es').
Proof.
  intros Hr. pose proof Hr as [Hs Hm Hb Hk Hl].
  pose proof (buckets_get h es c (hashIt value) Hb) as Hg.
  unfold _add, c_add, bucket_of.
  run_read Hs.
  run (Map_has_Some _ _ _ _ Hm).
  destruct (entries_get (hashIt value) es) as [a|] eqn:Hget.
  - destruct Hg as (b & Hcb & Hab). rewrite Hcb. simpl.
    rewrite (bind_Some _ _ _ tt h) by done.
    run (Map_get_Some _ _ _ _ Hm). rewrite Hget.
    run_read Hab. fold (member b value).
    destruct (member b value) eqn:Hmem; simpl.
    + exists h, es. split; [done|]. split; [done|]. apply frame_refl.
    + rewrite (Array_push_Some _ _ _ _ Hab). eexists _, es. split; [done|].
      split; [by apply repr_set_bucket|].
      apply frame_insert_in. apply elem_of_union_r, elem_of_list_to_set.
      apply entries_get_Some in Hget. apply list_elem_of_fmap. by exists (hashIt value, a).
  - rewrite Hg. simpl.
    pose proof (fresh_None h) as Hfresh. set (a := fresh (dom h)) in *.
    assert (a ≠ m) as Hnm.
    { intros Heq. apply get_entries_Some in Hm. congruence. }
    assert (get_entries (<[a := OArray []]> h) m = Some es) as Hm1.
    { unfold get_entries. by rewrite lookup_insert_ne. }
    rewrite (bind_Some _ _ _ tt (<[m := OMap (entries_set (hashIt value) a es)]> (<[a := OArray []]> h))).
    2:{ run (alloc_Some _ _). fold a.
        by rewrite (Map_set_Some _ _ _ _ _ Hm1). }
    set (h2 := <[m := _]> _).
    assert (get_entries h2 m = Some (entries_set (hashIt value) a es)) as Hm2.
    { unfold get_entries, h2. by rewrite lookup_insert_eq. }
    run (Map_get_Some _ _ _ _ Hm2).
    rewrite entries_get_set, bool_decide_true by done.
    assert (get_array h2 a = Some []) as Ha2.
    { unfold get_array, h2. rewrite lookup_insert_ne by done. by rewrite lookup_insert_eq. }
    run_read Ha2. simpl.
    rewrite (Array_push_Some _ _ _ _ Ha2). simpl.
    eexists _, _. split; [done|].
    assert (<[a := OArray [value]]> h2
            = <[a := OArray [value]]> (<[m := OMap (entries_set (hashIt value) a es)]> h)) as ->.
    { unfold h2. rewrite (insert_insert_ne _ m a) by done.
      by rewrite insert_insert_eq. }
    split; [by apply repr_new_bucket|].
    rewrite footprint_set_absent by done.
    eapply frame_trans; [apply (frame_insert_in _ m)|apply frame_insert_fresh].
    + apply elem_of_union_l, elem_of_union_r. by apply elem_of_singleton.
    + by rewrite lookup_insert_ne.
Qed.

Lemma forEach__add_spec values : ∀ h this m es c,
  repr h this m es c →
  ∃ h' es', forEach_ (_add this) values h = Some (tt, h') ∧
            repr h' this m es' (c_add_all values c) ∧
            frame h h' (footprint this m es) (footprint this m es').
Proof.
  induction values as [|v values IH]; intros h this m es c Hr; simpl.
  - exists h, es. split; [done|]. split; [done|]. apply frame_refl.
  - destruct (_add_spec h this m es c v Hr) as (h1 & es1 & Hrun & Hr1 & Hf1).
    run Hrun.
    destruct (IH h1 this m es1 _ Hr1) as (h2 & es2 & Hrun2 & Hr2 & Hf2).
    exists h2, es2. split; [done|]. split; [done|]. by eapply frame_trans.
Qed.

Lemma add_spec h this m es c values :
  repr h this m es c →
  ∃ h' es', add this values h = Some (this, h') ∧
            repr h' this m es' (c_add_all values c) ∧
            frame h h' (footprint this m es) (footprint this m es').
Proof.
  intros Hr. destruct (forEach__add_spec values h this m es c Hr) as (h' & es' & Hrun & ?).
  exists h', es'. split; [|done]. unfold add. by run Hrun.
Qed.

(** A new instance owns only references that were not in use, and leaves
    every object of the store as it was. *)
Lemma new_DeepSet_spec h values :
  ∃ this m es h', new_DeepSet values h = Some (this, h') ∧
                  repr h' this m es (c_add_all values []) ∧
                  h ⊆ h' ∧ footprint this m es ## dom h.
Proof.
  unfold new_DeepSet.
  run (alloc_Some _ _).
  run (alloc_Some _ _).
  pose proof (fresh_None h) as Hm. set (m := fresh (dom h)) in *.
  set (h1 := <[m := OMap []]> h).
  pose proof (fresh_None h1) as Hs. set (this := fresh (dom h1)) in *.
  set (h2 := <[this := ODeepSet m 0]> h1).
  assert (this ≠ m) as Hne.
  { intros Heq. rewrite Heq in Hs. unfold h1 in Hs. by rewrite lookup_insert_eq in Hs. }
  assert (h !! this = None) as Hs'.
  { unfold h1 in Hs. by rewrite lookup_insert_ne in Hs. }
  assert (repr h2 this m [] []) as Hr.
  { split.
    - unfold get__map, h2. by rewrite lookup_insert_eq.
    - unfold get_entries, h2, h1. rewrite lookup_insert_ne by done.
      by rewrite lookup_insert_eq.
    - constructor.
    - constructor.
    - constructor. }
  destruct (add_spec h2 this m [] [] values Hr) as (h' & es & Hrun & Hr' & Hf).
  run Hrun.
  exists this, m, es, h'. split; [done|]. split; [done|].
  apply (frame_subseteq h h2 h' _ _ Hf).
  - unfold h2, h1. etrans; [apply (insert_subseteq _ m); done|].
    apply insert_subseteq. by rewrite lookup_insert_ne.
  - unfold footprint. simpl. intros l Hl Hd. apply elem_of_dom in Hd as [o Ho].
    apply elem_of_union in Hl as [Hl|Hl]; [|by apply not_elem_of_empty in Hl].
    apply elem_of_union in Hl as [->%elem_of_singleton | ->%elem_of_singleton];
      congruence.
Qed.

Lemma entries_delete_locs (k : Z) (a : loc) (es : list (Z * loc)) :
  NoDup es.*2 → entries_get k es = Some a → a ∉ (entries_delete k es).*2.
Proof.
  induction es as [|[k0 a0] r IH]; csimpl; [done|].
  intros [Hnin Hnd]%NoDup_cons. destruct (k0 =? k).
  - by intros [= ->].
  - intros Hget. csimpl. apply not_elem_of_cons. split; [|by apply IH].
    intros ->. apply Hnin. apply entries_get_Some in Hget.
    apply list_elem_of_fmap. by exists (k, a0).
Qed.

Lemma repr_delete_bucket h this m es c k a :
  repr h this m es c → entries_get k es = Some a →
  repr (<[m := OMap (entries_delete k es)]> (<[a := OArray []]> h))
       this m (entries_delete k es) (entries_delete k c).
Proof.
  intros Hr Hget. pose proof Hr as [Hs Hm Hb Hk Hl].
  pose proof (repr_this_ne_map _ _ _ _ _ Hr) as Hsm.
  assert (a ∈ es.*2) as Hin.
  { apply entries_get_Some in Hget. apply list_elem_of_fmap. by exists (k, a). }
  destruct (repr_bucket_ne _ _ _ _ _ _ Hr Hin) as (Hna & Hnm & _).
  pose proof (entries_delete_sublist k es) as Hsub.
  split.
  - unfold get__map in *. by rewrite !lookup_insert_ne.
  - unfold get_entries. by rewrite lookup_insert_eq.
  - eapply buckets_frame; [by apply buckets_delete|]. intros a' Hin'.
    assert (a' ∈ es.*2) as Hin'' by (eapply elem_of_sublist; [done | by apply fmap_sublist]).
    destruct (repr_bucket_ne _ _ _ _ _ _ Hr Hin'') as (_ & Hnm' & _).
    rewrite !lookup_insert_ne; [done| |done].
    intros ->. by eapply entries_delete_locs.
  - eapply sublist_NoDup; [done | by apply fmap_sublist].
  - eapply sublist_NoDup; [done | by apply fmap_sublist].
Qed.

Lemma footprint_delete_subseteq this m es k :
  footprint this m (entries_delete k es) ⊆ footprint this m es.
Proof.
  unfold footprint. intros l [Hl|Hl%elem_of_list_to_set]%elem_of_union.
  - by apply elem_of_union_l.
  - apply elem_of_union_r, elem_of_list_to_set.
    eapply elem_of_sublist; [done|]. apply fmap_sublist, entries_delete_sublist.
Qed.

Lemma delete_spec h this m es c value :
  repr h this m es c →
  ∃ h' es', delete this value h = Some ((c_delete value c).1, h') ∧
            repr h' this m es' (c_delete value c).2 ∧
            frame h h' (footprint this m es) (footprint this m es').
Proof.
  intros Hr. pose proof Hr as [Hs Hm Hb Hk Hl].
  pose proof (buckets_get h es c (hashIt value) Hb) as Hg.
  unfold delete, c_delete.
  run_read Hs.
  run (Map_get_Some _ _ _ _ Hm).
  destruct (entries_get (hashIt value) es) as [a|] eqn:Hget.
  2:{ rewrite Hg. exists h, es. split; [done|]. split; [done|]. apply frame_refl. }
  destruct Hg as (b & -> & Hab).
  run_read Hab.
  destruct (negb (findIndex (λ v, isEqual v value) b =? -1)) eqn:Hfound.
  2:{ exists h, es. split; [done|]. split; [done|]. apply frame_refl. }
  assert (a ∈ footprint this m es) as Hain.
  { apply elem_of_union_r, elem_of_list_to_set. apply entries_get_Some in Hget.
    apply list_elem_of_fmap. by exists (hashIt value, a). }
  assert (m ∈ footprint this m es) as Hmin.
  { apply elem_of_union_l, elem_of_union_r. by apply elem_of_singleton. }
  run (Array_splice_Some _ _ _ _ _ Hab).
  set (b' := splice _ 1 b). set (h1 := <[a := OArray b']> h).
  assert (get_array h1 a = Some b') as Hab'.
  { unfold get_array, h1. by rewrite lookup_insert_eq. }
  run_read Hab'.
  pose proof (repr_set_bucket _ _ _ _ _ _ _ b' Hr Hget) as Hr1. fold h1 in Hr1.
  pose proof Hr1 as [_ Hm1 _ _ _].
  destruct (Z.of_nat (length b') =? 0) eqn:Hlen.
  - run (Map_delete_Some _ _ _ _ Hm1).
    eexists _, _. split; [done|]. simpl.
    assert (b' = []) as -> by (destruct b'; [done | simpl in Hlen; lia]).
    split; [by apply repr_delete_bucket|].
    eapply frame_shrink; [|apply footprint_delete_subseteq].
    eapply frame_trans; by apply frame_insert_in.
  - run (Map_set_Some _ _ _ _ _ Hm1).
    rewrite (entries_set_same _ _ _ Hget).
    rewrite insert_id by (by apply get_entries_Some).
    exists h1, es. split; [done|]. split; [done|]. by apply frame_insert_in.
Qed.

Lemma clear_spec h this m es c :
  repr h this m es c →
  ∃ h', clear this h = Some (tt, h') ∧ repr h' this m [] [] ∧
        frame h h' (footprint this m es) (footprint this m []).
Proof.
  intros Hr. pose proof Hr as [Hs Hm Hb Hk Hl].
  pose proof (repr_this_ne_map _ _ _ _ _ Hr) as Hsm.
  unfold clear. run_read Hs.
  rewrite (Map_clear_Some _ _ _ Hm). eexists. split; [done|]. split.
  - split; try constructor.
    + unfold get__map in *. by rewrite lookup_insert_ne.
    + unfold get_entries. by rewrite lookup_insert_eq.
  - eapply frame_shrink.
    + apply (frame_insert_in _ m).
      apply elem_of_union_l, elem_of_union_r. by apply elem_of_singleton.
    + unfold footprint. intros l Hin.
      apply elem_of_union in Hin as [Hin|Hin]; [|by apply not_elem_of_empty in Hin].
      by apply elem_of_union_l.
Qed.

(** ** [cloneDeep] and [clone] *)

Lemma buckets_loc_array h es (c : buckets) a :
  Forall2 (bucket_at h) es c → a ∈ es.*2 → ∃ b, get_array h a = Some b.
Proof.
  induction 1 as [|e b es c [Hk Ha] _ IH]; csimpl; intros Hin.
  - by apply elem_of_nil in Hin.
  - apply elem_of_cons in Hin as [->|Hin]; eauto.
Qed.

Lemma cloneDeep_loop h0 result es c :
  Forall2 (bucket_at h0) es c → h0 !! result = None →
  ∀ h res cres,
    h0 ⊆ h → get_entries h result = Some res →
    Forall2 (bucket_at h) res cres →
    NoDup (res.*1 ++ es.*1) → NoDup res.*2 →
    (∀ a, a ∈ res.*2 → h0 !! a = None) →
    ∃ h' res',
      forEach_ (λ e : Z * loc,
          let* vs := read (λ h, get_array h e.2) in
          let* a := alloc (OArray (map cloneDeepValue vs)) in
          Map_set result e.1 a) es h = Some (tt, h') ∧
      h0 ⊆ h' ∧ get_entries h' result = Some res' ∧
      Forall2 (bucket_at h') res' (cres ++ c_clone c) ∧
      NoDup res'.*1 ∧ NoDup res'.*2 ∧
      (∀ a, a ∈ res'.*2 → h0 !! a = None).
Proof.
  intros Hb Hres.
  induction Hb as [|[k a0] [k' b] es c [Hk Ha0] _ IH];
    intros h res cres Hsub Hm Hbr Hnk Hnl Hfr; csimpl in Hnk.
  - exists h, res. rewrite !app_nil_r in *. done.
  - simpl in Hk, Ha0. subst k'.
    assert (get_array h a0 = Some b) as Ha0'.
    { apply get_array_Some in Ha0. unfold get_array.
      by rewrite (lookup_weaken _ _ _ _ Ha0 Hsub). }
    pose proof (fresh_None h) as Hfresh. set (a := fresh (dom h)) in *.
    set (h1 := <[a := OArray (map cloneDeepValue b)]> h).
    assert (a ≠ result) as Hne.
    { intros Heq. apply get_entries_Some in Hm. congruence. }
    assert (get_entries h1 result = Some res) as Hm1.
    { unfold get_entries, h1. by rewrite lookup_insert_ne. }
    apply NoDup_app in Hnk as (Hnk1 & Hnk2 & [Hnk3 Hnk4]%NoDup_cons).
    assert (entries_get k res = None) as Hget.
    { apply entries_get_None. intros Hin. apply (Hnk2 _ Hin). left. }
    set (h2 := <[result := OMap (res ++ [(k, a)])]> h1).
    assert (h0 !! a = None) as Hfresh0.
    { destruct (h0 !! a) eqn:E; [|done]. by rewrite (lookup_weaken _ _ _ _ E Hsub) in Hfresh. }
    assert (h0 ⊆ h2) as Hsub2.
    { unfold h2, h1. apply insert_subseteq_r; [done|]. by apply insert_subseteq_r. }
    assert (a ∉ res.*2) as Hnin.
    { intros Hin. destruct (buckets_loc_array _ _ _ _ Hbr Hin) as [b' Hb'].
      apply get_array_Some in Hb'. congruence. }
    assert (forEach_ (λ e : Z * loc,
          let* vs := read (λ h, get_array h e.2) in
          let* a := alloc (OArray (map cloneDeepValue vs)) in
          Map_set result e.1 a) ((k, a0) :: es) h
        = forEach_ (λ e : Z * loc,
          let* vs := read (λ h, get_array h e.2) in
          let* a := alloc (OArray (map cloneDeepValue vs)) in
          Map_set result e.1 a) es h2) as ->.
    { cbn [forEach_]. rewrite (bind_Some _ _ _ tt h2); [done|]. cbn [fst snd].
      run_read Ha0'.
      run (alloc_Some _ _). fold a h1.
      rewrite (Map_set_Some _ _ _ _ _ Hm1). by rewrite entries_set_absent. }
    destruct (IH h2 (res ++ [(k, a)]) (cres ++ [(k, map cloneDeepValue b)]))
      as (h' & res' & Hrun & Hsub' & Hm' & Hb' & Hk' & Hl' & Hfr'); try done.
    + unfold get_entries, h2. by rewrite lookup_insert_eq.
    + apply Forall2_app.
      * eapply buckets_frame; [done|]. intros a' Hin.
        destruct (buckets_loc_array _ _ _ _ Hbr Hin) as [b' Hb'].
        apply get_array_Some in Hb'. apply get_entries_Some in Hm.
        unfold h2, h1. rewrite !lookup_insert_ne; [done | congruence | congruence].
      * constructor; [|constructor]. split; [done|]. unfold get_array, h2, h1. simpl.
        rewrite lookup_insert_ne by done. by rewrite lookup_insert_eq.
    + rewrite fmap_app. csimpl. rewrite <- app_assoc. simpl.
      apply NoDup_app. split; [done|]. split; [done|]. by apply NoDup_cons.
    + rewrite fmap_app. apply NoDup_app. split; [done|]. split; [|apply NoDup_singleton].
      intros a' Hin [->|[]%elem_of_nil]%elem_of_cons. done.
    + intros a'. rewrite fmap_app.
      intros [Hin|[->|[]%elem_of_nil]%elem_of_cons]%elem_of_app; auto.
    + exists h', res'. rewrite <- app_assoc in Hb'. done.
Qed.

Lemma cloneDeep_spec h m es c :
  get_entries h m = Some es → Forall2 (bucket_at h) es c → NoDup es.*1 →
  ∃ m' es' h',
    cloneDeep m h = Some (m', h') ∧ h ⊆ h' ∧
    get_entries h' m' = Some es' ∧ Forall2 (bucket_at h') es' (c_clone c) ∧
    NoDup es'.*1 ∧ NoDup es'.*2 ∧
    h !! m' = None ∧ (∀ a, a ∈ es'.*2 → h !! a = None).
Proof.
  intros Hm Hb Hk. unfold cloneDeep.
  run_read Hm.
  run (alloc_Some _ _).
  pose proof (fresh_None h) as Hfresh. set (result := fresh (dom h)) in *.
  destruct (cloneDeep_loop h result es c Hb Hfresh (<[result := OMap []]> h) [] [])
    as (h' & res' & Hrun & Hsub' & Hm' & Hb' & Hk' & Hl' & Hfr'); try done.
  - by apply insert_subseteq.
  - unfold get_entries. by rewrite lookup_insert_eq.
  - constructor.
  - intros a []%elem_of_nil.
  - run Hrun. by exists result, res', h'.
Qed.

(** The clone is a new instance: it owns only references that were not in
    use, and every object of the store is left as it was. *)
Lemma clone_spec h this m es c :
  repr h this m es c →
  ∃ this' m' es' h',
    clone this h = Some (this', h') ∧ repr h' this' m' es' (c_clone c) ∧
    h ⊆ h' ∧ footprint this' m' es' ## dom h.
Proof.
  intros Hr. unfold clone.
  destruct (new_DeepSet_spec h []) as (s' & m0 & es0 & h1 & Hnew & Hr0 & Hsub1 & Hfp0).
  run Hnew.
  pose proof (repr_weaken _ _ _ _ _ _ Hr Hsub1) as [Hs1 Hm1 Hb1 Hk1 Hl1].
  run_read Hs1.
  destruct (cloneDeep_spec h1 m es c Hm1 Hb1 Hk1)
    as (m' & es' & h2 & Hrun & Hsub2 & Hm' & Hb' & Hk' & Hl' & Hfm & Hfa).
  run Hrun.
  destruct Hr0 as [Hs0 _ _ _ _]. apply get__map_Some in Hs0 as [sz Hs0].
  pose proof (lookup_weaken _ _ _ _ Hs0 Hsub2) as Hs2.
  rewrite (bind_Some _ _ _ tt (<[s' := ODeepSet m' sz]> h2)).
  2:{ unfold set__map. by rewrite Hs2. }
  assert (h !! s' = None) as Hfs.
  { apply not_elem_of_dom. intros Hd. apply (Hfp0 s'); [|done].
    apply elem_of_union_l, elem_of_union_l. by apply elem_of_singleton. }
  exists s', m', es', (<[s' := ODeepSet m' sz]> h2). split; [done|]. split; [|split].
  - split; try done.
    + unfold get__map. by rewrite lookup_insert_eq.
    + unfold get_entries. rewrite lookup_insert_ne; [done|]. congruence.
    + eapply buckets_frame; [done|]. intros a Hin. apply lookup_insert_ne.
      intros <-. apply Hfa in Hin. congruence.
  - apply insert_subseteq_r; [done|]. by etrans.
  - intros l Hl Hd. apply elem_of_dom in Hd as [o Ho].
    pose proof (lookup_weaken _ _ _ _ Ho Hsub1) as Ho1.
    unfold footprint in Hl. rewrite !elem_of_union, !elem_of_singleton, elem_of_list_to_set in Hl.
    destruct Hl as [[-> | ->]|Hin]; [congruence | congruence |].
    apply Hfa in Hin. congruence.
Qed.

(** ** Properties of the logical content

    The contracts of the two injected providers: [isEqual] is an
    equivalence, equal values have equal hashes, and a deep copy is equal
    to its original. *)

Hypothesis isEqual_refl : ∀ x, isEqual x x = true.
Hypothesis isEqual_sym : ∀ x y, isEqual x y = isEqual y x.
Hypothesis isEqual_trans :
  ∀ x y z, isEqual x y = true → isEqual y z = true → isEqual x z = true.
Hypothesis hashIt_isEqual : ∀ x y, isEqual x y = true → hashIt x = hashIt y.
Hypothesis cloneDeepValue_isEqual : ∀ x, isEqual (cloneDeepValue x) x = true.

Lemma member_app l1 l2 v : member (l1 ++ l2) v = member l1 v || member l2 v.
Proof. unfold member. apply existsb_app. Qed.

Lemma member_true l v : member l v = true ↔ ∃ x, x ∈ l ∧ isEqual x v = true.
Proof.
  unfold member. rewrite existsb_exists. setoid_rewrite list_elem_of_In. done.
Qed.

Lemma member_false l v : member l v = false ↔ ∀ x, x ∈ l → isEqual x v = false.
Proof.
  rewrite <- not_true_iff_false, member_true. split.
  - intros Hn x Hx. destruct (isEqual x v) eqn:E; [|done]. destruct Hn; eauto.
  - intros Hall (x & Hx & He). rewrite (Hall x Hx) in He. done.
Qed.

(** Deep-equal values are members of the same lists. *)
Lemma member_isEqual l v w : isEqual v w = true → member l v = member l w.
Proof.
  intros He. apply eq_true_iff_eq. rewrite !member_true.
  split; intros (x & Hx & Hxe); exists x; split; try done.
  - by eapply isEqual_trans.
  - eapply isEqual_trans; [done|]. by rewrite isEqual_sym.
Qed.

Lemma bucket_of_set k k' nb (c : buckets) :
  bucket_of k' (entries_set k nb c) = if bool_decide (k' = k) then nb else bucket_of k' c.
Proof. unfold bucket_of. rewrite entries_get_set. by case_bool_decide. Qed.

(** [has] after [add]: the new value, and what was there. *)
Lemma c_has_add v w c :
  c_has w (c_add v c) = c_has w c || isEqual v w.
Proof.
  unfold c_has, c_add.
  destruct (member (bucket_of (hashIt v) c) v) eqn:Hmem.
  - destruct (isEqual v w) eqn:He; [|by rewrite orb_false_r].
    rewrite orb_true_r. rewrite <- (hashIt_isEqual _ _ He).
    apply member_true in Hmem as (x & Hx & Hxe). apply member_true.
    exists x. split; [done|]. by eapply isEqual_trans.
  - rewrite bucket_of_set. case_bool_decide as Hk.
    + rewrite Hk, member_app. simpl. by rewrite orb_false_r.
    + destruct (isEqual v w) eqn:He; [|by rewrite orb_false_r].
      apply hashIt_isEqual in He. congruence.
Qed.

Lemma c_has_add_all vs : ∀ w c,
  c_has w (c_add_all vs c) = c_has w c || member vs w.
Proof.
  induction vs as [|v vs IH]; intros w c; simpl.
  - by rewrite orb_false_r.
  - unfold c_add_all in *. simpl. rewrite IH, c_has_add. by rewrite orb_assoc.
Qed.

Lemma c_values_set k nb (c : buckets) :
  (length (c_values (entries_set k nb c)) + length (bucket_of k c)
   = length (c_values c) + length nb)%nat.
Proof.
  unfold c_values, bucket_of.
  induction c as [|[k0 b0] c IH]; csimpl.
  - rewrite app_nil_r. lia.
  - destruct (k0 =? k); csimpl; rewrite !length_app; simpl; lia.
Qed.

Lemma c_size_add v c :
  c_size (c_add v c) = c_size c + (if c_has v c then 0 else 1).
Proof.
  unfold c_size, c_add, c_has.
  destruct (member (bucket_of (hashIt v) c) v); [lia|].
  pose proof (c_values_set (hashIt v) (bucket_of (hashIt v) c ++ [v]) c) as H.
  rewrite length_app in H. simpl in H. lia.
Qed.

Lemma c_has_add_same v c : c_has v (c_add v c) = true.
Proof.
  unfold c_has, c_add.
  destruct (member (bucket_of (hashIt v) c) v) eqn:Hmem; [done|].
  rewrite bucket_of_set, bool_decide_true, member_app by done.
  simpl. rewrite isEqual_refl. by rewrite orb_true_r.
Qed.

(** [delete] right after [add] of a value that was not there. *)
Lemma findIndex_last l v :
  member l v = false →
  findIndex (λ x, isEqual x v) (l ++ [v]) = Z.of_nat (length l).
Proof.
  unfold member. induction l as [|x l IH]; simpl.
  - by rewrite isEqual_refl.
  - destruct (isEqual x v); [done|]. simpl. intros Hl. rewrite (IH Hl).
    destruct (Z.of_nat (length l) =? -1) eqn:E; lia.
Qed.

Lemma splice_last {A} (l : list A) (x : A) : splice (length l) 1 (l ++ [x]) = l.
Proof. rewrite splice_middle. apply app_nil_r. Qed.

Lemma c_delete_add v c :
  c_has v c = false →
  c_delete v (c_add v c)
  = (true, match entries_get (hashIt v) c with
           | Some [] => entries_delete (hashIt v) c
           | _ => c
           end).
Proof.
  unfold c_has, c_add, c_delete. intros Hmem. rewrite Hmem.
  rewrite entries_get_set, bool_decide_true by done.
  rewrite (findIndex_last _ _ Hmem), Nat2Z.id, splice_last.
  destruct (Z.of_nat _ =? -1) eqn:E; [apply Z.eqb_eq in E; lia|]. simpl. f_equal.
  unfold bucket_of in *. destruct (entries_get (hashIt v) c) as [b|] eqn:Hget; simpl.
  - destruct b as [|x b]; simpl.
    + clear. induction c as [|[k0 b0] c IH]; simpl; [by rewrite Z.eqb_refl|].
      destruct (k0 =? hashIt v) eqn:E; simpl; rewrite E; [done|]. by f_equal.
    + rewrite entries_set_set. by apply entries_set_same.
  - by apply entries_delete_set_absent.
Qed.

Lemma bucket_of_delete_empty k k' (c : buckets) :
  NoDup c.*1 → entries_get k c = Some [] →
  bucket_of k' (entries_delete k c) = bucket_of k' c.
Proof.
  intros Hnd Hget. unfold bucket_of. rewrite entries_get_delete by done.
  case_bool_decide; [|done]. subst. by rewrite Hget.
Qed.

Lemma c_values_delete_empty k (c : buckets) :
  entries_get k c = Some [] → c_values (entries_delete k c) = c_values c.
Proof.
  unfold c_values. induction c as [|[k0 b0] c IH]; csimpl; [done|].
  destruct (k0 =? k).
  - by intros [= ->].
  - intros ?. csimpl. f_equal. auto.
Qed.

(** ** Lists without deep-equal values *)

Lemma distinct_nil : distinct [].
Proof. intros i j x y Hi. by rewrite lookup_nil in Hi. Qed.

Lemma distinct_cons x l :
  distinct (x :: l) ↔ member l x = false ∧ distinct l.
Proof.
  split.
  - intros Hd. split.
    + apply member_false. intros y Hy. apply list_elem_of_lookup in Hy as [j Hj].
      destruct (isEqual y x) eqn:E; [|done].
      by specialize (Hd (S j) 0%nat y x Hj eq_refl E).
    + intros i j y z Hi Hj E. by specialize (Hd (S i) (S j) y z Hi Hj E) as [= ->].
  - intros [Hm Hd] [|i] [|j] y z Hi Hj E; simpl in *; simplify_eq; try done.
    + apply list_elem_of_lookup_2 in Hj. rewrite isEqual_sym in E.
      rewrite member_false in Hm. by rewrite (Hm z Hj) in E.
    + apply list_elem_of_lookup_2 in Hi.
      rewrite member_false in Hm. by rewrite (Hm y Hi) in E.
    + f_equal. by eapply Hd.
Qed.

Lemma distinct_app l1 l2 :
  distinct (l1 ++ l2) ↔
  distinct l1 ∧ distinct l2 ∧ (∀ x, x ∈ l1 → member l2 x = false).
Proof.
  induction l1 as [|x l1 IH]; simpl.
  - split; [intros ?; split; [apply distinct_nil|split; [done|]] | tauto].
    intros x []%elem_of_nil.
  - rewrite !distinct_cons, IH, member_app, orb_false_iff. split.
    + intros ((? & ?) & ? & ? & Hx). repeat split; try done.
      intros y [->|?]%elem_of_cons; auto.
    + intros ((? & ?) & ? & Hx). repeat split; try done.
      * apply Hx. left.
      * intros y ?. apply Hx. by right.
Qed.

Lemma distinct_snoc l v :
  distinct l → member l v = false → distinct (l ++ [v]).
Proof.
  intros Hd Hm. apply distinct_app. split; [done|]. split.
  - apply distinct_cons. split; [done | apply distinct_nil].
  - intros x Hx. simpl. rewrite isEqual_sym.
    rewrite member_false in Hm. by rewrite (Hm x Hx).
Qed.

Lemma distinct_remove l1 x l2 : distinct (l1 ++ x :: l2) → distinct (l1 ++ l2).
Proof.
  rewrite !distinct_app, distinct_cons. intros (? & (? & ?) & Hx).
  repeat split; try done. intros y Hy. specialize (Hx y Hy).
  simpl in Hx. by apply orb_false_iff in Hx as [_ ?].
Qed.

Lemma isEqual_cloneDeepValue x y :
  isEqual (cloneDeepValue x) (cloneDeepValue y) = isEqual x y.
Proof.
  pose proof (cloneDeepValue_isEqual x) as Hx.
  pose proof (cloneDeepValue_isEqual y) as Hy.
  apply eq_true_iff_eq. split; intros He.
  - apply (isEqual_trans _ (cloneDeepValue x)); [by rewrite isEqual_sym|].
    by apply (isEqual_trans _ (cloneDeepValue y)).
  - apply (isEqual_trans _ x); [done|].
    apply (isEqual_trans _ y); [done|]. by rewrite isEqual_sym.
Qed.

Lemma distinct_cloneDeepValue l : distinct l → distinct (map cloneDeepValue l).
Proof.
  intros Hd i j x' y' Hi Hj E.
  change (map cloneDeepValue l) with (cloneDeepValue <$> l) in *.
  rewrite list_lookup_fmap in Hi, Hj.
  destruct (l !! i) as [x|] eqn:Hxi; [|done].
  destruct (l !! j) as [y|] eqn:Hyj; [|done].
  simpl in *. simplify_eq. rewrite isEqual_cloneDeepValue in E. by eapply Hd.
Qed.

Lemma member_cloneDeepValue l v :
  member (map cloneDeepValue l) v = member l v.
Proof.
  unfold member. induction l as [|x l IH]; simpl; [done|]. rewrite IH. f_equal.
  pose proof (cloneDeepValue_isEqual x) as Hx.
  apply eq_true_iff_eq. split; intros He.
  - apply (isEqual_trans _ (cloneDeepValue x)); [by rewrite isEqual_sym | done].
  - by apply (isEqual_trans _ x).
Qed.

(** ** The container invariant on the logical content *)

Lemma Forall_entries_set {V} (P : Z * V → Prop) k nb (c : list (Z * V)) :
  Forall P c → P (k, nb) → Forall P (entries_set k nb c).
Proof.
  intros Hc Hk. induction c as [|[k0 b0] c IH]; simpl.
  - by constructor.
  - apply Forall_cons in Hc as [H0 Hc]. destruct (k0 =? k) eqn:E.
    + apply Z.eqb_eq in E. subst. by constructor.
    + constructor; auto.
Qed.

Lemma Forall_entries_delete {V} (P : Z * V → Prop) k (c : list (Z * V)) :
  Forall P c → Forall P (entries_delete k c).
Proof.
  rewrite !Forall_forall. intros Hc e He. apply Hc.
  eapply elem_of_sublist; [done | apply entries_delete_sublist].
Qed.

Lemma Forall_entries_get {V} (P : Z * V → Prop) k b (c : list (Z * V)) :
  Forall P c → entries_get k c = Some b → P (k, b).
Proof.
  intros Hc Hget. apply entries_get_Some in Hget.
  by apply (proj1 (Forall_forall _ _) Hc).
Qed.

Lemma buckets_inv_add v c : buckets_inv c → buckets_inv (c_add v c).
Proof.
  intros Hinv. unfold c_add.
  destruct (member (bucket_of (hashIt v) c) v) eqn:Hmem; [done|].
  apply Forall_entries_set; [done|]. simpl. split.
  - apply distinct_snoc; [|done]. unfold bucket_of.
    destruct (entries_get (hashIt v) c) as [b|] eqn:Hget; simpl.
    + by destruct (Forall_entries_get _ _ _ _ Hinv Hget).
    + apply distinct_nil.
  - by destruct (bucket_of (hashIt v) c).
Qed.

Lemma buckets_inv_add_all vs : ∀ c, buckets_inv c → buckets_inv (c_add_all vs c).
Proof.
  unfold c_add_all. induction vs as [|v vs IH]; intros c Hinv; simpl; [done|].
  by apply IH, buckets_inv_add.
Qed.

Lemma buckets_inv_delete v c : buckets_inv c → buckets_inv (c_delete v c).2.
Proof.
  intros Hinv. unfold c_delete.
  destruct (entries_get (hashIt v) c) as [b|] eqn:Hget; [|done].
  destruct (findIndex (λ x, isEqual x v) b =? -1) eqn:E; simpl; [done|].
  apply Z.eqb_neq in E.
  destruct (findIndex_found _ _ E) as (l1 & x & l2 & -> & -> & _).
  rewrite splice_middle.
  destruct (Z.of_nat (length (l1 ++ l2)) =? 0) eqn:Hlen.
  - by apply Forall_entries_delete.
  - apply Forall_entries_set; [done|]. simpl.
    destruct (Forall_entries_get _ _ _ _ Hinv Hget) as [Hd _]. simpl in Hd. split.
    + by eapply distinct_remove.
    + intros Heq. by rewrite Heq in Hlen.
Qed.

Lemma buckets_inv_clone c : buckets_inv c → buckets_inv (c_clone c).
Proof.
  unfold buckets_inv, c_clone. rewrite Forall_map. intros Hc.
  eapply Forall_impl; [exact Hc|].
  intros [k b] [Hd Hne]. simpl in *. split.
  - by apply distinct_cloneDeepValue.
  - by destruct b.
Qed.

Lemma buckets_inv_nil : buckets_inv [].
Proof. constructor. Qed.

(** ** Values under their hash *)

Lemma hashed_add v c : hashed c → hashed (c_add v c).
Proof.
  intros Hh. unfold c_add.
  destruct (member (bucket_of (hashIt v) c) v) eqn:Hmem; [done|].
  apply Forall_entries_set; [done|]. simpl. apply Forall_app. split.
  - unfold bucket_of. destruct (entries_get (hashIt v) c) as [b|] eqn:Hget; simpl.
    + apply (Forall_entries_get _ _ _ _ Hh Hget).
    + constructor.
  - by repeat constructor.
Qed.

Lemma hashed_add_all vs : ∀ c, hashed c → hashed (c_add_all vs c).
Proof.
  unfold c_add_all. induction vs as [|v vs IH]; intros c Hh; simpl; [done|].
  by apply IH, hashed_add.
Qed.


Lemma hashed_clone c : hashed c → hashed (c_clone c).
Proof.
  unfold hashed, c_clone. rewrite Forall_map. intros Hc.
  eapply Forall_impl; [exact Hc|].
  intros [k b] Hb. simpl in *. rewrite Forall_map.
  eapply Forall_impl; [exact Hb|].
  intros x <-. simpl. by apply hashIt_isEqual.
Qed.

(** In a consistent container, [has] looks at the one bucket where a
    deep-equal value can be, and no two stored values are deep-equal. *)
Lemma entries_get_elem {V} k (b : V) (c : list (Z * V)) :
  NoDup c.*1 → (k, b) ∈ c → entries_get k c = Some b.
Proof.
  induction c as [|[k0 b0] c IH]; csimpl; intros Hnd Hin.
  - by apply elem_of_nil in Hin.
  - apply NoDup_cons in Hnd as [Hk0 Hnd].
    apply elem_of_cons in Hin as [[= -> ->]|Hin].
    + by rewrite Z.eqb_refl.
    + destruct (k0 =? k) eqn:E; [|auto]. apply Z.eqb_eq in E. subst.
      destruct Hk0. apply list_elem_of_fmap. by exists (k, b).
Qed.

Lemma member_c_values v c :
  member (c_values c) v = true ↔ ∃ k b, (k, b) ∈ c ∧ member b v = true.
Proof.
  unfold c_values. induction c as [|[k0 b0] c IH]; csimpl.
  - split; [done|]. intros (k & b & []%elem_of_nil & _).
  - rewrite member_app, orb_true_iff, IH. split.
    + intros [Hm|(k & b & Hin & Hm)].
      * exists k0, b0. split; [left | done].
      * exists k, b. split; [by right | done].
    + intros (k & b & [[= -> ->]|Hin]%elem_of_cons & Hm); [by left|].
      right. eauto.
Qed.

Lemma c_has_member v c :
  hashed c → NoDup c.*1 → c_has v c = member (c_values c) v.
Proof.
  intros Hh Hnd. apply eq_true_iff_eq. rewrite member_c_values.
  unfold c_has, bucket_of. split.
  - destruct (entries_get (hashIt v) c) as [b|] eqn:Hget; simpl; [|done].
    intros Hm. exists (hashIt v), b. split; [by apply entries_get_Some | done].
  - intros (k & b & Hin & Hm).
    pose proof Hm as (x & Hx & He)%member_true.
    pose proof (proj1 (Forall_forall _ _) Hh _ Hin) as Hb. simpl in Hb.
    pose proof (proj1 (Forall_forall _ _) Hb _ Hx) as Hk.
    apply hashIt_isEqual in He. rewrite <- He, Hk.
    by rewrite (entries_get_elem _ _ _ Hnd Hin).
Qed.

Lemma c_values_distinct c :
  hashed c → NoDup c.*1 → buckets_inv c → distinct (c_values c).
Proof.
  unfold c_values. induction c as [|[k0 b0] c IH]; csimpl; intros Hh Hnd Hinv.
  - apply distinct_nil.
  - apply Forall_cons in Hh as [Hh0 Hh]. apply Forall_cons in Hinv as [[Hd0 _] Hinv].
    apply NoDup_cons in Hnd as [Hk0 Hnd]. simpl in *.
    apply distinct_app. split; [done|]. split; [by apply IH|].
    intros x Hx. apply not_true_iff_false. intros Hm.
    apply (member_c_values x c) in Hm as (k & b & Hin & (y & Hy & He)%member_true).
    apply hashIt_isEqual in He.
    pose proof (proj1 (Forall_forall _ _) Hh0 _ Hx) as Hkx. simpl in Hkx.
    pose proof (proj1 (Forall_forall _ _) Hh _ Hin) as Hb. simpl in Hb.
    pose proof (proj1 (Forall_forall _ _) Hb _ Hy) as Hky.
    apply Hk0. apply list_elem_of_fmap. exists (k, b). split; [simpl; congruence | done].
Qed.

(** ** The set algebra against the logical content *)

Lemma add_single result v h :
  (let* _ := add result [v] in ret tt) h = _add result v h.
Proof.
  unfold add, bind, ret. simpl. unfold bind, ret.
  by destruct (_add result v h) as [[[] h']|].
Qed.

(** A container that was allocated after [h0] grows without touching the
    objects of [h0]. *)
Lemma _add_fresh h0 h result m es c v :
  h0 ⊆ h → repr h result m es c → footprint result m es ## dom h0 →
  ∃ h' es', _add result v h = Some (tt, h') ∧ h0 ⊆ h' ∧
            repr h' result m es' (c_add v c) ∧
            footprint result m es' ## dom h0.
Proof.
  intros Hsub Hr Hfp.
  destruct (_add_spec h result m es c v Hr) as (h' & es' & Hrun & Hr' & Hf).
  destruct (frame_subseteq _ _ _ _ _ Hf Hsub Hfp) as [Hsub' Hfp'].
  by exists h', es'.
Qed.

Lemma forEach_add_fresh h0 result vs : ∀ h m es c,
  h0 ⊆ h → repr h result m es c → footprint result m es ## dom h0 →
  ∃ h' es',
    forEach_ (λ value, let* _ := add result [value] in ret tt) vs h = Some (tt, h') ∧
    h0 ⊆ h' ∧ repr h' result m es' (c_add_all vs c) ∧
    footprint result m es' ## dom h0.
Proof.
  induction vs as [|v vs IH]; intros h m es c Hsub Hr Hfp.
  - by exists h, es.
  - destruct (_add_fresh h0 h result m es c v Hsub Hr Hfp)
      as (h1 & es1 & Hrun & Hsub1 & Hr1 & Hfp1).
    destruct (IH h1 m es1 _ Hsub1 Hr1 Hfp1) as (h2 & es2 & Hrun2 & ?).
    exists h2, es2. split; [|done]. cbn [forEach_].
    rewrite (bind_Some _ _ _ tt h1); [done|]. by rewrite add_single.
Qed.

(** The loops of the set algebra: the values of [vs] that pass the test
    on [other] are added to a container allocated after [h0]. *)
Lemma forEach_add_if_fresh h0 result other mo eso co (f : bool → bool) vs :
  repr h0 other mo eso co →
  ∀ h m es c,
    h0 ⊆ h → repr h result m es c → footprint result m es ## dom h0 →
    ∃ h' es',
      forEach_ (λ value,
          let* present := read (has other value) in
          if f present then let* _ := add result [value] in ret tt
          else ret tt) vs h = Some (tt, h') ∧
      h0 ⊆ h' ∧
      repr h' result m es' (c_add_all (List.filter (λ v, f (c_has v co)) vs) c) ∧
      footprint result m es' ## dom h0.
Proof.
  intros Ho. induction vs as [|v vs IH]; intros h m es c Hsub Hr Hfp.
  - by exists h, es.
  - cbn [forEach_ List.filter].
    pose proof (has_repr _ _ _ _ _ v (repr_weaken _ _ _ _ _ _ Ho Hsub)) as Hhas.
    destruct (f (c_has v co)) eqn:Hv.
    + destruct (_add_fresh h0 h result m es c v Hsub Hr Hfp)
        as (h1 & es1 & Hrun & Hsub1 & Hr1 & Hfp1).
      destruct (IH h1 m es1 _ Hsub1 Hr1 Hfp1) as (h2 & es2 & Hrun2 & ?).
      exists h2, es2. split; [|done].
      rewrite (bind_Some _ _ _ tt h1); [done|].
      run_read Hhas. rewrite Hv. by rewrite add_single.
    + destruct (IH h m es c Hsub Hr Hfp) as (h2 & es2 & Hrun2 & ?).
      exists h2, es2. split; [|done].
      rewrite (bind_Some _ _ _ tt h); [done|].
      run_read Hhas. by rewrite Hv.
Qed.

Lemma intersection_spec h this otherSet m es ca m' es' cb :
  repr h this m es ca → repr h otherSet m' es' cb →
  ∃ r mr esr h',
    intersection this otherSet h = Some (r, h') ∧ h ⊆ h' ∧
    repr h' r mr esr (c_intersection ca cb) ∧ footprint r mr esr ## dom h.
Proof.
  intros Ha Hb. unfold intersection.
  destruct (new_DeepSet_spec h []) as (r & mr & es0 & h1 & Hnew & Hr0 & Hsub1 & Hfp0).
  run Hnew.
  pose proof (values_repr _ _ _ _ _ (repr_weaken _ _ _ _ _ _ Ha Hsub1)) as Hvs.
  rewrite (bind_Some _ _ _ _ _ (read_Some (iterator this) _ _ Hvs)).
  destruct (forEach_add_if_fresh h r otherSet _ _ _ (λ b, b) (c_values ca) Hb
              h1 mr es0 [] Hsub1 Hr0 Hfp0)
    as (h' & esr & Hrun & Hsub' & Hr' & Hfp').
  cbv beta in Hrun.
  run Hrun. by exists r, mr, esr, h'.
Qed.

Lemma difference_spec h this other m es ca m' es' cb :
  repr h this m es ca → repr h other m' es' cb →
  ∃ r mr esr h',
    difference this other h = Some (r, h') ∧ h ⊆ h' ∧
    repr h' r mr esr (c_difference ca cb) ∧ footprint r mr esr ## dom h.
Proof.
  intros Ha Hb. unfold difference.
  destruct (new_DeepSet_spec h []) as (r & mr & es0 & h1 & Hnew & Hr0 & Hsub1 & Hfp0).
  run Hnew.
  pose proof (values_repr _ _ _ _ _ (repr_weaken _ _ _ _ _ _ Ha Hsub1)) as Hvs.
  run_read Hvs.
  destruct (forEach_add_if_fresh h r other _ _ _ negb (c_values ca) Hb
              h1 mr es0 [] Hsub1 Hr0 Hfp0)
    as (h' & esr & Hrun & Hsub' & Hr' & Hfp').
  run Hrun. by exists r, mr, esr, h'.
Qed.

Lemma symmetricDifference_spec h this other m es ca m' es' cb :
  repr h this m es ca → repr h other m' es' cb →
  ∃ r mr esr h',
    symmetricDifference this other h = Some (r, h') ∧ h ⊆ h' ∧
    repr h' r mr esr (c_symmetricDifference ca cb) ∧ footprint r mr esr ## dom h.
Proof.
  intros Ha Hb. unfold symmetricDifference.
  destruct (new_DeepSet_spec h []) as (r & mr & es0 & h1 & Hnew & Hr0 & Hsub1 & Hfp0).
  run Hnew.
  pose proof (values_repr _ _ _ _ _ (repr_weaken _ _ _ _ _ _ Ha Hsub1)) as Hvs.
  run_read Hvs.
  destruct (forEach_add_if_fresh h r other _ _ _ negb (c_values ca) Hb
              h1 mr es0 [] Hsub1 Hr0 Hfp0)
    as (h2 & es2 & Hrun & Hsub2 & Hr2 & Hfp2).
  run Hrun.
  pose proof (values_repr _ _ _ _ _ (repr_weaken _ _ _ _ _ _ Hb Hsub2)) as Hws.
  run_read Hws.
  destruct (forEach_add_if_fresh h r this _ _ _ negb (c_values cb) Ha
              h2 mr es2 _ Hsub2 Hr2 Hfp2)
    as (h3 & es3 & Hrun3 & Hsub3 & Hr3 & Hfp3).
  run Hrun3. by exists r, mr, es3, h3.
Qed.

Lemma union_loop h0 result otherSets cbs :
  Forall2 (λ s cb, ∃ m es, repr h0 s m es cb) otherSets cbs →
  ∀ h m es c,
    h0 ⊆ h → repr h result m es c → footprint result m es ## dom h0 →
    ∃ h' es',
      forEach_ (λ set,
          let* vs := read (values set) in
          forEach_ (λ value, let* _ := add result [value] in ret tt) vs)
        otherSets h = Some (tt, h') ∧
      h0 ⊆ h' ∧
      repr h' result m es' (foldl (λ c cb, c_add_all (c_values cb) c) c cbs) ∧
      footprint result m es' ## dom h0.
Proof.
  induction 1 as [|s cb otherSets cbs (ms & ess & Hs) _ IH];
    intros h m es c Hsub Hr Hfp.
  - by exists h, es.
  - destruct (forEach_add_fresh h0 result (c_values cb) h m es c Hsub Hr Hfp)
      as (h1 & es1 & Hrun & Hsub1 & Hr1 & Hfp1).
    destruct (IH h1 m es1 _ Hsub1 Hr1 Hfp1) as (h2 & es2 & Hrun2 & ?).
    exists h2, es2. split; [|done]. cbn [forEach_].
    rewrite (bind_Some _ _ _ tt h1); [done|].
    pose proof (values_repr _ _ _ _ _ (repr_weaken _ _ _ _ _ _ Hs Hsub)) as Hvs.
    by run_read Hvs.
Qed.

Lemma union_spec h this other m es ca cbs :
  repr h this m es ca →
  Forall2 (λ s cb, ∃ m es, repr h s m es cb)
          (match other with inl s => [s] | inr l => l end) cbs →
  ∃ r mr esr h',
    union this other h = Some (r, h') ∧ h ⊆ h' ∧
    repr h' r mr esr (c_union ca cbs) ∧ footprint r mr esr ## dom h.
Proof.
  intros Ha Hbs. unfold union.
  destruct (clone_spec h this m es ca Ha) as (r & mr & es0 & h1 & Hcl & Hr0 & Hsub1 & Hfp0).
  run Hcl.
  destruct (union_loop h r _ cbs Hbs h1 mr es0 _ Hsub1 Hr0 Hfp0)
    as (h' & esr & Hrun & Hsub' & Hr' & Hfp').
  run Hrun. by exists r, mr, esr, h'.
Qed.

Lemma isDisjointFrom_spec h this other m es ca m' es' cb :
  repr h this m es ca → repr h other m' es' cb →
  ∃ h', isDisjointFrom this other h = Some (c_size (c_union ca [cb]) =? 0, h') ∧
        h ⊆ h'.
Proof.
  intros Ha Hb. unfold isDisjointFrom.
  destruct (union_spec h this (inl other) m es ca [cb] Ha)
    as (r & mr & esr & h' & Hrun & Hsub & Hr & _).
  { constructor; [eauto | constructor]. }
  run Hrun.
  run_read (size_repr _ _ _ _ _ Hr).
  by exists h'.
Qed.

(** ** Operations that leave the store as it is *)

Lemma _add_present h this m es c v :
  repr h this m es c → c_has v c = true → _add this v h = Some (tt, h).
Proof.
  intros Hr Hhas. pose proof Hr as [Hs Hm Hb Hk Hl].
  pose proof (buckets_get h es c (hashIt v) Hb) as Hg.
  unfold c_has, bucket_of in Hhas. unfold _add.
  run_read Hs.
  run (Map_has_Some _ _ _ _ Hm).
  destruct (entries_get (hashIt v) es) as [a|] eqn:Hget.
  - destruct Hg as (b & Hcb & Hab). rewrite Hcb in Hhas. simpl in *.
    rewrite (bind_Some _ _ _ tt h) by done.
    run (Map_get_Some _ _ _ _ Hm). rewrite Hget.
    run_read Hab.
    fold (member b v). by rewrite Hhas.
  - by rewrite Hg in Hhas.
Qed.

Lemma delete_noop h this m es c v :
  repr h this m es c → c_has v c = false → delete this v h = Some (false, h).
Proof.
  intros Hr Hhas. pose proof Hr as [Hs Hm Hb Hk Hl].
  pose proof (buckets_get h es c (hashIt v) Hb) as Hg.
  unfold c_has, bucket_of in Hhas. unfold delete.
  run_read Hs.
  run (Map_get_Some _ _ _ _ Hm).
  destruct (entries_get (hashIt v) es) as [a|] eqn:Hget; [|done].
  destruct Hg as (b & Hcb & Hab). rewrite Hcb in Hhas. simpl in Hhas.
  run_read Hab.
  apply findIndex_none in Hhas. by rewrite Hhas.
Qed.

(** A value [has] finds is one of the stored values. *)
Lemma c_has_values v c : c_has v c = true → member (c_values c) v = true.
Proof.
  unfold c_has, bucket_of. intros Hm. apply member_c_values.
  destruct (entries_get (hashIt v) c) as [b|] eqn:Hget; [|done].
  exists (hashIt v), b. split; [by apply entries_get_Some | done].
Qed.

Lemma add_cons_run h h1 this v vs :
  _add this v h = Some (tt, h1) → add this (v :: vs) h = add this vs h1.
Proof. intros Hrun. unfold add, bind. cbn [forEach_]. unfold bind. by rewrite Hrun. Qed.

Lemma add_nil_run h this : add this [] h = Some (this, h).
Proof. done. Qed.

Lemma c_delete_present v c : c_has v c = true → (c_delete v c).1 = true.
Proof.
  unfold c_has, c_delete, bucket_of. intros Hm.
  destruct (entries_get (hashIt v) c) as [b|]; [|done]. simpl in Hm.
  destruct (findIndex (λ x, isEqual x v) b =? -1) eqn:E; [|done].
  apply Z.eqb_eq, findIndex_none in E. unfold member in Hm. congruence.
Qed.

Lemma repr_keys_content h this m es c : repr h this m es c → NoDup c.*1.
Proof. intros [_ _ Hb Hk _]. by rewrite <- (buckets_keys _ _ _ Hb). Qed.

(** * The claims *)

(** ** Adding and deleting one value *)

(** C10: [add(...values)] returns the instance it was called on, whatever
    the argument list and whether or not a value was inserted; the call
    succeeds and the receiver is still an instance. *)
Theorem add_returns_this h this values :
  DeepSet_wf h this →
  ∃ h', add this values h = Some (this, h') ∧ DeepSet_wf h' this.
Proof.
  intros (m & es & c & Hr).
  destruct (add_spec h this m es c values Hr) as (h' & es' & Hrun & Hr' & _).
  exists h'. split; [done|]. by exists m, es', (c_add_all values c).
Qed.

(** C5: a second [add(v)] returns normally and is a no-op: the store after
    it is the store after the first [add(v)], so size and membership are
    those of a single [add(v)]; the same holds for [add(v, v)]. *)
Theorem add_idempotent h this v :
  DeepSet_wf h this →
  ∃ h1 h2,
    add this [v] h = Some (this, h1) ∧ add this [v] h1 = Some (this, h2) ∧
    h2 = h1 ∧
    size this h2 = size this h1 ∧ (∀ w, has this w h2 = has this w h1) ∧
    add this [v; v] h = Some (this, h1).
Proof.
  intros (m & es & c & Hr).
  destruct (_add_spec h this m es c v Hr) as (h1 & es1 & Hrun & Hr1 & _).
  pose proof (_add_present h1 this m es1 _ v Hr1 (c_has_add_same v c)) as Hrun2.
  exists h1, h1.
  rewrite !(add_cons_run _ _ _ _ _ Hrun), (add_cons_run _ _ _ _ _ Hrun2).
  by rewrite add_nil_run.
Qed.

(** C7: when no stored value is deep-equal to [v], [delete(v)] returns
    [false] and the store, hence the container, is unchanged. *)
Theorem delete_absent h this v vs :
  DeepSet_wf h this →
  values this h = Some vs → (∀ x, x ∈ vs → isEqual x v = false) →
  delete this v h = Some (false, h).
Proof.
  intros (m & es & c & Hr) Hvs Habs.
  rewrite (values_repr _ _ _ _ _ Hr) in Hvs. injection Hvs as <-.
  apply (delete_noop h this m es c v Hr).
  destruct (c_has v c) eqn:Hhas; [|done].
  apply c_has_values, member_true in Hhas as (x & Hx & He).
  by rewrite (Habs x Hx) in He.
Qed.

(** C4, as amended: [add(v)] then [delete(v)] makes [delete] return
    [true]; when [v] was not a member before, size, membership and the
    iteration sequence are those from before the [add]. *)
Theorem add_delete_restores h this v :
  DeepSet_wf h this →
  ∃ h1 h2,
    add this [v] h = Some (this, h1) ∧ delete this v h1 = Some (true, h2) ∧
    (has this v h = Some false →
       size this h2 = size this h ∧
       (∀ w, has this w h2 = has this w h) ∧
       values this h2 = values this h).
Proof.
  intros (m & es & c & Hr).
  destruct (add_spec h this m es c [v] Hr) as (h1 & es1 & Hrun & Hr1 & _).
  destruct (delete_spec h1 this m es1 _ v Hr1) as (h2 & es2 & Hrun2 & Hr2 & _).
  unfold c_add_all in *. simpl in *.
  rewrite (c_delete_present v _ (c_has_add_same v c)) in Hrun2.
  exists h1, h2. split; [done|]. split; [done|].
  rewrite (has_repr _ _ _ _ _ v Hr). intros [= Habs].
  rewrite (c_delete_add v c Habs) in Hr2. simpl in Hr2.
  rewrite (size_repr _ _ _ _ _ Hr), (values_repr _ _ _ _ _ Hr).
  rewrite (size_repr _ _ _ _ _ Hr2), (values_repr _ _ _ _ _ Hr2).
  pose proof (repr_keys_content _ _ _ _ _ Hr) as Hnd.
  assert (∀ w, has this w h2 = has this w h) as Hhas.
  { intros w. rewrite (has_repr _ _ _ _ _ w Hr), (has_repr _ _ _ _ _ w Hr2).
    f_equal. unfold c_has.
    destruct (entries_get (hashIt v) c) as [[|x b]|] eqn:Hget; try done.
    by rewrite bucket_of_delete_empty. }
  split; [|split; [done|]].
  - unfold c_size. destruct (entries_get (hashIt v) c) as [[|x b]|] eqn:Hget; try done.
    by rewrite c_values_delete_empty.
  - destruct (entries_get (hashIt v) c) as [[|x b]|] eqn:Hget; try done.
    by rewrite c_values_delete_empty.
Qed.

Lemma DeepSet_inv_weaken h h' this :
  DeepSet_inv h this → h ⊆ h' → DeepSet_inv h' this.
Proof.
  intros (m & es & c & Hr & Hinv) Hsub. exists m, es, c.
  split; [by eapply repr_weaken | done].
Qed.

Lemma Forall_repr_contents h (P : buckets → Prop) (l : list loc) :
  Forall (λ s, ∃ m es c, repr h s m es c ∧ P c) l →
  ∃ cs, Forall2 (λ s cb, ∃ m es, repr h s m es cb) l cs ∧ Forall P cs.
Proof.
  induction 1 as [|s l (m & es & c & Hr & Hp) _ (cs & IH1 & IH2)].
  - exists []. by split; constructor.
  - exists (c :: cs). split; constructor; eauto.
Qed.

Lemma buckets_inv_union ca cbs : buckets_inv ca → buckets_inv (c_union ca cbs).
Proof.
  intros Hinv. unfold c_union. apply buckets_inv_clone in Hinv.
  revert Hinv. generalize (c_clone ca). induction cbs as [|cb cbs IH]; intros c Hinv; simpl.
  - done.
  - by apply IH, buckets_inv_add_all.
Qed.

(** C8: construction, [add], [delete], [clear], [clone] and the derived
    operations that build a container all return normally and keep the
    container invariant (in every bucket no two values are deep-equal, and
    no registered bucket is empty), for the containers they return and for
    their operands. *)
Theorem invariant_preserved :
  (∀ h values, ∃ this h',
      new_DeepSet values h = Some (this, h') ∧ DeepSet_inv h' this) ∧
  (∀ h this values, DeepSet_inv h this →
      ∃ h', add this values h = Some (this, h') ∧ DeepSet_inv h' this) ∧
  (∀ h this value, DeepSet_inv h this →
      ∃ b h', delete this value h = Some (b, h') ∧ DeepSet_inv h' this) ∧
  (∀ h this, DeepSet_inv h this →
      ∃ h', clear this h = Some (tt, h') ∧ DeepSet_inv h' this) ∧
  (∀ h this, DeepSet_inv h this →
      ∃ r h', clone this h = Some (r, h') ∧
              DeepSet_inv h' r ∧ DeepSet_inv h' this) ∧
  (∀ h this other, DeepSet_inv h this → DeepSet_inv h other →
      ∃ r h', intersection this other h = Some (r, h') ∧
              DeepSet_inv h' r ∧ DeepSet_inv h' this ∧ DeepSet_inv h' other) ∧
  (∀ h this other, DeepSet_inv h this →
      Forall (DeepSet_inv h) (match other with inl s => [s] | inr l => l end) →
      ∃ r h', union this other h = Some (r, h') ∧
              DeepSet_inv h' r ∧ DeepSet_inv h' this ∧
              Forall (DeepSet_inv h')
                     (match other with inl s => [s] | inr l => l end)) ∧
  (∀ h this other, DeepSet_inv h this → DeepSet_inv h other →
      ∃ r h', difference this other h = Some (r, h') ∧
              DeepSet_inv h' r ∧ DeepSet_inv h' this ∧ DeepSet_inv h' other) ∧
  (∀ h this other, DeepSet_inv h this → DeepSet_inv h other →
      ∃ r h', symmetricDifference this other h = Some (r, h') ∧
              DeepSet_inv h' r ∧ DeepSet_inv h' this ∧ DeepSet_inv h' other) ∧
  (∀ h this other, DeepSet_inv h this → DeepSet_inv h other →
      ∃ b h', isDisjointFrom this other h = Some (b, h') ∧
              DeepSet_inv h' this ∧ DeepSet_inv h' other).
Proof.
  repeat apply conj.
  - intros h values.
    destruct (new_DeepSet_spec h values) as (this & m & es & h' & Hrun & Hr & _).
    exists this, h'. split; [done|]. eexists m, es, _. split; [done|].
    apply buckets_inv_add_all, buckets_inv_nil.
  - intros h this values (m & es & c & Hr & Hinv).
    destruct (add_spec h this m es c values Hr) as (h' & es' & Hrun & Hr' & _).
    exists h'. split; [done|]. eexists m, es', _. split; [done|].
    by apply buckets_inv_add_all.
  - intros h this value (m & es & c & Hr & Hinv).
    destruct (delete_spec h this m es c value Hr) as (h' & es' & Hrun & Hr' & _).
    eexists _, h'. split; [done|]. eexists m, es', _. split; [done|].
    by apply buckets_inv_delete.
  - intros h this (m & es & c & Hr & Hinv).
    destruct (clear_spec h this m es c Hr) as (h' & Hrun & Hr' & _).
    exists h'. split; [done|]. exists m, [], []. split; [done|]. apply buckets_inv_nil.
  - intros h this Hthis. pose proof Hthis as (m & es & c & Hr & Hinv).
    destruct (clone_spec h this m es c Hr) as (r & mr & esr & h' & Hrun & Hr' & Hsub & _).
    exists r, h'. split; [done|]. split; [|by eapply DeepSet_inv_weaken].
    eexists mr, esr, _. split; [done|]. by apply buckets_inv_clone.
  - intros h this other Hthis Hother.
    pose proof Hthis as (m & es & ca & Ha & _). pose proof Hother as (m' & es' & cb & Hb & _).
    destruct (intersection_spec h this other _ _ _ _ _ _ Ha Hb)
      as (r & mr & esr & h' & Hrun & Hsub & Hr & _).
    exists r, h'. split; [done|].
    split; [|split; by eapply DeepSet_inv_weaken].
    eexists mr, esr, _. split; [done|]. apply buckets_inv_add_all, buckets_inv_nil.
  - intros h this other Hthis Hothers.
    pose proof Hthis as (m & es & ca & Ha & Hinv).
    destruct (Forall_repr_contents h buckets_inv _ Hothers) as (cbs & Hbs & _).
    destruct (union_spec h this other m es ca cbs Ha Hbs)
      as (r & mr & esr & h' & Hrun & Hsub & Hr & _).
    exists r, h'. split; [done|]. split; [|split].
    + eexists mr, esr, _. split; [done|]. by apply buckets_inv_union.
    + by eapply DeepSet_inv_weaken.
    + eapply Forall_impl; [exact Hothers|]. intros s Hs. by eapply DeepSet_inv_weaken.
  - intros h this other Hthis Hother.
    pose proof Hthis as (m & es & ca & Ha & _). pose proof Hother as (m' & es' & cb & Hb & _).
    destruct (difference_spec h this other _ _ _ _ _ _ Ha Hb)
      as (r & mr & esr & h' & Hrun & Hsub & Hr & _).
    exists r, h'. split; [done|].
    split; [|split; by eapply DeepSet_inv_weaken].
    eexists mr, esr, _. split; [done|]. apply buckets_inv_add_all, buckets_inv_nil.
  - intros h this other Hthis Hother.
    pose proof Hthis as (m & es & ca & Ha & _). pose proof Hother as (m' & es' & cb & Hb & _).
    destruct (symmetricDifference_spec h this other _ _ _ _ _ _ Ha Hb)
      as (r & mr & esr & h' & Hrun & Hsub & Hr & _).
    exists r, h'. split; [done|].
    split; [|split; by eapply DeepSet_inv_weaken].
    eexists mr, esr, _. split; [done|].
    apply buckets_inv_add_all, buckets_inv_add_all, buckets_inv_nil.
  - intros h this other Hthis Hother.
    pose proof Hthis as (m & es & ca & Ha & _). pose proof Hother as (m' & es' & cb & Hb & _).
    destruct (isDisjointFrom_spec h this other _ _ _ _ _ _ Ha Hb) as (h' & Hrun & Hsub).
    eexists _, h'. split; [done|]. split; by eapply DeepSet_inv_weaken.
Qed.

(** ** Mutations of separate instances *)

Lemma mutate_spec h this m es c mu :
  repr h this m es c →
  ∃ h' es', mutate this mu h = Some (tt, h') ∧
            repr h' this m es' (c_mutate mu c) ∧
            frame h h' (footprint this m es) (footprint this m es').
Proof.
  intros Hr. destruct mu as [vs|v|]; simpl.
  - destruct (add_spec h this m es c vs Hr) as (h' & es' & Hrun & ?).
    exists h', es'. split; [|done]. by run Hrun.
  - destruct (delete_spec h this m es c v Hr) as (h' & es' & Hrun & ?).
    exists h', es'. split; [|done]. by run Hrun.
  - destruct (clear_spec h this m es c Hr) as (h' & Hrun & ?). by exists h', [].
Qed.

Lemma mutate_all_spec mus : ∀ h this m es c,
  repr h this m es c →
  ∃ h' es', forEach_ (mutate this) mus h = Some (tt, h') ∧
            repr h' this m es' (foldl (λ c mu, c_mutate mu c) c mus).
Proof.
  induction mus as [|mu mus IH]; intros h this m es c Hr.
  - by exists h, es.
  - destruct (mutate_spec h this m es c mu Hr) as (h1 & es1 & Hrun & Hr1 & _).
    destruct (IH h1 this m es1 _ Hr1) as (h2 & es2 & Hrun2 & Hr2).
    exists h2, es2. split; [|done]. cbn [forEach_].
    by run Hrun.
Qed.

(** A mutation of one instance leaves a separate instance as it was, and
    the two stay separate. *)
Lemma mutate_separate h s ms ess cs t mt est ct mu :
  repr h s ms ess cs → repr h t mt est ct →
  footprint s ms ess ## footprint t mt est →
  ∃ h' ess', mutate s mu h = Some (tt, h') ∧
             repr h' s ms ess' (c_mutate mu cs) ∧ repr h' t mt est ct ∧
             footprint s ms ess' ## footprint t mt est.
Proof.
  intros Hs Ht Hdisj.
  destruct (mutate_spec h s ms ess cs mu Hs) as (h' & ess' & Hrun & Hs' & Hf).
  exists h', ess'. split; [done|]. split; [done|]. split.
  - eapply repr_frame; [done | done |]. intros l ? ?. by apply (Hdisj l).
  - intros l Hl Hlt. destruct Hf as [_ F]. destruct (F l Hl) as [?|Hn].
    + by apply (Hdisj l).
    + destruct (repr_dom _ _ _ _ _ _ Ht Hlt) as [o Ho]. congruence.
Qed.

Lemma mutate_either_spec l : ∀ h s ms ess cs t mt est ct,
  repr h s ms ess cs → repr h t mt est ct →
  footprint s ms ess ## footprint t mt est →
  ∃ h' ess' est',
    forEach_ (mutate_either s t) l h = Some (tt, h') ∧
    repr h' s ms ess' (foldl (λ c mu, c_mutate mu c) cs (aimed_at false l)) ∧
    repr h' t mt est' (foldl (λ c mu, c_mutate mu c) ct (aimed_at true l)).
Proof.
  induction l as [|[[] mu] l IH]; intros h s ms ess cs t mt est ct Hs Ht Hdisj.
  - by exists h, ess, est.
  - destruct (mutate_separate h t mt est ct s ms ess cs mu Ht Hs)
      as (h1 & est1 & Hrun & Ht1 & Hs1 & Hdisj1); [done|].
    destruct (IH h1 s ms ess cs t mt est1 _ Hs1 Ht1) as (h2 & ess2 & est2 & Hrun2 & ?);
      [done|].
    exists h2, ess2, est2. split; [|done]. cbn [forEach_].
    by rewrite (bind_Some _ _ _ tt h1).
  - destruct (mutate_separate h s ms ess cs t mt est ct mu Hs Ht Hdisj)
      as (h1 & ess1 & Hrun & Hs1 & Ht1 & Hdisj1).
    destruct (IH h1 s ms ess1 _ t mt est ct Hs1 Ht1 Hdisj1)
      as (h2 & ess2 & est2 & Hrun2 & ?).
    exists h2, ess2, est2. split; [|done]. cbn [forEach_].
    by rewrite (bind_Some _ _ _ tt h1).
Qed.

Lemma c_has_clone v c : c_has v (c_clone c) = c_has v c.
Proof.
  unfold c_has. rewrite <- (member_cloneDeepValue (bucket_of (hashIt v) c) v).
  f_equal. unfold bucket_of, c_clone.
  induction c as [|[k b] c IH]; simpl; [done|].
  by destruct (k =? hashIt v).
Qed.

Lemma c_values_clone c : c_values (c_clone c) = map cloneDeepValue (c_values c).
Proof.
  unfold c_values, c_clone. induction c as [|[k b] c IH]; csimpl; [done|].
  rewrite map_app. by f_equal.
Qed.

Lemma c_size_clone c : c_size (c_clone c) = c_size c.
Proof. unfold c_size. by rewrite c_values_clone, length_map. Qed.

(** C9: [clone()] returns a new instance with the members of the source
    (deep copies, in the same order) that shares no object with it; the
    source is as before.  Whatever mutations ([add], [delete], [clear])
    are then applied to the two, in any interleaving, each ends with the
    size, membership and iteration sequence it would have had if only its
    own mutations had been applied: mutating one never changes the other. *)
Theorem clone_isolation h this :
  DeepSet_wf h this →
  ∃ r h',
    clone this h = Some (r, h') ∧ r ≠ this ∧ separate h' this r ∧
    size r h' = size this h ∧ (∀ v, has r v h' = has this v h) ∧
    values r h' = map cloneDeepValue <$> values this h ∧
    size this h' = size this h ∧ (∀ v, has this v h' = has this v h) ∧
    values this h' = values this h ∧
    ∀ l, ∃ hboth hsource hclone,
      forEach_ (mutate_either this r) l h' = Some (tt, hboth) ∧
      forEach_ (mutate this) (aimed_at false l) h' = Some (tt, hsource) ∧
      forEach_ (mutate r) (aimed_at true l) h' = Some (tt, hclone) ∧
      size this hboth = size this hsource ∧
      (∀ v, has this v hboth = has this v hsource) ∧
      values this hboth = values this hsource ∧
      size r hboth = size r hclone ∧
      (∀ v, has r v hboth = has r v hclone) ∧
      values r hboth = values r hclone.
Proof.
  intros (m & es & c & Hr).
  destruct (clone_spec h this m es c Hr) as (r & mr & esr & h' & Hrun & Hr' & Hsub & Hfp).
  pose proof (repr_weaken _ _ _ _ _ _ Hr Hsub) as Hs'.
  assert (footprint this m es ## footprint r mr esr) as Hdisj.
  { intros l Hl Hlr. apply (Hfp l Hlr). apply elem_of_dom. by eapply repr_dom. }
  exists r, h'. split; [done|]. split; [|split].
  { intros ->. apply (Hdisj this); apply elem_of_union_l, elem_of_union_l;
      by apply elem_of_singleton. }
  { by exists m, es, c, mr, esr, (c_clone c). }
  rewrite (size_repr _ _ _ _ _ Hr'), (size_repr _ _ _ _ _ Hr), (size_repr _ _ _ _ _ Hs').
  rewrite (values_repr _ _ _ _ _ Hr'), (values_repr _ _ _ _ _ Hr), (values_repr _ _ _ _ _ Hs').
  rewrite c_size_clone, c_values_clone.
  repeat (split; [try done|]).
  { intros v. rewrite (has_repr _ _ _ _ _ v Hr'), (has_repr _ _ _ _ _ v Hr).
    by rewrite c_has_clone. }
  { intros v. by rewrite (has_repr _ _ _ _ _ v Hs'), (has_repr _ _ _ _ _ v Hr). }
  intros l.
  destruct (mutate_either_spec l h' this m es c r mr esr _ Hs' Hr' Hdisj)
    as (hboth & es1 & esr1 & Hboth & Hs1 & Hr1).
  destruct (mutate_all_spec (aimed_at false l) h' this m es c Hs')
    as (hsource & es2 & Hsource & Hs2).
  destruct (mutate_all_spec (aimed_at true l) h' r mr esr _ Hr')
    as (hclone & esr2 & Hclone & Hr2).
  exists hboth, hsource, hclone. repeat (split; [done|]).
  rewrite (size_repr _ _ _ _ _ Hs1), (size_repr _ _ _ _ _ Hs2).
  rewrite (size_repr _ _ _ _ _ Hr1), (size_repr _ _ _ _ _ Hr2).
  rewrite (values_repr _ _ _ _ _ Hs1), (values_repr _ _ _ _ _ Hs2).
  rewrite (values_repr _ _ _ _ _ Hr1), (values_repr _ _ _ _ _ Hr2).
  repeat (split; [try done|]); try done.
  - intros v. by rewrite (has_repr _ _ _ _ _ v Hs1), (has_repr _ _ _ _ _ v Hs2).
  - intros v. by rewrite (has_repr _ _ _ _ _ v Hr1), (has_repr _ _ _ _ _ v Hr2).
Qed.

(** ** The iteration order *)

Lemma first_keys_snoc p v :
  first_keys (p ++ [v]) =
  if bool_decide (hashIt v ∈ first_keys p) then first_keys p
  else first_keys p ++ [hashIt v].
Proof. unfold first_keys. by rewrite foldl_app. Qed.

Lemma bucket_seq_snoc k p v :
  bucket_seq k (p ++ [v]) =
  if bool_decide (hashIt v = k)
  then (if member (bucket_seq k p) v then bucket_seq k p else bucket_seq k p ++ [v])
  else bucket_seq k p.
Proof.
  unfold bucket_seq. rewrite filter_app, foldl_app.
  case_bool_decide as Hk.
  - by rewrite filter_cons_True.
  - rewrite filter_cons_False by done. done.
Qed.

Lemma first_keys_NoDup p : NoDup (first_keys p).
Proof.
  induction p as [|v p IH] using rev_ind; [constructor|].
  rewrite first_keys_snoc. case_bool_decide as Hin; [done|].
  apply NoDup_app. split; [done|]. split; [|apply NoDup_singleton].
  intros k Hk [->|[]%elem_of_nil]%elem_of_cons. done.
Qed.

Lemma first_keys_elem p v : v ∈ p → hashIt v ∈ first_keys p.
Proof.
  induction p as [|x p IH] using rev_ind; [by intros ?%elem_of_nil|].
  rewrite first_keys_snoc.
  intros [Hin|[->|[]%elem_of_nil]%elem_of_cons]%elem_of_app.
  - case_bool_decide; [auto|]. apply elem_of_app. left. auto.
  - case_bool_decide; [done|]. apply elem_of_app. right. left.
Qed.

Lemma bucket_seq_no_key k p : k ∉ first_keys p → bucket_seq k p = [].
Proof.
  intros Hk. unfold bucket_seq.
  replace (filter (λ v, hashIt v = k) p) with (@nil T); [done|].
  destruct (filter (λ v, hashIt v = k) p) as [|x l] eqn:E; [done|].
  assert (x ∈ filter (λ v, hashIt v = k) p) as Hx by (rewrite E; left).
  apply list_elem_of_filter in Hx as [Hkx Hx].
  destruct Hk. rewrite <- Hkx. by apply first_keys_elem.
Qed.

Lemma entries_get_map {V} (f : Z → V) k ks :
  entries_get k (map (λ k, (k, f k)) ks) =
  if bool_decide (k ∈ ks) then Some (f k) else None.
Proof.
  induction ks as [|k0 ks IH]; cbn [map entries_get].
  - rewrite bool_decide_false; [done | apply not_elem_of_nil].
  - destruct (k0 =? k) eqn:E.
    + apply Z.eqb_eq in E. subst. rewrite bool_decide_true; [done | left].
    + apply Z.eqb_neq in E. rewrite IH.
      case_bool_decide as H1; case_bool_decide as H2; try done.
      * destruct H2. by right.
      * apply elem_of_cons in H2 as [?|?]; congruence.
Qed.

Lemma entries_set_map {V} (f : Z → V) k x ks :
  k ∈ ks → NoDup ks →
  entries_set k x (map (λ k, (k, f k)) ks) =
  map (λ k', (k', if bool_decide (k' = k) then x else f k')) ks.
Proof.
  induction ks as [|k0 ks IH]; cbn [map entries_set]; intros Hin Hnd.
  - by apply elem_of_nil in Hin.
  - apply NoDup_cons in Hnd as [Hk0 Hnd]. destruct (k0 =? k) eqn:E.
    + apply Z.eqb_eq in E. subst. rewrite bool_decide_true by done. f_equal.
      apply map_ext_in. intros k' Hk'%list_elem_of_In.
      rewrite bool_decide_false; [done | congruence].
    + apply Z.eqb_neq in E. rewrite bool_decide_false by done. f_equal.
      apply IH; [|done]. apply elem_of_cons in Hin as [?|?]; congruence.
Qed.

(** The content built by a sequence of insertions: one bucket per key, in
    the order of first introduction. *)
Lemma c_add_all_buckets vs :
  c_add_all vs [] = map (λ k, (k, bucket_seq k vs)) (first_keys vs).
Proof.
  induction vs as [|v p IH] using rev_ind; [done|].
  unfold c_add_all in *. rewrite foldl_app. simpl. rewrite IH. clear IH.
  pose proof (first_keys_NoDup p) as Hnd.
  unfold c_add, bucket_of. rewrite entries_get_map, first_keys_snoc.
  case_bool_decide as Hin; simpl.
  - destruct (member (bucket_seq (hashIt v) p) v) eqn:Hmem.
    + apply map_ext. intros k. rewrite bucket_seq_snoc.
      case_bool_decide; [subst; by rewrite Hmem | done].
    + rewrite entries_set_map by done. apply map_ext. intros k.
      rewrite bucket_seq_snoc.
      case_bool_decide; case_bool_decide; subst; try done. by rewrite Hmem.
  - rewrite entries_set_absent.
    2:{ rewrite entries_get_map. by rewrite bool_decide_false. }
    rewrite map_app. simpl. f_equal.
    + apply map_ext_in. intros k Hk%list_elem_of_In. rewrite bucket_seq_snoc.
      rewrite bool_decide_false; [done | congruence].
    + rewrite bucket_seq_snoc, bool_decide_true by done.
      by rewrite (bucket_seq_no_key _ _ Hin).
Qed.

Lemma c_values_add_all vs : c_values (c_add_all vs []) = bucket_order vs.
Proof.
  rewrite c_add_all_buckets. unfold c_values, bucket_order. f_equal.
  change (list_fmap _ _ snd) with (map (@snd Z (list T))).
  by rewrite map_map.
Qed.

Lemma c_add_all_app vs ws c : c_add_all (vs ++ ws) c = c_add_all ws (c_add_all vs c).
Proof. unfold c_add_all. apply foldl_app. Qed.

Lemma add_batches_spec batches : ∀ h this m es c,
  repr h this m es c →
  ∃ h' es',
    forEach_ (λ values, let* _ := add this values in ret tt) batches h = Some (tt, h') ∧
    repr h' this m es' (c_add_all (concat batches) c).
Proof.
  induction batches as [|b batches IH]; intros h this m es c Hr.
  - by exists h, es.
  - destruct (add_spec h this m es c b Hr) as (h1 & es1 & Hrun & Hr1 & _).
    destruct (IH h1 this m es1 _ Hr1) as (h2 & es2 & Hrun2 & Hr2).
    exists h2, es2. simpl. rewrite c_add_all_app. split; [|done].
    rewrite (bind_Some _ _ _ tt h1); [done|]. by run Hrun.
Qed.

(** C3: after any insertion sequence (the values given to the constructor,
    then any number of [add] calls), [values()], [keys()], the default
    iterator and [entries()] yield the values grouped by hash key, the
    keys in the order of their first introduction and each bucket in
    insertion order; so inserting [a], [b] (another hash) and [c] (the
    hash of [a], not deep-equal to [a]) iterates as [a; c; b]. *)
Theorem iteration_order :
  (∀ h initial batches,
      ∃ this h1 h',
        new_DeepSet initial h = Some (this, h1) ∧
        forEach_ (λ vs, let* _ := add this vs in ret tt) batches h1 = Some (tt, h') ∧
        let inserted := initial ++ concat batches in
        values this h' = Some (bucket_order inserted) ∧
        keys this h' = Some (bucket_order inserted) ∧
        iterator this h' = Some (bucket_order inserted) ∧
        entries this h' = Some (map (λ v, (v, v)) (bucket_order inserted))) ∧
  (∀ a b c,
      hashIt a ≠ hashIt b → hashIt c = hashIt a → isEqual a c = false →
      bucket_order [a; b; c] = [a; c; b]).
Proof.
  split.
  - intros h vs batches.
    destruct (new_DeepSet_spec h vs) as (this & m & es & h1 & Hnew & Hr1 & _).
    destruct (add_batches_spec batches h1 this m es _ Hr1) as (h' & es' & Hrun & Hr').
    exists this, h1, h'. split; [done|]. split; [done|]. simpl.
    rewrite <- c_add_all_app, <- (app_nil_l (vs ++ concat batches)) in Hr'.
    pose proof (values_repr _ _ _ _ _ Hr') as Hv. rewrite app_nil_l in Hv.
    rewrite c_values_add_all in Hv. unfold keys, iterator, entries.
    by rewrite Hv.
  - intros a b c Hab Hca Hac. unfold bucket_order, first_keys, bucket_seq. simpl.
    rewrite (bool_decide_false (hashIt b ∈ [hashIt a])).
    2:{ intros [?|[]%elem_of_nil]%elem_of_cons. congruence. }
    rewrite Hca. rewrite (bool_decide_true (hashIt a ∈ _)) by left. simpl.
    rewrite (filter_cons_True _ a), (filter_cons_False _ b), (filter_cons_True _ c),
      filter_nil by congruence.
    rewrite (filter_cons_False _ a), (filter_cons_True _ b), (filter_cons_False _ c),
      filter_nil by congruence.
    simpl. by rewrite Hac.
Qed.

(** ** Counting and membership for the set algebra *)

Lemma distinct_filter p l : distinct l → distinct (List.filter p l).
Proof.
  induction l as [|x l IH]; simpl; [done|].
  rewrite distinct_cons. intros [Hm Hd].
  assert (member (List.filter p l) x = false) as Hm'.
  { apply member_false. intros y Hy. rewrite member_false in Hm. apply Hm.
    apply list_elem_of_In, filter_In in Hy as [Hy _]. by apply list_elem_of_In. }
  destruct (p x); [|auto]. apply distinct_cons. auto.
Qed.

Lemma filter_ext_elem {A} (p q : A → bool) l :
  (∀ x, x ∈ l → p x = q x) → List.filter p l = List.filter q l.
Proof.
  intros H. apply List.filter_ext_in. intros x Hx. apply H. by apply list_elem_of_In.
Qed.

(** The size after a sequence of insertions of pairwise different values:
    the ones that were not there count. *)
Lemma c_size_add_all vs : ∀ c,
  distinct vs →
  c_size (c_add_all vs c)
  = c_size c + Z.of_nat (length (List.filter (λ v, negb (c_has v c)) vs)).
Proof.
  unfold c_add_all. induction vs as [|v vs IH]; intros c Hd; simpl; [lia|].
  apply distinct_cons in Hd as [Hm Hd]. rewrite IH, c_size_add by done.
  rewrite (filter_ext_elem (λ w, negb (c_has w (c_add v c))) (λ w, negb (c_has w c))).
  - destruct (c_has v c); simpl; lia.
  - intros w Hw. rewrite c_has_add. rewrite member_false in Hm.
    rewrite isEqual_sym, (Hm w Hw). by rewrite orb_false_r.
Qed.

Lemma length_filter_negb {A} (p : A → bool) l :
  (length (List.filter (λ x, negb (p x)) l) + length (List.filter p l) = length l)%nat.
Proof. induction l as [|x l IH]; simpl; [done|]. destruct (p x); simpl; lia. Qed.

Lemma count_member_cons a la lb :
  member la a = false → distinct lb →
  length (List.filter (λ b, isEqual a b || member la b) lb)
  = ((if member lb a then 1 else 0) + length (List.filter (member la) lb))%nat.
Proof.
  intros Ha. induction lb as [|b lb IH]; simpl; [done|].
  rewrite distinct_cons. intros [Hb Hd]. specialize (IH Hd).
  destruct (isEqual a b) eqn:Eab; simpl.
  - rewrite (isEqual_sym b a), Eab. simpl.
    assert (member la b = false) as ->.
    { rewrite <- Ha. symmetry. by apply member_isEqual. }
    assert (member lb a = false) as Hlb.
    { rewrite <- Hb. by apply member_isEqual. }
    rewrite Hlb in IH. lia.
  - rewrite (isEqual_sym b a), Eab. simpl. destruct (member la b); simpl; lia.
Qed.

Lemma count_member_sym la lb :
  distinct la → distinct lb →
  length (List.filter (member lb) la) = length (List.filter (member la) lb).
Proof.
  intros Hda Hdb. induction la as [|a la IH]; simpl.
  - induction lb as [|b lb IHb]; simpl; [done|]. apply distinct_cons in Hdb as [_ ?]. auto.
  - apply distinct_cons in Hda as [Ha Hda]. specialize (IH Hda).
    rewrite (filter_ext_elem (member (a :: la)) (λ b, isEqual a b || member la b)) by done.
    rewrite (count_member_cons a la lb Ha Hdb).
    destruct (member lb a); simpl; lia.
Qed.

Lemma c_has_isEqual v w c : isEqual v w = true → c_has v c = c_has w c.
Proof.
  intros He. unfold c_has. rewrite (hashIt_isEqual _ _ He). by apply member_isEqual.
Qed.

Lemma member_filter (p : T → bool) l w :
  (∀ x y, isEqual x y = true → p x = p y) →
  member (List.filter p l) w = member l w && p w.
Proof.
  intros Hp. induction l as [|x l IH]; simpl; [done|].
  destruct (isEqual x w) eqn:E; simpl.
  - rewrite (Hp _ _ E). destruct (p w); simpl; [by rewrite E|].
    rewrite IH. apply andb_false_r.
  - destruct (p x); simpl; [by rewrite E|]. done.
Qed.

Lemma c_has_nil v : c_has v [] = false.
Proof. done. Qed.

Lemma c_size_nil : c_size [] = 0.
Proof. done. Qed.

Lemma c_has_union w ca cb :
  c_has w (c_union ca [cb]) = c_has w ca || member (c_values cb) w.
Proof. unfold c_union. simpl. by rewrite c_has_add_all, c_has_clone. Qed.

Lemma c_size_union ca cb :
  distinct (c_values cb) →
  c_size (c_union ca [cb])
  = c_size ca + Z.of_nat (length (List.filter (λ v, negb (c_has v ca)) (c_values cb))).
Proof.
  intros Hd. unfold c_union. simpl. rewrite c_size_add_all, c_size_clone by done.
  do 3 f_equal. apply filter_ext_elem. intros v _. by rewrite c_has_clone.
Qed.

Lemma c_size_intersection ca cb :
  distinct (c_values ca) →
  c_size (c_intersection ca cb)
  = Z.of_nat (length (List.filter (λ v, c_has v cb) (c_values ca))).
Proof.
  intros Hd. unfold c_intersection.
  rewrite c_size_add_all by (by apply distinct_filter).
  rewrite c_size_nil. simpl.
  generalize (List.filter (λ v, c_has v cb) (c_values ca)). intros l.
  replace (List.filter (λ _ : T, true) l) with l; [done|].
  induction l as [|x l IH]; simpl; congruence.
Qed.

Lemma c_has_intersection w ca cb :
  c_has w (c_intersection ca cb) = member (c_values ca) w && c_has w cb.
Proof.
  unfold c_intersection. rewrite c_has_add_all, c_has_nil. simpl.
  apply member_filter. intros x y He. by apply c_has_isEqual.
Qed.

Lemma c_has_difference w ca cb :
  c_has w (c_difference ca cb) = member (c_values ca) w && negb (c_has w cb).
Proof.
  unfold c_difference. rewrite c_has_add_all, c_has_nil. simpl.
  apply member_filter. intros x y He. f_equal. by apply c_has_isEqual.
Qed.

Lemma c_has_symmetricDifference w ca cb :
  c_has w (c_symmetricDifference ca cb)
  = member (c_values ca) w && negb (c_has w cb)
    || member (c_values cb) w && negb (c_has w ca).
Proof.
  unfold c_symmetricDifference. rewrite c_has_add_all, c_has_difference. f_equal.
  apply member_filter. intros x y He. f_equal. by apply c_has_isEqual.
Qed.

Lemma hashed_union ca cbs : hashed ca → hashed (c_union ca cbs).
Proof.
  intros Hh. unfold c_union. apply hashed_clone in Hh.
  revert Hh. generalize (c_clone ca). induction cbs as [|cb cbs IH]; intros c Hh; simpl.
  - done.
  - by apply IH, hashed_add_all.
Qed.

(** C6: for consistent containers [A] and [B], evaluating
    [A.union(B).size], [A.size], [B.size] and [A.intersection(B).size] in
    that order returns normally and
    [A.union(B).size = A.size + B.size - A.intersection(B).size]. *)
Theorem union_size h A B :
  DeepSet_ok h A → DeepSet_ok h B →
  ∃ u h1 i h2 na nb nu ni,
    union A (inl B) h = Some (u, h1) ∧ size u h1 = Some nu ∧
    size A h1 = Some na ∧ size B h1 = Some nb ∧
    intersection A B h1 = Some (i, h2) ∧ size i h2 = Some ni ∧
    nu = na + nb - ni.
Proof.
  intros (ma & esa & ca & Ha & Hinva & Hha) (mb & esb & cb & Hb & Hinvb & Hhb).
  destruct (union_spec h A (inl B) ma esa ca [cb] Ha)
    as (u & mu & esu & h1 & Hrun1 & Hsub1 & Hu & _).
  { constructor; [eauto | constructor]. }
  pose proof (repr_weaken _ _ _ _ _ _ Ha Hsub1) as Ha1.
  pose proof (repr_weaken _ _ _ _ _ _ Hb Hsub1) as Hb1.
  destruct (intersection_spec h1 A B _ _ _ _ _ _ Ha1 Hb1)
    as (i & mi & esi & h2 & Hrun2 & Hsub2 & Hi & _).
  exists u, h1, i, h2. eexists _, _, _, _.
  split; [done|]. split; [by eapply size_repr|].
  split; [by eapply size_repr|]. split; [by eapply size_repr|].
  split; [done|]. split; [by eapply size_repr|].
  pose proof (repr_keys_content _ _ _ _ _ Ha) as Hka.
  pose proof (repr_keys_content _ _ _ _ _ Hb) as Hkb.
  pose proof (c_values_distinct ca Hha Hka Hinva) as Hda.
  pose proof (c_values_distinct cb Hhb Hkb Hinvb) as Hdb.
  rewrite c_size_union, c_size_intersection by done.
  rewrite (filter_ext_elem (λ v, c_has v cb) (member (c_values cb)))
    by (intros; by apply c_has_member).
  rewrite (count_member_sym _ _ Hda Hdb).
  rewrite <- (filter_ext_elem (λ v, c_has v ca) (member (c_values ca)))
    by (intros; by apply c_has_member).
  pose proof (length_filter_negb (λ v, c_has v ca) (c_values cb)) as Hlen.
  cbv beta in Hlen. unfold c_size. lia.
Qed.

(** C2: for consistent containers [A] and [B], [A.symmetricDifference(B)]
    and [A.union(B).difference(A.intersection(B))] return normally and
    have the same members: [has] answers alike on both for every value. *)
Theorem symmetricDifference_union_minus_intersection h A B :
  DeepSet_ok h A → DeepSet_ok h B →
  ∃ s h1 u h2 i h3 d h4,
    symmetricDifference A B h = Some (s, h1) ∧
    union A (inl B) h1 = Some (u, h2) ∧
    intersection A B h2 = Some (i, h3) ∧
    difference u i h3 = Some (d, h4) ∧
    ∀ w, ∃ b, has s w h4 = Some b ∧ has d w h4 = Some b.
Proof.
  intros (ma & esa & ca & Ha & Hinva & Hha) (mb & esb & cb & Hb & Hinvb & Hhb).
  destruct (symmetricDifference_spec h A B _ _ _ _ _ _ Ha Hb)
    as (s & ms & ess & h1 & Hrun1 & Hsub1 & Hs & _).
  pose proof (repr_weaken _ _ _ _ _ _ Ha Hsub1) as Ha1.
  pose proof (repr_weaken _ _ _ _ _ _ Hb Hsub1) as Hb1.
  destruct (union_spec h1 A (inl B) ma esa ca [cb] Ha1)
    as (u & mu & esu & h2 & Hrun2 & Hsub2 & Hu & _).
  { constructor; [eauto | constructor]. }
  pose proof (repr_weaken _ _ _ _ _ _ Ha1 Hsub2) as Ha2.
  pose proof (repr_weaken _ _ _ _ _ _ Hb1 Hsub2) as Hb2.
  destruct (intersection_spec h2 A B _ _ _ _ _ _ Ha2 Hb2)
    as (i & mi & esi & h3 & Hrun3 & Hsub3 & Hi & _).
  pose proof (repr_weaken _ _ _ _ _ _ Hu Hsub3) as Hu3.
  destruct (difference_spec h3 u i _ _ _ _ _ _ Hu3 Hi)
    as (d & md & esd & h4 & Hrun4 & Hsub4 & Hd & _).
  assert (repr h4 s ms ess (c_symmetricDifference ca cb)) as Hs4.
  { eapply repr_weaken; [done|]. by do 2 (etrans; [|done]). }
  exists s, h1, u, h2, i, h3, d, h4. repeat (split; [done|]).
  intros w. eexists. split; [by eapply has_repr|].
  rewrite (has_repr _ _ _ _ _ w Hd). f_equal.
  pose proof (repr_keys_content _ _ _ _ _ Ha) as Hka.
  pose proof (repr_keys_content _ _ _ _ _ Hb) as Hkb.
  pose proof (repr_keys_content _ _ _ _ _ Hu) as Hku.
  rewrite c_has_symmetricDifference, c_has_difference, c_has_intersection.
  rewrite <- (c_has_member w (c_union ca [cb])) by (by try apply hashed_union).
  rewrite c_has_union.
  rewrite <- !c_has_member by done.
  by destruct (c_has w ca), (c_has w cb).
Qed.

(** ** Consistent instances *)

Lemma distinctb_sound l : distinctb l = true → distinct l.
Proof.
  induction l as [|x l IH]; simpl; [intros _; apply distinct_nil|].
  rewrite !andb_true_iff, negb_true_iff, forallb_forall.
  intros [[Hm Hx] Hd] [|i] [|j] y z Hi Hj E; simpl in *; simplify_eq; try done.
  - apply list_elem_of_lookup_2, list_elem_of_In, Hx in Hj. by rewrite E in Hj.
  - apply list_elem_of_lookup_2 in Hi. rewrite member_false in Hm.
    by rewrite (Hm y Hi) in E.
  - f_equal. by eapply (IH Hd).
Qed.

Lemma DeepSet_ok_inv h this : DeepSet_ok h this → DeepSet_inv h this.
Proof. intros (m & es & c & Hr & Hinv & _). by exists m, es, c. Qed.



(** ** What [isDisjointFrom] computes *)

Lemma c_size_nonneg c : 0 ≤ c_size c.
Proof. unfold c_size. lia. Qed.

Lemma c_size_add_pos v c : 1 ≤ c_size (c_add v c).
Proof.
  rewrite c_size_add. pose proof (c_size_nonneg c).
  destruct (c_has v c) eqn:Hhas; [|lia].
  apply c_has_values, member_true in Hhas as (x & Hx & _).
  unfold c_size. destruct (c_values c); [by apply elem_of_nil in Hx | simpl; lia].
Qed.

Lemma c_size_add_all_mono vs : ∀ c, c_size c ≤ c_size (c_add_all vs c).
Proof.
  unfold c_add_all. induction vs as [|v vs IH]; intros c; simpl; [lia|].
  etrans; [|apply IH]. rewrite c_size_add. destruct (c_has v c); lia.
Qed.

Lemma c_size_zero_values c : c_size c = 0 ↔ c_values c = [].
Proof. unfold c_size. destruct (c_values c); simpl; [done|]. split; [lia | done]. Qed.

Lemma c_size_union_zero ca cb :
  c_size (c_union ca [cb]) = 0 ↔ c_size ca = 0 ∧ c_size cb = 0.
Proof.
  unfold c_union. simpl. rewrite <- (c_size_clone ca), (c_size_zero_values cb).
  pose proof (c_size_nonneg (c_clone ca)).
  destruct (c_values cb) as [|v vs] eqn:E.
  - unfold c_add_all. simpl. tauto.
  - pose proof (c_size_add_pos v (c_clone ca)).
    pose proof (c_size_add_all_mono vs (c_add v (c_clone ca))) as Hm.
    unfold c_add_all in *. simpl in *. split; [lia | by intros [_ ?]].
Qed.

(** X29: [isDisjointFrom] returns normally, and answers [true] exactly
    when both containers are empty. *)
Lemma isDisjointFrom_both_empty h this other :
  DeepSet_wf h this → DeepSet_wf h other →
  ∃ b h' n n',
    isDisjointFrom this other h = Some (b, h') ∧
    size this h = Some n ∧ size other h = Some n' ∧
    (b = true ↔ n = 0 ∧ n' = 0).
Proof.
  intros (m & es & ca & Ha) (m' & es' & cb & Hb).
  destruct (isDisjointFrom_spec h this other _ _ _ _ _ _ Ha Hb) as (h' & Hrun & _).
  eexists _, h', _, _. split; [done|].
  split; [by eapply size_repr|]. split; [by eapply size_repr|].
  rewrite Z.eqb_eq. apply c_size_union_zero.
Qed.

(** * Further properties of the methods *)

(** ** Membership and size *)

(** X1: [size] is the number of values the iteration yields, in every
    store (also when the reference is not an instance: both reads fail). *)
Theorem size_counts_values h this :
  size this h = (λ vs, Z.of_nat (length vs)) <$> values this h.
Proof.
  unfold size, values.
  destruct (get__map h this) as [m|]; [|done]. simpl.
  destruct (get_entries h m) as [es|]; [|done]. simpl.
  destruct (read_buckets h es) as [bs|]; [|done]. simpl.
  by rewrite sum_lengths.
Qed.

Lemma member_elem l v : v ∈ l → member l v = true.
Proof. intros Hv. apply member_true. exists v. by rewrite isEqual_refl. Qed.

(** X2: after [add(...values)], a value is a member exactly when it was
    one before or is deep-equal to one of [values]; every added value is a
    member. *)
Theorem has_after_add h this values :
  DeepSet_wf h this →
  ∃ h', add this values h = Some (this, h') ∧
        (∀ w, ∃ b, has this w h = Some b ∧
                   has this w h' = Some (b || member values w)) ∧
        (∀ v, v ∈ values → has this v h' = Some true).
Proof.
  intros (m & es & c & Hr).
  destruct (add_spec h this m es c values Hr) as (h' & es' & Hrun & Hr' & _).
  exists h'. split; [done|]. split.
  - intros w. exists (c_has w c). split; [by eapply has_repr|].
    rewrite (has_repr _ _ _ _ _ w Hr'). by rewrite c_has_add_all.
  - intros v Hv. rewrite (has_repr _ _ _ _ _ v Hr'), c_has_add_all.
    by rewrite (member_elem _ _ Hv), orb_true_r.
Qed.

(** X3: [add(v)] makes the size grow by one when [v] was not a member and
    leaves it as it was otherwise. *)
Theorem size_after_add h this v :
  DeepSet_wf h this →
  ∃ h' b n, add this [v] h = Some (this, h') ∧
            has this v h = Some b ∧ size this h = Some n ∧
            size this h' = Some (if b then n else n + 1).
Proof.
  intros (m & es & c & Hr).
  destruct (add_spec h this m es c [v] Hr) as (h' & es' & Hrun & Hr' & _).
  exists h', (c_has v c), (c_size c). split; [done|].
  split; [by eapply has_repr|]. split; [by eapply size_repr|].
  rewrite (size_repr _ _ _ _ _ Hr'). unfold c_add_all. simpl.
  rewrite c_size_add. f_equal. destruct (c_has v c); lia.
Qed.

Lemma c_delete_fst v c : (c_delete v c).1 = c_has v c.
Proof.
  unfold c_delete, c_has, bucket_of.
  destruct (entries_get (hashIt v) c) as [b|]; [|done]. simpl.
  destruct (findIndex (λ x, isEqual x v) b =? -1) eqn:E; simpl.
  - apply Z.eqb_eq, findIndex_none in E. unfold member. by rewrite E.
  - apply Z.eqb_neq in E. unfold member.
    destruct (existsb (λ x, isEqual x v) b) eqn:Ex; [done|].
    by apply findIndex_none in Ex.
Qed.

Lemma c_values_delete k (c : buckets) :
  (length (c_values (entries_delete k c)) + length (bucket_of k c)
   = length (c_values c))%nat.
Proof.
  unfold c_values, bucket_of. induction c as [|[k0 b0] c IH]; csimpl; [done|].
  destruct (k0 =? k); csimpl; rewrite ?length_app; simpl; lia.
Qed.

Lemma c_size_delete v c :
  c_size (c_delete v c).2 = c_size c - (if c_has v c then 1 else 0).
Proof.
  rewrite <- c_delete_fst. unfold c_delete, c_size.
  destruct (entries_get (hashIt v) c) as [b|] eqn:Hget; simpl; [|lia].
  destruct (findIndex (λ x, isEqual x v) b =? -1) eqn:E; simpl; [lia|].
  apply Z.eqb_neq in E.
  destruct (findIndex_found _ _ E) as (l1 & x & l2 & -> & -> & _).
  rewrite splice_middle.
  assert (bucket_of (hashIt v) c = l1 ++ x :: l2) as Hb
    by (unfold bucket_of; by rewrite Hget).
  destruct (Z.of_nat (length (l1 ++ l2)) =? 0) eqn:Hlen.
  - pose proof (c_values_delete (hashIt v) c) as H. rewrite Hb in H.
    apply Z.eqb_eq in Hlen. rewrite !length_app in *. simpl in *. lia.
  - pose proof (c_values_set (hashIt v) (l1 ++ l2) c) as H. rewrite Hb in H.
    rewrite !length_app in *. simpl in *. lia.
Qed.

(** X4: [delete(v)] returns whether [v] was a member, and the size drops
    by one exactly when it returns [true]. *)
Theorem delete_reports_membership h this v :
  DeepSet_wf h this →
  ∃ b h' n, delete this v h = Some (b, h') ∧
            has this v h = Some b ∧ size this h = Some n ∧
            size this h' = Some (if b then n - 1 else n).
Proof.
  intros (m & es & c & Hr).
  destruct (delete_spec h this m es c v Hr) as (h' & es' & Hrun & Hr' & _).
  exists (c_has v c), h', (c_size c). rewrite c_delete_fst in Hrun.
  split; [done|]. split; [by eapply has_repr|]. split; [by eapply size_repr|].
  rewrite (size_repr _ _ _ _ _ Hr'), c_size_delete. f_equal.
  destruct (c_has v c); lia.
Qed.

Lemma member_remove_equal l1 x l2 v w :
  distinct (l1 ++ x :: l2) → isEqual x v = true →
  member (l1 ++ l2) w = member (l1 ++ x :: l2) w && negb (isEqual v w).
Proof.
  intros Hd Hxv. rewrite !member_app. simpl.
  destruct (isEqual v w) eqn:Hvw; simpl.
  - rewrite andb_false_r. apply distinct_app in Hd as (_ & [Hx _]%distinct_cons & Hl1).
    assert (isEqual x w = true) as Hxw by (by eapply isEqual_trans).
    rewrite <- !(member_isEqual _ x w Hxw), Hx, orb_false_r.
    apply member_false. intros y Hy. specialize (Hl1 y Hy). simpl in Hl1.
    apply orb_false_iff in Hl1 as [Hl1 _]. by rewrite isEqual_sym.
  - rewrite andb_true_r. f_equal.
    destruct (isEqual x w) eqn:Hxw; [|done].
    assert (isEqual v w = true) as Hc; [|congruence].
    apply (isEqual_trans _ x); [by rewrite isEqual_sym | done].
Qed.

Lemma c_has_delete v w c :
  NoDup c.*1 → buckets_inv c →
  c_has w (c_delete v c).2 = c_has w c && negb (isEqual v w).
Proof.
  intros Hnd Hinv. unfold c_delete.
  assert (isEqual v w = true → c_has w c = c_has v c) as Hsame.
  { intros He. symmetry. by apply c_has_isEqual. }
  destruct (entries_get (hashIt v) c) as [b|] eqn:Hget; simpl.
  2:{ destruct (isEqual v w) eqn:He; [|by rewrite andb_true_r].
      rewrite (Hsame eq_refl). unfold c_has, bucket_of. by rewrite Hget. }
  destruct (findIndex (λ x, isEqual x v) b =? -1) eqn:E; simpl.
  { destruct (isEqual v w) eqn:He; [|by rewrite andb_true_r].
    rewrite (Hsame eq_refl). unfold c_has, bucket_of. rewrite Hget. simpl.
    apply Z.eqb_eq, findIndex_none in E. unfold member. by rewrite E. }
  apply Z.eqb_neq in E.
  destruct (findIndex_found _ _ E) as (l1 & x & l2 & -> & -> & Hxv & _).
  rewrite splice_middle.
  destruct (Forall_entries_get _ _ _ _ Hinv Hget) as [Hd _]. simpl in Hd.
  unfold c_has.
  destruct (decide (hashIt w = hashIt v)) as [Hk|Hk].
  - rewrite Hk.
    assert (bucket_of (hashIt v) c = l1 ++ x :: l2) as ->
      by (unfold bucket_of; by rewrite Hget).
    rewrite <- (member_remove_equal _ _ _ v w Hd Hxv).
    destruct (Z.of_nat (length (l1 ++ l2)) =? 0) eqn:Hlen.
    + unfold bucket_of. rewrite entries_get_delete, bool_decide_true by done.
      apply Z.eqb_eq in Hlen. by destruct (l1 ++ l2).
    + by rewrite bucket_of_set, bool_decide_true.
  - assert (isEqual v w = false) as ->.
    { destruct (isEqual v w) eqn:He; [|done]. apply hashIt_isEqual in He. congruence. }
    rewrite andb_true_r. f_equal.
    destruct (Z.of_nat (length (l1 ++ l2)) =? 0) eqn:Hlen.
    + unfold bucket_of. rewrite entries_get_delete by done.
      by rewrite bool_decide_false.
    + by rewrite bucket_of_set, bool_decide_false.
Qed.

(** X5: in a container that keeps the invariant, after [delete(v)] the
    members are the former members that are not deep-equal to [v]; so
    [has(v)] is [false] afterwards. *)
Theorem has_after_delete h this v :
  DeepSet_inv h this →
  ∃ b h', delete this v h = Some (b, h') ∧
          (∀ w, ∃ bw, has this w h = Some bw ∧
                      has this w h' = Some (bw && negb (isEqual v w))) ∧
          has this v h' = Some false.
Proof.
  intros (m & es & c & Hr & Hinv).
  destruct (delete_spec h this m es c v Hr) as (h' & es' & Hrun & Hr' & _).
  pose proof (repr_keys_content _ _ _ _ _ Hr) as Hnd.
  eexists _, h'. split; [done|]. split.
  - intros w. exists (c_has w c). split; [by eapply has_repr|].
    rewrite (has_repr _ _ _ _ _ w Hr'). by rewrite c_has_delete.
  - rewrite (has_repr _ _ _ _ _ v Hr'), c_has_delete by done.
    by rewrite isEqual_refl, andb_false_r.
Qed.

(** X6: [clear()] leaves an empty container: size [0], nothing to
    iterate, no member. *)
Theorem clear_empties h this :
  DeepSet_wf h this →
  ∃ h', clear this h = Some (tt, h') ∧
        size this h' = Some 0 ∧ values this h' = Some [] ∧
        ∀ v, has this v h' = Some false.
Proof.
  intros (m & es & c & Hr).
  destruct (clear_spec h this m es c Hr) as (h' & Hrun & Hr' & _).
  exists h'. split; [done|].
  split; [by rewrite (size_repr _ _ _ _ _ Hr')|].
  split; [by rewrite (values_repr _ _ _ _ _ Hr')|].
  intros v. by rewrite (has_repr _ _ _ _ _ v Hr').
Qed.





(** ** The set algebra: members, sizes, order, and what it leaves alone *)

(** X10: the members of [A.intersection(B)] are the values that are
    members of [A] and of [B]. *)
Theorem intersection_has h A B :
  DeepSet_ok h A → DeepSet_wf h B →
  ∃ r h', intersection A B h = Some (r, h') ∧
          ∀ w, ∃ a b, has A w h = Some a ∧ has B w h = Some b ∧
                      has r w h' = Some (a && b).
Proof.
  intros (ma & esa & ca & Ha & _ & Hha) (mb & esb & cb & Hb).
  destruct (intersection_spec h A B _ _ _ _ _ _ Ha Hb)
    as (r & mr & esr & h' & Hrun & _ & Hr & _).
  exists r, h'. split; [done|]. intros w. exists (c_has w ca), (c_has w cb).
  split; [by eapply has_repr|]. split; [by eapply has_repr|].
  rewrite (has_repr _ _ _ _ _ w Hr), c_has_intersection.
  rewrite <- c_has_member; [done | done | by eapply repr_keys_content].
Qed.

(** X11: the members of [A.difference(B)] are the members of [A] that are
    not members of [B]. *)
Theorem difference_has h A B :
  DeepSet_ok h A → DeepSet_wf h B →
  ∃ r h', difference A B h = Some (r, h') ∧
          ∀ w, ∃ a b, has A w h = Some a ∧ has B w h = Some b ∧
                      has r w h' = Some (a && negb b).
Proof.
  intros (ma & esa & ca & Ha & _ & Hha) (mb & esb & cb & Hb).
  destruct (difference_spec h A B _ _ _ _ _ _ Ha Hb)
    as (r & mr & esr & h' & Hrun & _ & Hr & _).
  exists r, h'. split; [done|]. intros w. exists (c_has w ca), (c_has w cb).
  split; [by eapply has_repr|]. split; [by eapply has_repr|].
  rewrite (has_repr _ _ _ _ _ w Hr), c_has_difference.
  rewrite <- c_has_member; [done | done | by eapply repr_keys_content].
Qed.

(** X12: the members of [A.symmetricDifference(B)] are the values that
    are members of exactly one of [A] and [B]. *)
Theorem symmetricDifference_has h A B :
  DeepSet_ok h A → DeepSet_ok h B →
  ∃ r h', symmetricDifference A B h = Some (r, h') ∧
          ∀ w, ∃ a b, has A w h = Some a ∧ has B w h = Some b ∧
                      has r w h' = Some (xorb a b).
Proof.
  intros (ma & esa & ca & Ha & _ & Hha) (mb & esb & cb & Hb & _ & Hhb).
  destruct (symmetricDifference_spec h A B _ _ _ _ _ _ Ha Hb)
    as (r & mr & esr & h' & Hrun & _ & Hr & _).
  exists r, h'. split; [done|]. intros w. exists (c_has w ca), (c_has w cb).
  split; [by eapply has_repr|]. split; [by eapply has_repr|].
  rewrite (has_repr _ _ _ _ _ w Hr), c_has_symmetricDifference.
  rewrite <- !c_has_member; try done; try by eapply repr_keys_content.
  by destruct (c_has w ca), (c_has w cb).
Qed.

Lemma c_has_union_all w cbs : ∀ c,
  c_has w (foldl (λ c cb, c_add_all (c_values cb) c) c cbs)
  = c_has w c || existsb (λ cb, member (c_values cb) w) cbs.
Proof.
  induction cbs as [|cb cbs IH]; intros c; simpl; [by rewrite orb_false_r|].
  by rewrite IH, c_has_add_all, orb_assoc.
Qed.

(** X13: the members of [A.union(other)], for one container or an array
    of containers, are the values that are members of [A] or of one of
    the others. *)
Theorem union_has h A other :
  DeepSet_ok h A →
  Forall (DeepSet_ok h) (match other with inl s => [s] | inr l => l end) →
  ∃ r h', union A other h = Some (r, h') ∧
          ∀ w, ∃ b, has r w h' = Some b ∧
                    (b = true ↔
                     has A w h = Some true ∨
                     ∃ s, s ∈ (match other with inl s => [s] | inr l => l end) ∧
                          has s w h = Some true).
Proof.
  intros (ma & esa & ca & Ha & _ & Hha) Hothers.
  destruct (Forall_repr_contents h (λ c, buckets_inv c ∧ hashed c) _ Hothers)
    as (cbs & Hbs & Hcbs).
  destruct (union_spec h A other ma esa ca cbs Ha Hbs)
    as (r & mr & esr & h' & Hrun & _ & Hr & _).
  exists r, h'. split; [done|]. intros w. eexists. split; [by eapply has_repr|].
  unfold c_union. rewrite c_has_union_all, c_has_clone, orb_true_iff.
  rewrite (has_repr _ _ _ _ _ w Ha).
  assert (existsb (λ cb, member (c_values cb) w) cbs = true ↔
          ∃ s, s ∈ (match other with inl s => [s] | inr l => l end) ∧
               has s w h = Some true) as ->.
  { clear Hrun Hr Hothers. induction Hbs as [|s cb ss cbs (m & es & Hs) Hall IH]; simpl.
    - split; [done|]. intros (s & []%elem_of_nil & _).
    - apply Forall_cons in Hcbs as [[_ Hh] Hcbs]. rewrite orb_true_iff, (IH Hcbs).
      rewrite <- c_has_member by (done || by eapply repr_keys_content).
      split.
      + intros [Hw|(s' & Hin & Hw)].
        * exists s. split; [left|]. by rewrite (has_repr _ _ _ _ _ w Hs), Hw.
        * exists s'. split; [by right | done].
      + intros (s' & [->|Hin]%elem_of_cons & Hw).
        * left. rewrite (has_repr _ _ _ _ _ w Hs) in Hw. by injection Hw.
        * right. eauto. }
  split; (intros [Hw|?]; [left|by right]).
  - by rewrite Hw.
  - by injection Hw.
Qed.


Lemma length_filter_le {A} (p : A → bool) l :
  (length (List.filter p l) ≤ length l)%nat.
Proof. induction l as [|x l IH]; simpl; [done|]. destruct (p x); simpl; lia. Qed.

(** X15: for consistent containers, [A.intersection(B).size] is at most
    [A.size] and at most [B.size]. *)
Theorem intersection_size_le h A B :
  DeepSet_ok h A → DeepSet_ok h B →
  ∃ i h' ni na nb,
    intersection A B h = Some (i, h') ∧ size i h' = Some ni ∧
    size A h = Some na ∧ size B h = Some nb ∧ ni ≤ na ∧ ni ≤ nb.
Proof.
  intros (ma & esa & ca & Ha & Hinva & Hha) (mb & esb & cb & Hb & Hinvb & Hhb).
  destruct (intersection_spec h A B _ _ _ _ _ _ Ha Hb)
    as (i & mi & esi & h' & Hrun & _ & Hi & _).
  pose proof (repr_keys_content _ _ _ _ _ Ha) as Hka.
  pose proof (repr_keys_content _ _ _ _ _ Hb) as Hkb.
  pose proof (c_values_distinct ca Hha Hka Hinva) as Hda.
  pose proof (c_values_distinct cb Hhb Hkb Hinvb) as Hdb.
  exists i, h'. eexists _, _, _. split; [done|].
  split; [by eapply size_repr|]. split; [by eapply size_repr|].
  split; [by eapply size_repr|]. rewrite c_size_intersection by done. split.
  - pose proof (length_filter_le (λ v, c_has v cb) (c_values ca)). unfold c_size. lia.
  - rewrite (filter_ext_elem (λ v, c_has v cb) (member (c_values cb)))
      by (intros; by apply c_has_member).
    rewrite (count_member_sym _ _ Hda Hdb).
    pose proof (length_filter_le (member (c_values ca)) (c_values cb)).
    unfold c_size. lia.
Qed.

Lemma c_size_difference ca cb :
  distinct (c_values ca) →
  c_size (c_difference ca cb)
  = Z.of_nat (length (List.filter (λ v, negb (c_has v cb)) (c_values ca))).
Proof.
  intros Hd. unfold c_difference.
  rewrite c_size_add_all by (by apply distinct_filter).
  rewrite c_size_nil. simpl.
  generalize (List.filter (λ v, negb (c_has v cb)) (c_values ca)). intros l.
  replace (List.filter (λ _ : T, true) l) with l; [done|].
  induction l as [|x l IH]; simpl; congruence.
Qed.

(** X16: for a consistent [A], the sizes of [A.difference(B)] and
    [A.intersection(B)] add up to [A.size]. *)
Theorem difference_size h A B :
  DeepSet_ok h A → DeepSet_wf h B →
  ∃ d h1 i h2 nd ni na,
    difference A B h = Some (d, h1) ∧ size d h1 = Some nd ∧
    intersection A B h1 = Some (i, h2) ∧ size i h2 = Some ni ∧
    size A h = Some na ∧ nd + ni = na.
Proof.
  intros (ma & esa & ca & Ha & Hinva & Hha) (mb & esb & cb & Hb).
  destruct (difference_spec h A B _ _ _ _ _ _ Ha Hb)
    as (d & md & esd & h1 & Hrun1 & Hsub1 & Hd & _).
  pose proof (repr_weaken _ _ _ _ _ _ Ha Hsub1) as Ha1.
  pose proof (repr_weaken _ _ _ _ _ _ Hb Hsub1) as Hb1.
  destruct (intersection_spec h1 A B _ _ _ _ _ _ Ha1 Hb1)
    as (i & mi & esi & h2 & Hrun2 & _ & Hi & _).
  pose proof (repr_keys_content _ _ _ _ _ Ha) as Hka.
  pose proof (c_values_distinct ca Hha Hka Hinva) as Hda.
  exists d, h1, i, h2. eexists _, _, _. split; [done|].
  split; [by eapply size_repr|]. split; [done|].
  split; [by eapply size_repr|]. split; [by eapply size_repr|].
  rewrite c_size_difference, c_size_intersection by done.
  pose proof (length_filter_negb (λ v, c_has v cb) (c_values ca)) as Hlen.
  cbv beta in Hlen. unfold c_size. lia.
Qed.

(** ** The order of [intersection] and [difference] *)

Lemma c_add_all_same_key k c0 l : ∀ l0,
  entries_get k c0 = None → Forall (λ v, hashIt v = k) l → distinct (l0 ++ l) →
  c_add_all l (if bool_decide (l0 = []) then c0 else entries_set k l0 c0)
  = if bool_decide (l0 ++ l = []) then c0 else entries_set k (l0 ++ l) c0.
Proof.
  unfold c_add_all. induction l as [|v l IH]; intros l0 Hget Hk Hd; simpl.
  - by rewrite app_nil_r.
  - apply Forall_cons in Hk as [Hv Hk].
    replace (l0 ++ v :: l) with ((l0 ++ [v]) ++ l) in * by (by rewrite <- app_assoc).
    rewrite <- (IH (l0 ++ [v])) by done.
    rewrite (bool_decide_false (l0 ++ [v] = [])) by (by destruct l0).
    f_equal. unfold c_add. rewrite Hv.
    assert (member l0 v = false) as Hm.
    { apply distinct_app in Hd as [Hd _]. apply distinct_app in Hd as (_ & _ & Hd).
      apply member_false. intros y Hy. specialize (Hd y Hy). simpl in Hd.
      apply orb_false_iff in Hd as [Hd _]. by rewrite isEqual_sym. }
    case_bool_decide as Hl0.
    + subst l0. unfold bucket_of. by rewrite Hget.
    + rewrite bucket_of_set, bool_decide_true, Hm by done. apply entries_set_set.
Qed.

Lemma c_values_snoc (c : buckets) k b : c_values (c ++ [(k, b)]) = c_values c ++ b.
Proof. unfold c_values. rewrite fmap_app, concat_app. simpl. by rewrite app_nil_r. Qed.

Lemma filter_app_bool {A} (p : A → bool) l1 l2 :
  List.filter p (l1 ++ l2) = List.filter p l1 ++ List.filter p l2.
Proof. apply List.filter_app. Qed.

(** Inserting, into an empty container, the values of a consistent one
    that pass a test gives them back in the same order. *)
Lemma c_add_all_filter (p : T → bool) c :
  hashed c → NoDup c.*1 → buckets_inv c →
  c_values (c_add_all (List.filter p (c_values c)) []) = List.filter p (c_values c) ∧
  (∀ k, k ∈ (c_add_all (List.filter p (c_values c)) []).*1 → k ∈ c.*1).
Proof.
  induction c as [|[k b] c IH] using rev_ind; intros Hh Hnd Hinv.
  - split; [done|]. by intros k.
  - apply Forall_app in Hh as [Hh [Hb _]%Forall_cons].
    apply Forall_app in Hinv as [Hinv [[Hd _] _]%Forall_cons].
    rewrite fmap_app in Hnd. apply NoDup_app in Hnd as (Hnd & Hk & _). simpl in *.
    destruct (IH Hh Hnd Hinv) as [IHv IHk]. clear IH.
    rewrite c_values_snoc, filter_app_bool, c_add_all_app.
    set (c0 := c_add_all (List.filter p (c_values c)) []) in *.
    assert (entries_get k c0 = None) as Hget.
    { apply entries_get_None. intros Hin. apply (Hk k (IHk k Hin)). left. }
    pose proof (c_add_all_same_key k c0 (List.filter p b) [] Hget) as Hadd.
    rewrite bool_decide_true in Hadd by done. simpl in Hadd. rewrite Hadd.
    2:{ eapply Forall_impl; [|by intros x Hx; exact Hx].
        apply Forall_forall. intros x Hx%list_elem_of_In%filter_In.
        destruct Hx as [Hx _]. apply list_elem_of_In in Hx.
        by apply (proj1 (Forall_forall _ _) Hb). }
    2:{ by apply distinct_filter. }
    case_bool_decide as Hnil.
    + rewrite Hnil, app_nil_r. split; [done|]. intros k' Hk'.
      rewrite fmap_app. apply elem_of_app. left. auto.
    + rewrite entries_set_absent by done. rewrite c_values_snoc, IHv. split; [done|].
      intros k'. rewrite !fmap_app, !elem_of_app. intros [?|?]; [left; auto | by right].
Qed.

(** X17: [A.intersection(B)] and [A.difference(B)] of a consistent [A]
    iterate in the order of [A]: they yield the values of [A] that [B]
    has, respectively lacks, in the order [A] yields them. *)
Theorem intersection_difference_order h A B :
  DeepSet_ok h A → DeepSet_wf h B →
  ∃ vs (inB : T → bool) i h1 d h2,
    values A h = Some vs ∧ (∀ v, has B v h = Some (inB v)) ∧
    intersection A B h = Some (i, h1) ∧
    values i h1 = Some (List.filter inB vs) ∧
    difference A B h = Some (d, h2) ∧
    values d h2 = Some (List.filter (λ v, negb (inB v)) vs).
Proof.
  intros (ma & esa & ca & Ha & Hinva & Hha) (mb & esb & cb & Hb).
  destruct (intersection_spec h A B _ _ _ _ _ _ Ha Hb)
    as (i & mi & esi & h1 & Hrun1 & _ & Hi & _).
  destruct (difference_spec h A B _ _ _ _ _ _ Ha Hb)
    as (d & md & esd & h2 & Hrun2 & _ & Hd & _).
  pose proof (repr_keys_content _ _ _ _ _ Ha) as Hka.
  exists (c_values ca), (λ v, c_has v cb), i, h1, d, h2.
  split; [by eapply values_repr|]. split; [intros v; by eapply has_repr|].
  split; [done|]. split.
  { rewrite (values_repr _ _ _ _ _ Hi). f_equal.
    by apply (c_add_all_filter (λ v, c_has v cb)). }
  split; [done|].
  rewrite (values_repr _ _ _ _ _ Hd). f_equal.
  by apply (c_add_all_filter (λ v, negb (c_has v cb))).
Qed.

(** ** Subset and superset tests *)

Lemma all_present_repr h other m es c vs :
  repr h other m es c →
  all_present other h vs = Some (forallb (λ v, c_has v c) vs).
Proof.
  intros Hr. induction vs as [|v vs IH]; simpl; [done|].
  rewrite (has_repr _ _ _ _ _ v Hr). simpl. by destruct (c_has v c).
Qed.

Lemma isSubsetOf_repr h this other m es ca m' es' cb :
  repr h this m es ca → repr h other m' es' cb →
  isSubsetOf this other h = Some (forallb (λ v, c_has v cb) (c_values ca)).
Proof.
  intros Ha Hb. unfold isSubsetOf. rewrite (values_repr _ _ _ _ _ Ha). simpl.
  by eapply all_present_repr.
Qed.

Lemma forallb_has_members ca cb :
  hashed ca → NoDup ca.*1 →
  forallb (λ v, c_has v cb) (c_values ca) = true ↔
  ∀ v, c_has v ca = true → c_has v cb = true.
Proof.
  intros Hh Hnd. rewrite forallb_forall. split.
  - intros Hall v Hv. rewrite c_has_member in Hv by done.
    apply member_true in Hv as (x & Hx & He).
    rewrite <- (c_has_isEqual _ _ cb He). by apply Hall, list_elem_of_In.
  - intros Hall x Hx%list_elem_of_In. apply Hall.
    rewrite c_has_member by done. by apply member_elem.
Qed.

(** X18: for a consistent [A], [A.isSubsetOf(B)] is [true] exactly when
    every member of [A] is a member of [B], and [B.isSupersetOf(A)] gives
    the same answer. *)
Theorem isSubsetOf_members h A B :
  DeepSet_ok h A → DeepSet_wf h B →
  ∃ b, isSubsetOf A B h = Some b ∧ isSupersetOf B A h = Some b ∧
       (b = true ↔ ∀ v, has A v h = Some true → has B v h = Some true).
Proof.
  intros (ma & esa & ca & Ha & _ & Hha) (mb & esb & cb & Hb).
  pose proof (repr_keys_content _ _ _ _ _ Ha) as Hka.
  eexists. split; [by eapply isSubsetOf_repr|].
  split; [by eapply (isSubsetOf_repr h A B)|].
  rewrite (forallb_has_members ca cb Hha Hka). split.
  - intros Hall v. rewrite (has_repr _ _ _ _ _ v Ha), (has_repr _ _ _ _ _ v Hb).
    intros [= Hv]. by rewrite (Hall v Hv).
  - intros Hall v Hv. specialize (Hall v).
    rewrite (has_repr _ _ _ _ _ v Ha), (has_repr _ _ _ _ _ v Hb), Hv in Hall.
    specialize (Hall eq_refl). by injection Hall.
Qed.


Lemma c_size_add_all_nil_zero l : c_size (c_add_all l []) = 0 ↔ l = [].
Proof.
  destruct l as [|v l]; [done|]. split; [|done].
  pose proof (c_size_add_pos v []).
  pose proof (c_size_add_all_mono l (c_add v [])) as Hm.
  unfold c_add_all in *. simpl in *. lia.
Qed.

(** X20: [A.isSubsetOf(B)] is [true] exactly when [A.difference(B)] is
    empty. *)
Theorem isSubsetOf_difference_empty h A B :
  DeepSet_wf h A → DeepSet_wf h B →
  ∃ b d h' n,
    isSubsetOf A B h = Some b ∧ difference A B h = Some (d, h') ∧
    size d h' = Some n ∧ b = (n =? 0).
Proof.
  intros (ma & esa & ca & Ha) (mb & esb & cb & Hb).
  destruct (difference_spec h A B _ _ _ _ _ _ Ha Hb)
    as (d & md & esd & h' & Hrun & _ & Hd & _).
  eexists _, d, h', _. split; [by eapply isSubsetOf_repr|]. split; [done|].
  split; [by eapply size_repr|].
  apply eq_true_iff_eq. rewrite Z.eqb_eq. unfold c_difference.
  rewrite c_size_add_all_nil_zero, forallb_forall. split.
  - intros Hall. induction (c_values ca) as [|x l IH]; simpl; [done|].
    rewrite (Hall x) by (by left). simpl. apply IH. intros y Hy. apply Hall. by right.
  - intros Hnil x Hx. destruct (c_has x cb) eqn:E; [done|].
    assert (In x (List.filter (λ v, negb (c_has v cb)) (c_values ca))) as Hin.
    { apply filter_In. by rewrite E. }
    by rewrite Hnil in Hin.
Qed.

(** ** Deleting, then adding again *)

(** X21: in a container that keeps the invariant, [delete(v)] of a member
    followed by [add(v)] gives back the membership and the size. *)
Theorem delete_add_restores h this v :
  DeepSet_inv h this → has this v h = Some true →
  ∃ h1 h2,
    delete this v h = Some (true, h1) ∧ add this [v] h1 = Some (this, h2) ∧
    size this h2 = size this h ∧ ∀ w, has this w h2 = has this w h.
Proof.
  intros (m & es & c & Hr & Hinv) Hv.
  rewrite (has_repr _ _ _ _ _ v Hr) in Hv. injection Hv as Hv.
  destruct (delete_spec h this m es c v Hr) as (h1 & es1 & Hrun1 & Hr1 & _).
  destruct (add_spec h1 this m es1 _ [v] Hr1) as (h2 & es2 & Hrun2 & Hr2 & _).
  pose proof (repr_keys_content _ _ _ _ _ Hr) as Hnd.
  rewrite c_delete_fst, Hv in Hrun1.
  exists h1, h2. split; [done|]. split; [done|].
  unfold c_add_all in Hr2. simpl in Hr2. split.
  - rewrite (size_repr _ _ _ _ _ Hr2), (size_repr _ _ _ _ _ Hr). f_equal.
    rewrite c_size_add, c_size_delete, c_has_delete, Hv by done.
    rewrite isEqual_refl. simpl. lia.
  - intros w. rewrite (has_repr _ _ _ _ _ w Hr2), (has_repr _ _ _ _ _ w Hr). f_equal.
    rewrite c_has_add, c_has_delete by done.
    destruct (isEqual v w) eqn:He; simpl.
    + rewrite orb_true_r. symmetry. by rewrite <- (c_has_isEqual _ _ c He).
    + by rewrite andb_true_r, orb_false_r.
Qed.

(** ** Higher-order traversal *)

Lemma size_of_values h this vs :
  values this h = Some vs → size this h = Some (Z.of_nat (length vs)).
Proof.
  unfold size, values.
  destruct (get__map h this) as [m|]; [|done]. simpl.
  destruct (get_entries h m) as [es|]; [|done]. simpl.
  destruct (read_buckets h es) as [bs|]; [|done]. simpl.
  intros [= <-]. by rewrite sum_lengths.
Qed.

Lemma values_of_size_zero h this :
  size this h = Some 0 → values this h = Some [].
Proof.
  intros Hs. destruct (values this h) as [vs|] eqn:Hv.
  - rewrite (size_of_values _ _ _ Hv) in Hs. injection Hs as Hs.
    destruct vs; [done|simpl in Hs; lia].
  - revert Hs Hv. unfold size, values.
    destruct (get__map h this) as [m|]; [|done]. simpl.
    destruct (get_entries h m) as [es|]; [|done]. simpl.
    by destruct (read_buckets h es) as [bs|].
Qed.

Lemma map_loop_imap {U} (cb : T → Z → loc → U) this vs : ∀ index result,
  map_loop cb this index result vs
  = result ++ imap (λ i v, cb v (index + Z.of_nat i) this) vs.
Proof.
  induction vs as [|v vs IH]; intros index result; simpl.
  - by rewrite app_nil_r.
  - rewrite IH, <- app_assoc. simpl. rewrite Z.add_0_r. do 2 f_equal.
    apply imap_ext. intros i x _. simpl. f_equal. lia.
Qed.

Lemma filter_loop_imap (cb : T → Z → loc → bool) this vs : ∀ index result,
  filter_loop cb this index result vs
  = result ++ (List.filter (λ p : T * Z, cb p.1 p.2 this)
                 (imap (λ i v, (v, index + Z.of_nat i)) vs)).*1.
Proof.
  induction vs as [|v vs IH]; intros index result; simpl.
  - by rewrite app_nil_r.
  - rewrite IH, Z.add_0_r.
    assert (imap ((λ i v0, (v0, index + Z.of_nat i)) ∘ S) vs
            = imap (λ i v0, (v0, index + 1 + Z.of_nat i)) vs) as ->.
    { apply imap_ext. intros i x _. simpl. f_equal. lia. }
    destruct (cb v index this); csimpl; [|done]. by rewrite <- app_assoc.
Qed.

Lemma reduce_loop_foldl {U} (cb : U → T → Z → loc → U) this vs : ∀ index acc,
  reduce_loop cb this index acc vs
  = foldl (λ a (p : T * Z), cb a p.1 p.2 this) acc
          (imap (λ i v, (v, index + Z.of_nat i)) vs).
Proof.
  induction vs as [|v vs IH]; intros index acc; simpl; [done|].
  rewrite IH, Z.add_0_r. f_equal.
  apply imap_ext. intros i x _. simpl. f_equal. lia.
Qed.


Lemma find_loop_filter_loop (cb : T → Z → loc → bool) this vs : ∀ index,
  find_loop cb this index vs = head (filter_loop cb this index [] vs).
Proof.
  induction vs as [|v vs IH]; intros index; simpl; [done|].
  destruct (cb v index this); simpl.
  - by rewrite (filter_loop_imap _ _ _ _ [v]).
  - apply IH.
Qed.

Lemma some_loop_find_loop (cb : T → Z → loc → bool) this vs : ∀ index,
  some_loop cb this index vs
  = match find_loop cb this index vs with Some _ => true | None => false end.
Proof.
  induction vs as [|v vs IH]; intros index; simpl; [done|].
  by destruct (cb v index this).
Qed.

Lemma every_loop_some_loop (cb : T → Z → loc → bool) this vs : ∀ index,
  every_loop cb this index vs
  = negb (some_loop (λ v i s, negb (cb v i s)) this index vs).
Proof.
  induction vs as [|v vs IH]; intros index; simpl; [done|].
  destruct (cb v index this); simpl; [apply IH | done].
Qed.

Lemma find_loop_Some (cb : T → Z → loc → bool) this vs v : ∀ index,
  find_loop cb this index vs = Some v →
  ∃ i, vs !! i = Some v ∧ cb v (index + Z.of_nat i) this = true ∧
       ∀ j w, (j < i)%nat → vs !! j = Some w →
              cb w (index + Z.of_nat j) this = false.
Proof.
  induction vs as [|x vs IH]; intros index; simpl; [done|].
  destruct (cb x index this) eqn:Hx.
  - intros [= ->]. exists 0%nat. rewrite Z.add_0_r. split; [done|]. split; [done|].
    intros j w Hj. lia.
  - intros Hf. destruct (IH _ Hf) as (i & Hi & Hcb & Hbefore).
    exists (S i). split; [done|]. split.
    + rewrite <- Hcb. f_equal. lia.
    + intros [|j] w Hj Hw; simpl in Hw.
      * injection Hw as <-. by rewrite Z.add_0_r.
      * rewrite <- (Hbefore j w); [f_equal; lia | lia | done].
Qed.

(** X22: [map(cb)] returns one result per stored value, in iteration
    order; the callback gets the value, its zero-based position and the
    receiver.  So the result is as long as [size]. *)
Theorem map_positions {U} (cb : T → Z → loc → U) h this :
  DeepSet_map cb this h
  = imap (λ i v, cb v (Z.of_nat i) this) <$> values this h ∧
  ∀ r, DeepSet_map cb this h = Some r → size this h = Some (Z.of_nat (length r)).
Proof.
  assert (DeepSet_map cb this h
          = imap (λ i v, cb v (Z.of_nat i) this) <$> values this h) as Heq.
  { unfold DeepSet_map. destruct (values this h) as [vs|]; [|done]. simpl.
    by rewrite map_loop_imap. }
  split; [done|]. intros r. rewrite Heq.
  destruct (values this h) as [vs|] eqn:Hv; [|done]. simpl.
  intros [= <-]. rewrite length_imap. by apply size_of_values.
Qed.

(** X23: [filter(cb)] returns the stored values the callback accepts at
    their position, in iteration order: a subsequence of [values()]. *)
Theorem filter_positions (cb : T → Z → loc → bool) h this :
  DeepSet_filter cb this h
  = (λ vs, (List.filter (λ p : T * Z, cb p.1 p.2 this)
              (imap (λ i v, (v, Z.of_nat i)) vs)).*1) <$> values this h ∧
  ∀ r vs, DeepSet_filter cb this h = Some r → values this h = Some vs →
          sublist r vs.
Proof.
  assert (DeepSet_filter cb this h
          = (λ vs, (List.filter (λ p : T * Z, cb p.1 p.2 this)
              (imap (λ i v, (v, Z.of_nat i)) vs)).*1) <$> values this h) as Heq.
  { unfold DeepSet_filter. destruct (values this h) as [vs|]; [|done]. simpl.
    by rewrite filter_loop_imap. }
  split; [done|]. intros r vs. rewrite Heq. intros Hr Hv. rewrite Hv in Hr.
  injection Hr as <-. clear.
  assert (∀ index, sublist
            (List.filter (λ p : T * Z, cb p.1 p.2 this)
               (imap (λ i v, (v, index + Z.of_nat i)) vs)).*1 vs) as Hgen.
  { induction vs as [|v vs IH]; intros index; simpl; [constructor|].
    assert (imap ((λ i v0, (v0, index + Z.of_nat i)) ∘ S) vs
            = imap (λ i v0, (v0, index + 1 + Z.of_nat i)) vs) as ->.
    { apply imap_ext. intros i x _. simpl. f_equal. lia. }
    destruct (cb v (index + Z.of_nat 0) this); csimpl.
    - apply sublist_skip, IH.
    - apply sublist_cons, IH. }
  apply (Hgen 0).
Qed.


(** X25: when [find(cb)] returns a value, it is the first one in
    iteration order that the callback accepts: it is stored at some
    position, accepted there, and every earlier value is rejected. *)
Theorem find_first_accepted (cb : T → Z → loc → bool) h this vs v :
  values this h = Some vs →
  DeepSet_find cb this h = Some (Some v) →
  ∃ i, vs !! i = Some v ∧ cb v (Z.of_nat i) this = true ∧
       ∀ j w, (j < i)%nat → vs !! j = Some w → cb w (Z.of_nat j) this = false.
Proof.
  unfold DeepSet_find. intros ->. simpl. intros [= Hf].
  apply find_loop_Some in Hf as (i & Hi & Hcb & Hbefore).
  exists i. split; [done|]. split; [done|]. intros j w Hj Hw.
  by apply (Hbefore j w).
Qed.

(** X26: [find], [some], [every] and [filter] agree: [find] returns the
    first element of [filter]'s result, [some] tells whether [find] found
    one, and [every(cb)] is the negation of [some] of the negated
    callback. *)
Theorem find_some_every_filter (cb : T → Z → loc → bool) h this :
  DeepSet_find cb this h = head <$> DeepSet_filter cb this h ∧
  DeepSet_some cb this h
  = (λ r : option T, match r with Some _ => true | None => false end)
      <$> DeepSet_find cb this h ∧
  DeepSet_every cb this h
  = negb <$> DeepSet_some (λ v i s, negb (cb v i s)) this h.
Proof.
  unfold DeepSet_find, DeepSet_filter, DeepSet_some, DeepSet_every.
  destruct (values this h) as [vs|]; [|done]. simpl.
  by rewrite find_loop_filter_loop, some_loop_find_loop, every_loop_some_loop,
    find_loop_filter_loop.
Qed.

(** X27: [reduce(cb, initialValue)] is the left fold of the callback
    over the stored values paired with their positions, starting from
    [initialValue]. *)
Theorem reduce_fold {U} (cb : U → T → Z → loc → U) initialValue h this :
  DeepSet_reduce cb initialValue this h
  = (λ vs, foldl (λ a (p : T * Z), cb a p.1 p.2 this) initialValue
             (imap (λ i v, (v, Z.of_nat i)) vs)) <$> values this h.
Proof.
  unfold DeepSet_reduce. destruct (values this h) as [vs|]; [|done]. simpl.
  by rewrite reduce_loop_foldl.
Qed.

(** X28: on an empty container the callbacks are never consulted:
    [map], [filter] and [flatMap] return [[]], [reduce] returns the initial
    value, [some] is [false], [every] is [true], [find] is [undefined], and
    the container is a subset of every other one. *)
Theorem traversal_of_empty {U} h this other
    (f : T → Z → loc → U) (p : T → Z → loc → bool)
    (g : T → Z → loc → list U) (r : U → T → Z → loc → U) init :
  size this h = Some 0 →
  DeepSet_map f this h = Some [] ∧
  DeepSet_filter p this h = Some [] ∧
  DeepSet_flatMap g this h = Some [] ∧
  DeepSet_reduce r init this h = Some init ∧
  DeepSet_some p this h = Some false ∧
  DeepSet_every p this h = Some true ∧
  DeepSet_find p this h = Some None ∧
  isSubsetOf this other h = Some true.
Proof.
  intros Hv%values_of_size_zero.
  unfold DeepSet_map, DeepSet_filter, DeepSet_flatMap, DeepSet_reduce,
    DeepSet_some, DeepSet_every, DeepSet_find, isSubsetOf.
  by rewrite Hv.
Qed.

End DeepSet.

(** * Examples on integers *)

Lemma example_isEqual_trans (x y z : Z) :
  (x =? y) = true → (y =? z) = true → (x =? z) = true.
Proof. rewrite !Z.eqb_eq. congruence. Qed.

Lemma example_hash_isEqual (x y : Z) :
  (x =? y) = true → example_hash x = example_hash y.
Proof. rewrite Z.eqb_eq. congruence. Qed.

Lemma example_clone_isEqual (x : Z) : (example_clone x =? x) = true.
Proof. apply Z.eqb_refl. Qed.

Lemma example_A_repr :
  repr example_store 2 1 [(1, 3%positive); (2, 4%positive)] [(1, [1; 11]); (2, [2])].
Proof.
  split.
  - reflexivity.
  - reflexivity.
  - repeat (constructor; [by split|]). constructor.
  - by apply (bool_decide_unpack _).
  - by apply (bool_decide_unpack _).
Qed.

Lemma example_B_repr :
  repr example_store 6 5 [(2, 7%positive); (3, 8%positive)] [(2, [2]); (3, [3])].
Proof.
  split.
  - reflexivity.
  - reflexivity.
  - repeat (constructor; [by split|]). constructor.
  - by apply (bool_decide_unpack _).
  - by apply (bool_decide_unpack _).
Qed.

Lemma example_D_repr :
  repr example_store 10 9 [(5, 11%positive)] [(5, [5])].
Proof.
  split.
  - reflexivity.
  - reflexivity.
  - repeat (constructor; [by split|]). constructor.
  - by apply (bool_decide_unpack _).
  - by apply (bool_decide_unpack _).
Qed.

Lemma example_A_ok : DeepSet_ok example_hash Z.eqb example_store 2.
Proof.
  eexists _, _, _. split; [apply example_A_repr|]. split.
  - repeat constructor; try done; by apply distinctb_sound.
  - by repeat constructor.
Qed.

Lemma example_B_ok : DeepSet_ok example_hash Z.eqb example_store 6.
Proof.
  eexists _, _, _. split; [apply example_B_repr|]. split.
  - repeat constructor; try done; by apply distinctb_sound.
  - by repeat constructor.
Qed.

Lemma example_A_wf : DeepSet_wf example_store 2.
Proof. eexists _, _, _. apply example_A_repr. Qed.

Lemma example_B_wf : DeepSet_wf example_store 6.
Proof. eexists _, _, _. apply example_B_repr. Qed.

Lemma example_D_wf : DeepSet_wf example_store 10.
Proof. eexists _, _, _. apply example_D_repr. Qed.

Lemma example_D_ok : DeepSet_ok example_hash Z.eqb example_store 10.
Proof.
  eexists _, _, _. split; [apply example_D_repr|]. split.
  - repeat constructor; try done; by apply distinctb_sound.
  - by repeat constructor.
Qed.

Lemma example_A_inv : DeepSet_inv Z.eqb example_store 2.
Proof. exact (DeepSet_ok_inv _ _ _ _ example_A_ok). Qed.

(** The example store is the one the constructor builds. *)
Lemma example_store_built :
  bind (new_DeepSet example_hash Z.eqb [1; 11; 2]) (λ A,
  bind (new_DeepSet example_hash Z.eqb [2; 3]) (λ B,
  bind (new_DeepSet example_hash Z.eqb [5]) (λ D, ret (A, B, D)))) ∅
  = Some ((2%positive, 6%positive, 10%positive), example_store).
Proof. vm_compute. reflexivity. Qed.

(** C1 fails on the code: [A = {1, 11, 2}] and [D = {5}] share no value,
    and [A.isDisjointFrom(D)] returns [false], because the union of the two
    is not empty. *)
Theorem isDisjointFrom_disjoint_nonempty :
  (∀ v, ¬ (has example_hash Z.eqb 2 v example_store = Some true ∧
           has example_hash Z.eqb 10 v example_store = Some true)) ∧
  ∃ h', isDisjointFrom example_hash Z.eqb example_clone 2 10 example_store
        = Some (false, h').
Proof.
  split.
  - intros v [HA HD].
    rewrite (has_repr _ _ _ _ _ _ _ v example_A_repr) in HA.
    rewrite (has_repr _ _ _ _ _ _ _ v example_D_repr) in HD.
    injection HA as HA. injection HD as HD.
    apply c_has_values, member_true in HA as (x & Hx & ->%Z.eqb_eq).
    apply c_has_values, member_true in HD as (y & Hy & Hyv%Z.eqb_eq).
    apply list_elem_of_In in Hx, Hy. simpl in Hx, Hy. lia.
  - eexists. vm_compute. reflexivity.
Qed.

(** C4 fails as stated: on [A = {1, 11, 2}], [add(1)] inserts nothing and
    [delete(1)] then removes the member [1]; the size goes from 3 to 2 and
    [has(1)] from [true] to [false]. *)
Lemma add_delete_present_counterexample :
  DeepSet_wf example_store 2 ∧
  ∃ h1 h2,
    add example_hash Z.eqb 2 [1] example_store = Some (2%positive, h1) ∧
    delete example_hash Z.eqb 2 1 h1 = Some (true, h2) ∧
    size 2 example_store = Some 3 ∧ size 2 h2 = Some 2 ∧
    has example_hash Z.eqb 2 1 example_store = Some true ∧
    has example_hash Z.eqb 2 1 h2 = Some false.
Proof.
  split; [apply example_A_wf|].
  eexists _, _. split; [vm_compute; reflexivity|].
  split; [vm_compute; reflexivity|]. by vm_compute.
Qed.

(** ** The theorems at the example store *)

Lemma add_returns_this_witness :
  DeepSet_wf example_store 2 ∧
  ∃ h', add example_hash Z.eqb 2 [1; 7] example_store = Some (2%positive, h') ∧
        DeepSet_wf h' 2.
Proof.
  split; [apply example_A_wf|].
  apply (add_returns_this example_hash Z.eqb example_store 2 [1; 7]), example_A_wf.
Defined.

Lemma add_idempotent_witness :
  (∀ x : Z, (x =? x) = true) ∧ DeepSet_wf example_store 2 ∧
  ∃ h1 h2,
    add example_hash Z.eqb 2 [7] example_store = Some (2%positive, h1) ∧
    add example_hash Z.eqb 2 [7] h1 = Some (2%positive, h2) ∧
    h2 = h1 ∧
    size 2 h2 = size 2 h1 ∧
    (∀ w, has example_hash Z.eqb 2 w h2 = has example_hash Z.eqb 2 w h1) ∧
    add example_hash Z.eqb 2 [7; 7] example_store = Some (2%positive, h1).
Proof.
  split; [apply Z.eqb_refl|]. split; [apply example_A_wf|].
  apply (add_idempotent example_hash Z.eqb Z.eqb_refl example_store 2 7), example_A_wf.
Defined.

Lemma delete_absent_witness :
  DeepSet_wf example_store 2 ∧
  values 2 example_store = Some [1; 11; 2] ∧
  (∀ x : Z, x ∈ [1; 11; 2] → (x =? 21) = false) ∧
  delete example_hash Z.eqb 2 21 example_store = Some (false, example_store).
Proof.
  assert (∀ x : Z, x ∈ [1; 11; 2] → (x =? 21) = false) as Habs.
  { intros x Hx. repeat (apply elem_of_cons in Hx as [->|Hx]; [reflexivity|]).
    by apply elem_of_nil in Hx. }
  split; [apply example_A_wf|]. split; [reflexivity|]. split; [exact Habs|].
  apply (delete_absent example_hash Z.eqb example_store 2 21 [1; 11; 2]);
    [apply example_A_wf | reflexivity | exact Habs].
Defined.

Lemma add_delete_restores_witness :
  (∀ x : Z, (x =? x) = true) ∧ DeepSet_wf example_store 2 ∧
  has example_hash Z.eqb 2 21 example_store = Some false ∧
  ∃ h1 h2,
    add example_hash Z.eqb 2 [21] example_store = Some (2%positive, h1) ∧
    delete example_hash Z.eqb 2 21 h1 = Some (true, h2) ∧
    size 2 h2 = size 2 example_store ∧
    (∀ w, has example_hash Z.eqb 2 w h2 = has example_hash Z.eqb 2 w example_store) ∧
    values 2 h2 = values 2 example_store.
Proof.
  split; [apply Z.eqb_refl|]. split; [apply example_A_wf|]. split; [reflexivity|].
  destruct (add_delete_restores example_hash Z.eqb Z.eqb_refl example_store 2 21
              example_A_wf) as (h1 & h2 & Hadd & Hdel & Hrest).
  exists h1, h2. split; [exact Hadd|]. split; [exact Hdel|].
  apply Hrest. reflexivity.
Defined.

Lemma invariant_preserved_witness :
  (∀ x y : Z, (x =? y) = (y =? x)) ∧
  (∀ x y z : Z, (x =? y) = true → (y =? z) = true → (x =? z) = true) ∧
  (∀ x : Z, (example_clone x =? x) = true) ∧
  DeepSet_inv Z.eqb example_store 2 ∧
  (∃ b h', delete example_hash Z.eqb 2 2 example_store = Some (b, h') ∧
           DeepSet_inv Z.eqb h' 2) ∧
  (∃ r h', clone example_hash Z.eqb example_clone 2 example_store = Some (r, h') ∧
           DeepSet_inv Z.eqb h' r ∧ DeepSet_inv Z.eqb h' 2).
Proof.
  pose proof (DeepSet_ok_inv _ _ _ _ example_A_ok) as Hinv.
  destruct (invariant_preserved example_hash Z.eqb example_clone
              Z.eqb_sym example_isEqual_trans example_clone_isEqual)
    as (_ & _ & Hdelete & _ & Hclone & _).
  split; [apply Z.eqb_sym|]. split; [apply example_isEqual_trans|].
  split; [apply example_clone_isEqual|]. split; [exact Hinv|].
  split; [apply Hdelete, Hinv | apply Hclone, Hinv].
Defined.

Lemma clone_isolation_witness :
  (∀ x y : Z, (x =? y) = (y =? x)) ∧
  (∀ x y z : Z, (x =? y) = true → (y =? z) = true → (x =? z) = true) ∧
  (∀ x : Z, (example_clone x =? x) = true) ∧
  DeepSet_wf example_store 2 ∧
  ∃ r h',
    clone example_hash Z.eqb example_clone 2 example_store = Some (r, h') ∧
    r ≠ 2%positive ∧ size r h' = Some 3 ∧
    ∀ l, ∃ hboth hsource hclone,
      forEach_ (mutate_either example_hash Z.eqb 2 r) l h' = Some (tt, hboth) ∧
      forEach_ (mutate example_hash Z.eqb 2) (aimed_at false l) h' = Some (tt, hsource) ∧
      forEach_ (mutate example_hash Z.eqb r) (aimed_at true l) h' = Some (tt, hclone) ∧
      size 2 hboth = size 2 hsource ∧ size r hboth = size r hclone.
Proof.
  split; [apply Z.eqb_sym|]. split; [apply example_isEqual_trans|].
  split; [apply example_clone_isEqual|]. split; [apply example_A_wf|].
  destruct (clone_isolation example_hash Z.eqb example_clone
              Z.eqb_sym example_isEqual_trans example_clone_isEqual
              example_store 2 example_A_wf)
    as (r & h' & Hclone & Hne & _ & Hsize & _ & _ & _ & _ & _ & Hiso).
  exists r, h'. split; [exact Hclone|]. split; [exact Hne|].
  split; [exact Hsize|]. intros l.
  destruct (Hiso l) as (hboth & hsource & hclone & H1 & H2 & H3 & H4 & _ & _ & H5 & _).
  exists hboth, hsource, hclone. auto.
Defined.

Lemma iteration_order_witness :
  example_hash 1 ≠ example_hash 2 ∧ example_hash 11 = example_hash 1 ∧
  (1 =? 11) = false ∧
  bucket_order example_hash Z.eqb [1; 2; 11] = [1; 11; 2] ∧
  ∃ this h',
    new_DeepSet example_hash Z.eqb [1; 2; 11] ∅ = Some (this, h') ∧
    values this h' = Some (bucket_order example_hash Z.eqb [1; 2; 11]).
Proof.
  destruct (iteration_order example_hash Z.eqb) as [Hgen Habc].
  split; [by vm_compute|]. split; [reflexivity|]. split; [reflexivity|].
  split; [by apply Habc|].
  destruct (Hgen ∅ [1; 2; 11] []) as (this & h1 & h' & Hnew & Hrun & Hvalues & _).
  injection Hrun as <-. exists this, h1. split; [exact Hnew|].
  exact Hvalues.
Defined.

Lemma union_size_witness :
  (∀ x y : Z, (x =? y) = (y =? x)) ∧
  (∀ x y z : Z, (x =? y) = true → (y =? z) = true → (x =? z) = true) ∧
  (∀ x y : Z, (x =? y) = true → example_hash x = example_hash y) ∧
  (∀ x : Z, (example_clone x =? x) = true) ∧
  DeepSet_ok example_hash Z.eqb example_store 2 ∧
  DeepSet_ok example_hash Z.eqb example_store 6 ∧
  ∃ u h1 i h2 na nb nu ni,
    union example_hash Z.eqb example_clone 2 (inl 6%positive) example_store
      = Some (u, h1) ∧
    size u h1 = Some nu ∧ size 2 h1 = Some na ∧ size 6 h1 = Some nb ∧
    intersection example_hash Z.eqb 2 6 h1 = Some (i, h2) ∧
    size i h2 = Some ni ∧
    nu = na + nb - ni.
Proof.
  split; [apply Z.eqb_sym|]. split; [apply example_isEqual_trans|].
  split; [apply example_hash_isEqual|]. split; [apply example_clone_isEqual|].
  split; [apply example_A_ok|]. split; [apply example_B_ok|].
  apply (union_size example_hash Z.eqb example_clone
           Z.eqb_sym example_isEqual_trans example_hash_isEqual example_clone_isEqual
           example_store 2 6 example_A_ok example_B_ok).
Defined.

Lemma symmetricDifference_union_minus_intersection_witness :
  (∀ x y : Z, (x =? y) = (y =? x)) ∧
  (∀ x y z : Z, (x =? y) = true → (y =? z) = true → (x =? z) = true) ∧
  (∀ x y : Z, (x =? y) = true → example_hash x = example_hash y) ∧
  (∀ x : Z, (example_clone x =? x) = true) ∧
  DeepSet_ok example_hash Z.eqb example_store 2 ∧
  DeepSet_ok example_hash Z.eqb example_store 6 ∧
  ∃ s h1 u h2 i h3 d h4,
    symmetricDifference example_hash Z.eqb 2 6 example_store = Some (s, h1) ∧
    union example_hash Z.eqb example_clone 2 (inl 6%positive) h1 = Some (u, h2) ∧
    intersection example_hash Z.eqb 2 6 h2 = Some (i, h3) ∧
    difference example_hash Z.eqb u i h3 = Some (d, h4) ∧
    ∀ w, ∃ b, has example_hash Z.eqb s w h4 = Some b ∧
              has example_hash Z.eqb d w h4 = Some b.
Proof.
  split; [apply Z.eqb_sym|]. split; [apply example_isEqual_trans|].
  split; [apply example_hash_isEqual|]. split; [apply example_clone_isEqual|].
  split; [apply example_A_ok|]. split; [apply example_B_ok|].
  apply (symmetricDifference_union_minus_intersection example_hash Z.eqb example_clone
           Z.eqb_sym example_isEqual_trans example_hash_isEqual example_clone_isEqual
           example_store 2 6 example_A_ok example_B_ok).
Defined.

(** ** The further properties at the example store *)

Lemma has_after_add_witness :
  (∀ x : Z, (x =? x) = true) ∧
  (∀ x y z : Z, (x =? y) = true → (y =? z) = true → (x =? z) = true) ∧
  (∀ x y : Z, (x =? y) = true → example_hash x = example_hash y) ∧
  DeepSet_wf example_store 2 ∧
  ∃ h', add example_hash Z.eqb 2 [7; 1] example_store = Some (2%positive, h') ∧
    (∀ w, ∃ b, has example_hash Z.eqb 2 w example_store = Some b ∧
               has example_hash Z.eqb 2 w h' = Some (b || member Z.eqb [7; 1] w)) ∧
    ∀ v, v ∈ [7; 1] → has example_hash Z.eqb 2 v h' = Some true.
Proof.
  split; [apply Z.eqb_refl|]. split; [apply example_isEqual_trans|].
  split; [apply example_hash_isEqual|]. split; [apply example_A_wf|].
  apply (has_after_add example_hash Z.eqb Z.eqb_refl example_isEqual_trans
           example_hash_isEqual example_store 2 [7; 1] example_A_wf).
Defined.

Lemma size_after_add_witness :
  DeepSet_wf example_store 2 ∧
  ∃ h' b n,
    add example_hash Z.eqb 2 [21] example_store = Some (2%positive, h') ∧
    has example_hash Z.eqb 2 21 example_store = Some b ∧
    size 2 example_store = Some n ∧
    size 2 h' = Some (if b then n else n + 1).
Proof.
  split; [apply example_A_wf|].
  apply (size_after_add example_hash Z.eqb example_store 2 21 example_A_wf).
Defined.

Lemma delete_reports_membership_witness :
  DeepSet_wf example_store 2 ∧
  ∃ b h' n,
    delete example_hash Z.eqb 2 11 example_store = Some (b, h') ∧
    has example_hash Z.eqb 2 11 example_store = Some b ∧
    size 2 example_store = Some n ∧
    size 2 h' = Some (if b then n - 1 else n).
Proof.
  split; [apply example_A_wf|].
  apply (delete_reports_membership example_hash Z.eqb example_store 2 11 example_A_wf).
Defined.

Lemma has_after_delete_witness :
  (∀ x : Z, (x =? x) = true) ∧
  (∀ x y : Z, (x =? y) = (y =? x)) ∧
  (∀ x y z : Z, (x =? y) = true → (y =? z) = true → (x =? z) = true) ∧
  (∀ x y : Z, (x =? y) = true → example_hash x = example_hash y) ∧
  DeepSet_inv Z.eqb example_store 2 ∧
  ∃ b h',
    delete example_hash Z.eqb 2 11 example_store = Some (b, h') ∧
    (∀ w, ∃ bw, has example_hash Z.eqb 2 w example_store = Some bw ∧
                has example_hash Z.eqb 2 w h' = Some (bw && negb (11 =? w))) ∧
    has example_hash Z.eqb 2 11 h' = Some false.
Proof.
  split; [apply Z.eqb_refl|]. split; [apply Z.eqb_sym|].
  split; [apply example_isEqual_trans|]. split; [apply example_hash_isEqual|].
  split; [apply example_A_inv|].
  apply (has_after_delete example_hash Z.eqb Z.eqb_refl Z.eqb_sym example_isEqual_trans
           example_hash_isEqual example_store 2 11 example_A_inv).
Defined.

Lemma clear_empties_witness :
  DeepSet_wf example_store 2 ∧
  ∃ h', clear 2 example_store = Some (tt, h') ∧
        size 2 h' = Some 0 ∧ values 2 h' = Some [] ∧
        ∀ v, has example_hash Z.eqb 2 v h' = Some false.
Proof.
  split; [apply example_A_wf|].
  apply (clear_empties example_hash Z.eqb example_store 2 example_A_wf).
Defined.




Lemma intersection_has_witness :
  (∀ x y : Z, (x =? y) = (y =? x)) ∧
  (∀ x y z : Z, (x =? y) = true → (y =? z) = true → (x =? z) = true) ∧
  (∀ x y : Z, (x =? y) = true → example_hash x = example_hash y) ∧
  DeepSet_ok example_hash Z.eqb example_store 2 ∧ DeepSet_wf example_store 6 ∧
  ∃ r h',
    intersection example_hash Z.eqb 2 6 example_store = Some (r, h') ∧
    ∀ w, ∃ a b, has example_hash Z.eqb 2 w example_store = Some a ∧
                has example_hash Z.eqb 6 w example_store = Some b ∧
                has example_hash Z.eqb r w h' = Some (a && b).
Proof.
  split; [apply Z.eqb_sym|]. split; [apply example_isEqual_trans|].
  split; [apply example_hash_isEqual|]. split; [apply example_A_ok|].
  split; [apply example_B_wf|].
  apply (intersection_has example_hash Z.eqb Z.eqb_sym example_isEqual_trans
           example_hash_isEqual example_store 2 6 example_A_ok example_B_wf).
Defined.

Lemma difference_has_witness :
  (∀ x y : Z, (x =? y) = (y =? x)) ∧
  (∀ x y z : Z, (x =? y) = true → (y =? z) = true → (x =? z) = true) ∧
  (∀ x y : Z, (x =? y) = true → example_hash x = example_hash y) ∧
  DeepSet_ok example_hash Z.eqb example_store 2 ∧ DeepSet_wf example_store 6 ∧
  ∃ r h',
    difference example_hash Z.eqb 2 6 example_store = Some (r, h') ∧
    ∀ w, ∃ a b, has example_hash Z.eqb 2 w example_store = Some a ∧
                has example_hash Z.eqb 6 w example_store = Some b ∧
                has example_hash Z.eqb r w h' = Some (a && negb b).
Proof.
  split; [apply Z.eqb_sym|]. split; [apply example_isEqual_trans|].
  split; [apply example_hash_isEqual|]. split; [apply example_A_ok|].
  split; [apply example_B_wf|].
  apply (difference_has example_hash Z.eqb Z.eqb_sym example_isEqual_trans
           example_hash_isEqual example_store 2 6 example_A_ok example_B_wf).
Defined.

Lemma symmetricDifference_has_witness :
  (∀ x y : Z, (x =? y) = (y =? x)) ∧
  (∀ x y z : Z, (x =? y) = true → (y =? z) = true → (x =? z) = true) ∧
  (∀ x y : Z, (x =? y) = true → example_hash x = example_hash y) ∧
  DeepSet_ok example_hash Z.eqb example_store 2 ∧
  DeepSet_ok example_hash Z.eqb example_store 6 ∧
  ∃ r h',
    symmetricDifference example_hash Z.eqb 2 6 example_store = Some (r, h') ∧
    ∀ w, ∃ a b, has example_hash Z.eqb 2 w example_store = Some a ∧
                has example_hash Z.eqb 6 w example_store = Some b ∧
                has example_hash Z.eqb r w h' = Some (xorb a b).
Proof.
  split; [apply Z.eqb_sym|]. split; [apply example_isEqual_trans|].
  split; [apply example_hash_isEqual|]. split; [apply example_A_ok|].
  split; [apply example_B_ok|].
  apply (symmetricDifference_has example_hash Z.eqb Z.eqb_sym example_isEqual_trans
           example_hash_isEqual example_store 2 6 example_A_ok example_B_ok).
Defined.

Lemma union_has_witness :
  (∀ x y : Z, (x =? y) = (y =? x)) ∧
  (∀ x y z : Z, (x =? y) = true → (y =? z) = true → (x =? z) = true) ∧
  (∀ x y : Z, (x =? y) = true → example_hash x = example_hash y) ∧
  (∀ x : Z, (example_clone x =? x) = true) ∧
  DeepSet_ok example_hash Z.eqb example_store 2 ∧
  Forall (DeepSet_ok example_hash Z.eqb example_store) [6%positive; 10%positive] ∧
  ∃ r h',
    union example_hash Z.eqb example_clone 2 (inr [6%positive; 10%positive])
      example_store = Some (r, h') ∧
    ∀ w, ∃ b, has example_hash Z.eqb r w h' = Some b ∧
              (b = true ↔
               has example_hash Z.eqb 2 w example_store = Some true ∨
               ∃ s, s ∈ [6%positive; 10%positive] ∧
                    has example_hash Z.eqb s w example_store = Some true).
Proof.
  assert (Forall (DeepSet_ok example_hash Z.eqb example_store)
            [6%positive; 10%positive]) as Hothers.
  { constructor; [apply example_B_ok|]. constructor; [apply example_D_ok|].
    constructor. }
  split; [apply Z.eqb_sym|]. split; [apply example_isEqual_trans|].
  split; [apply example_hash_isEqual|]. split; [apply example_clone_isEqual|].
  split; [apply example_A_ok|]. split; [exact Hothers|].
  apply (union_has example_hash Z.eqb example_clone Z.eqb_sym example_isEqual_trans
           example_hash_isEqual example_clone_isEqual example_store 2
           (inr [6%positive; 10%positive]) example_A_ok Hothers).
Defined.


Lemma intersection_size_le_witness :
  (∀ x y : Z, (x =? y) = (y =? x)) ∧
  (∀ x y z : Z, (x =? y) = true → (y =? z) = true → (x =? z) = true) ∧
  (∀ x y : Z, (x =? y) = true → example_hash x = example_hash y) ∧
  DeepSet_ok example_hash Z.eqb example_store 2 ∧
  DeepSet_ok example_hash Z.eqb example_store 6 ∧
  ∃ i h' ni na nb,
    intersection example_hash Z.eqb 2 6 example_store = Some (i, h') ∧
    size i h' = Some ni ∧ size 2 example_store = Some na ∧
    size 6 example_store = Some nb ∧ ni ≤ na ∧ ni ≤ nb.
Proof.
  split; [apply Z.eqb_sym|]. split; [apply example_isEqual_trans|].
  split; [apply example_hash_isEqual|]. split; [apply example_A_ok|].
  split; [apply example_B_ok|].
  apply (intersection_size_le example_hash Z.eqb Z.eqb_sym example_isEqual_trans
           example_hash_isEqual example_store 2 6 example_A_ok example_B_ok).
Defined.

Lemma difference_size_witness :
  (∀ x y : Z, (x =? y) = (y =? x)) ∧
  (∀ x y z : Z, (x =? y) = true → (y =? z) = true → (x =? z) = true) ∧
  (∀ x y : Z, (x =? y) = true → example_hash x = example_hash y) ∧
  DeepSet_ok example_hash Z.eqb example_store 2 ∧ DeepSet_wf example_store 6 ∧
  ∃ d h1 i h2 nd ni na,
    difference example_hash Z.eqb 2 6 example_store = Some (d, h1) ∧
    size d h1 = Some nd ∧
    intersection example_hash Z.eqb 2 6 h1 = Some (i, h2) ∧
    size i h2 = Some ni ∧ size 2 example_store = Some na ∧ nd + ni = na.
Proof.
  split; [apply Z.eqb_sym|]. split; [apply example_isEqual_trans|].
  split; [apply example_hash_isEqual|]. split; [apply example_A_ok|].
  split; [apply example_B_wf|].
  apply (difference_size example_hash Z.eqb Z.eqb_sym example_isEqual_trans
           example_hash_isEqual example_store 2 6 example_A_ok example_B_wf).
Defined.

Lemma intersection_difference_order_witness :
  (∀ x y : Z, (x =? y) = (y =? x)) ∧
  DeepSet_ok example_hash Z.eqb example_store 2 ∧ DeepSet_wf example_store 6 ∧
  ∃ vs inB i h1 d h2,
    values 2 example_store = Some vs ∧
    (∀ v, has example_hash Z.eqb 6 v example_store = Some (inB v)) ∧
    intersection example_hash Z.eqb 2 6 example_store = Some (i, h1) ∧
    values i h1 = Some (List.filter inB vs) ∧
    difference example_hash Z.eqb 2 6 example_store = Some (d, h2) ∧
    values d h2 = Some (List.filter (λ v, negb (inB v)) vs).
Proof.
  split; [apply Z.eqb_sym|]. split; [apply example_A_ok|].
  split; [apply example_B_wf|].
  apply (intersection_difference_order example_hash Z.eqb Z.eqb_sym example_store
           2 6 example_A_ok example_B_wf).
Defined.

Lemma isSubsetOf_members_witness :
  (∀ x : Z, (x =? x) = true) ∧
  (∀ x y : Z, (x =? y) = (y =? x)) ∧
  (∀ x y z : Z, (x =? y) = true → (y =? z) = true → (x =? z) = true) ∧
  (∀ x y : Z, (x =? y) = true → example_hash x = example_hash y) ∧
  DeepSet_ok example_hash Z.eqb example_store 2 ∧ DeepSet_wf example_store 6 ∧
  ∃ b,
    isSubsetOf example_hash Z.eqb 2 6 example_store = Some b ∧
    isSupersetOf example_hash Z.eqb 6 2 example_store = Some b ∧
    (b = true ↔
     ∀ v, has example_hash Z.eqb 2 v example_store = Some true →
          has example_hash Z.eqb 6 v example_store = Some true).
Proof.
  split; [apply Z.eqb_refl|]. split; [apply Z.eqb_sym|].
  split; [apply example_isEqual_trans|]. split; [apply example_hash_isEqual|].
  split; [apply example_A_ok|]. split; [apply example_B_wf|].
  apply (isSubsetOf_members example_hash Z.eqb Z.eqb_refl Z.eqb_sym
           example_isEqual_trans example_hash_isEqual example_store 2 6
           example_A_ok example_B_wf).
Defined.


Lemma isSubsetOf_difference_empty_witness :
  DeepSet_wf example_store 2 ∧ DeepSet_wf example_store 6 ∧
  ∃ b d h' n,
    isSubsetOf example_hash Z.eqb 2 6 example_store = Some b ∧
    difference example_hash Z.eqb 2 6 example_store = Some (d, h') ∧
    size d h' = Some n ∧ b = (n =? 0).
Proof.
  split; [apply example_A_wf|]. split; [apply example_B_wf|].
  apply (isSubsetOf_difference_empty example_hash Z.eqb example_store 2 6
           example_A_wf example_B_wf).
Defined.

Lemma delete_add_restores_witness :
  (∀ x : Z, (x =? x) = true) ∧
  (∀ x y : Z, (x =? y) = (y =? x)) ∧
  (∀ x y z : Z, (x =? y) = true → (y =? z) = true → (x =? z) = true) ∧
  (∀ x y : Z, (x =? y) = true → example_hash x = example_hash y) ∧
  DeepSet_inv Z.eqb example_store 2 ∧
  has example_hash Z.eqb 2 1 example_store = Some true ∧
  ∃ h1 h2,
    delete example_hash Z.eqb 2 1 example_store = Some (true, h1) ∧
    add example_hash Z.eqb 2 [1] h1 = Some (2%positive, h2) ∧
    size 2 h2 = size 2 example_store ∧
    ∀ w, has example_hash Z.eqb 2 w h2 = has example_hash Z.eqb 2 w example_store.
Proof.
  split; [apply Z.eqb_refl|]. split; [apply Z.eqb_sym|].
  split; [apply example_isEqual_trans|]. split; [apply example_hash_isEqual|].
  split; [apply example_A_inv|]. split; [reflexivity|].
  apply (delete_add_restores example_hash Z.eqb Z.eqb_refl Z.eqb_sym
           example_isEqual_trans example_hash_isEqual example_store 2 1
           example_A_inv); reflexivity.
Defined.

Lemma map_positions_witness :
  DeepSet_map (λ v i (_ : positive), 100 * i + v) 2 example_store
    = Some [1; 111; 202] ∧
  size 2 example_store = Some (Z.of_nat (length [1; 111; 202])).
Proof.
  split; [reflexivity|].
  apply (map_positions (λ v i (_ : positive), 100 * i + v) example_store 2);
    reflexivity.
Defined.

Lemma filter_positions_witness :
  DeepSet_filter (λ v i (_ : positive), (v <? 10) && (0 <? i)) 2 example_store
    = Some [2] ∧
  values 2 example_store = Some [1; 11; 2] ∧
  sublist [2] [1; 11; 2].
Proof.
  split; [reflexivity|]. split; [reflexivity|].
  apply (filter_positions (λ v i (_ : positive), (v <? 10) && (0 <? i))
           example_store 2); reflexivity.
Defined.

Lemma find_first_accepted_witness :
  values 2 example_store = Some [1; 11; 2] ∧
  DeepSet_find (λ v (_ : Z) (_ : positive), 1 <? v) 2 example_store
    = Some (Some 11) ∧
  ∃ i, [1; 11; 2] !! i = Some 11 ∧ (1 <? 11) = true ∧
       ∀ j w, (j < i)%nat → [1; 11; 2] !! j = Some w → (1 <? w) = false.
Proof.
  split; [reflexivity|]. split; [reflexivity|].
  apply (find_first_accepted (λ v (_ : Z) (_ : positive), 1 <? v) example_store 2
           [1; 11; 2] 11); reflexivity.
Defined.

Lemma traversal_of_empty_witness :
  ∃ h, clear 2 example_store = Some (tt, h) ∧
    size 2 h = Some 0 ∧
    DeepSet_map (λ v (_ : Z) (_ : positive), v + 1) 2 h = Some [] ∧
    DeepSet_filter (λ _ _ _, true) 2 h = Some [] ∧
    DeepSet_flatMap (λ v (_ : Z) (_ : positive), [v; v]) 2 h = Some [] ∧
    DeepSet_reduce (λ acc v (_ : Z) (_ : positive), acc + v) 0 2 h = Some 0 ∧
    DeepSet_some (λ _ _ _, true) 2 h = Some false ∧
    DeepSet_every (λ _ _ _, true) 2 h = Some true ∧
    DeepSet_find (λ _ _ _, true) 2 h = Some None ∧
    isSubsetOf example_hash Z.eqb 2 6 h = Some true.
Proof.
  eexists. split; [reflexivity|]. split; [reflexivity|].
  apply (traversal_of_empty example_hash Z.eqb _ 2 6
           (λ v (_ : Z) (_ : positive), v + 1) (λ _ _ _, true)
           (λ v (_ : Z) (_ : positive), [v; v])
           (λ acc v (_ : Z) (_ : positive), acc + v) 0).
  reflexivity.
Defined.

Lemma isDisjointFrom_both_empty_witness :
  DeepSet_wf example_store 2 ∧ DeepSet_wf example_store 10 ∧
  ∃ b h' n n',
    isDisjointFrom example_hash Z.eqb example_clone 2 10 example_store
      = Some (b, h') ∧
    size 2 example_store = Some n ∧ size 10 example_store = Some n' ∧
    (b = true ↔ n = 0 ∧ n' = 0).
Proof.
  split; [apply example_A_wf|]. split; [apply example_D_wf|].
  apply (isDisjointFrom_both_empty example_hash Z.eqb example_clone example_store
           2 10 example_A_wf example_D_wf).
Defined.

